(** * Personal CRM (tasks, next steps, calendar): the derived-view layer

    A shallow embedding of [src/personal_crm_tasks_calendar_v_1.jsx]: the task
    store and its mutations, the filter / sort / group / metrics projections,
    nearest-next-step selection, the calendar grid with its day-to-task
    mapping, the JSON export / import pair, the two local-storage effects,
    the calendar navigation, the due badge, the class-list helper and the
    task form.

    Conventions of the embedding.
    - A JavaScript string is a [string]: a sequence of code units, here the
      code units below 256.  The relational operators on strings compare by
      code unit, which is [String.compare].  [localeCompare] is given the same
      order: on the date alphabet (digits and the hyphen) and on the five
      category names the host collation and the code-unit order coincide.
      On other strings they do not: the statements that depend on it take
      the collation of the host as a parameter.
    - An optional property ([dueDate?: string]) is an [option]; a property that
      is absent and one that holds [undefined] are both [None], as the
      TypeScript type has it.  [undefined] and [null] results are both [None].
    - A [Date] is its time value, an integer number of milliseconds since the
      epoch, in the range where [TimeClip] is the identity.  The host
      environment is a clock reading and a fixed local time zone offset.
    - React state is threaded explicitly through a [State] record. *)

From Stdlib Require Import ZArith Lia List Ascii String.
From Stdlib Require Import Structures.OrdersEx.
From stdpp Require Import base option list gmap strings sorting fin_maps.

Local Open Scope Z_scope.

(** ** JavaScript strings *)

Module JSString.

(** [a.localeCompare(b)], by sign, on the strings the program makes: due
    dates, the key "9999", creation stamps and category names, which every
    host collates in the order of their code units.  The collation of a
    host on all strings is the parameter [collate] of the section "The
    views on a host". *)
Definition localeCompare (a b : string) : comparison := String.compare a b.

(** [a <= b] on strings. *)
Definition le (a b : string) : bool := String.leb a b.

(** [!!s] for a string: only the empty string is falsy. *)
Definition nonempty (s : string) : bool := negb (String.eqb s "").

(** [!!o] for an optional string. *)
Definition truthy (o : option string) : bool :=
  match o with
  | Some s => nonempty s
  | None => false
  end.

(** [o || d] for an optional string [o]. *)
Definition or_else (o : option string) (d : string) : string :=
  match o with
  | Some s => if nonempty s then s else d
  | None => d
  end.

Definition lower_unit (c : ascii) : ascii :=
  let n := N_of_ascii c in
  if ((65 <=? n) && (n <=? 90))%N then ascii_of_N (n + 32)
  else if ((192 <=? n) && (n <=? 222) && negb (n =? 215))%N then ascii_of_N (n + 32)
  else c.

(** [s.toLowerCase()] on code units below 256. *)
Fixpoint toLowerCase (s : string) : string :=
  match s with
  | EmptyString => EmptyString
  | String c r => String (lower_unit c) (toLowerCase r)
  end.

(** White space and line terminators below 256. *)
Definition is_space (c : ascii) : bool :=
  let n := N_of_ascii c in
  ((n =? 9) || (n =? 10) || (n =? 11) || (n =? 12) || (n =? 13) || (n =? 32) || (n =? 160))%N.

Fixpoint trimStart (s : string) : string :=
  match s with
  | EmptyString => EmptyString
  | String c r => if is_space c then trimStart r else s
  end.

Fixpoint trimEnd (s : string) : string :=
  match s with
  | EmptyString => EmptyString
  | String c r =>
      match trimEnd r with
      | EmptyString => if is_space c then EmptyString else String c EmptyString
      | r' => String c r'
      end
  end.

(** [s.trim()]. *)
Definition trim (s : string) : string := trimEnd (trimStart s).

(** [s.includes(q)]. *)
Fixpoint includes (s q : string) : bool :=
  String.prefix q s ||
  match s with
  | EmptyString => false
  | String _ r => includes r q
  end.

(** [s.slice(0, n)]. *)
Definition slice0 (n : nat) (s : string) : string := String.substring 0 n s.

End JSString.

(** ** Data model *)

Inductive Category := Dealership | Family | Business | Spiritual | Personal.

Inductive Status := Active | Pending | Completed.

Definition CATEGORIES : list Category :=
  [Dealership; Family; Business; Spiritual; Personal].

Definition STATUSES : list Status := [Active; Pending; Completed].

#[global] Instance Category_eq_dec : EqDecision Category.
Proof. solve_decision. Defined.

#[global] Instance Status_eq_dec : EqDecision Status.
Proof. solve_decision. Defined.

Definition Category_code (c : Category) : nat :=
  match c with
  | Dealership => 0 | Family => 1 | Business => 2 | Spiritual => 3 | Personal => 4
  end%nat.

Definition Category_decode (n : nat) : option Category :=
  match n with
  | 0 => Some Dealership | 1 => Some Family | 2 => Some Business
  | 3 => Some Spiritual | 4 => Some Personal | _ => None
  end%nat.

#[global] Instance Category_countable : Countable Category.
Proof.
  apply (inj_countable Category_code Category_decode).
  intros []; reflexivity.
Defined.

(** The string each member of the union type is at run time. *)
Definition Category_name (c : Category) : string :=
  match c with
  | Dealership => "Dealership" | Family => "Family" | Business => "Business"
  | Spiritual => "Spiritual" | Personal => "Personal"
  end.

Definition Status_name (s : Status) : string :=
  match s with
  | Active => "Active" | Pending => "Pending" | Completed => "Completed"
  end.

Module NextStep.
Record t := mk {
  id : string;
  text : string;
  dueDate : option string;  (* ISO date (YYYY-MM-DD) *)
  done : option bool;
}.
End NextStep.

Module Task.
Record t := mk {
  id : string;
  title : string;
  description : option string;
  category : Category;
  status : Status;
  dueDate : option string;  (* ISO date *)
  createdAt : string;       (* ISO *)
  nextSteps : list NextStep.t;
}.

(** [{ ...t, status: s }]. *)
Definition with_status (s : Status) (x : t) : t :=
  mk (id x) (title x) (description x) (category x) s (dueDate x)
     (createdAt x) (nextSteps x).
End Task.

#[global] Instance NextStep_eq_dec : EqDecision NextStep.t.
Proof. solve_decision. Defined.

#[global] Instance Task_eq_dec : EqDecision Task.t.
Proof. solve_decision. Defined.

(** ** React state of [PersonalCRM] *)

Inductive SortKey := SortDueDate | SortCreatedAt | SortCategory.
Inductive View := Grid | Table | Calendar.
Inductive CalendarMode := Month | Week | Day.

Record State := mkState {
  tasks : list Task.t;
  query : string;
  activeCategories : list Category;
  statusFilter : option Status;   (* [None] is "All" *)
  sortKey : SortKey;
  view : View;
  showModal : bool;
  editing : option Task.t;
  calendarCursor : Z;             (* a Date *)
  calendarMode : CalendarMode;
}.

(** [setTasks(f)] with an updater function. *)
Definition setTasks (f : list Task.t -> list Task.t) (st : State) : State :=
  mkState (f (tasks st)) (query st) (activeCategories st) (statusFilter st)
          (sortKey st) (view st) (showModal st) (editing st)
          (calendarCursor st) (calendarMode st).

Definition setEditing (e : option Task.t) (st : State) : State :=
  mkState (tasks st) (query st) (activeCategories st) (statusFilter st)
          (sortKey st) (view st) (showModal st) e
          (calendarCursor st) (calendarMode st).

Definition setShowModal (b : bool) (st : State) : State :=
  mkState (tasks st) (query st) (activeCategories st) (statusFilter st)
          (sortKey st) (view st) b (editing st)
          (calendarCursor st) (calendarMode st).

Definition setActiveCategories (f : list Category -> list Category) (st : State) : State :=
  mkState (tasks st) (query st) (f (activeCategories st)) (statusFilter st)
          (sortKey st) (view st) (showModal st) (editing st)
          (calendarCursor st) (calendarMode st).

Definition resetForm (st : State) : State :=
  setShowModal false (setEditing None st).

(** ** Task store *)

(** The updater [upsertTask] hands to [setTasks]. *)
Definition upsert (task : Task.t) (prev : list Task.t) : list Task.t :=
  let exists_ := existsb (fun p => String.eqb (Task.id p) (Task.id task)) prev in
  if exists_
  then map (fun p => if String.eqb (Task.id p) (Task.id task) then task else p) prev
  else task :: prev.

Definition upsertTask (task : Task.t) (st : State) : State :=
  resetForm (setTasks (upsert task) st).

Definition removeTask (id : string) (st : State) : State :=
  setTasks (List.filter (fun p => negb (String.eqb (Task.id p) id))) st.

Definition toggleCategory (cat : Category) (st : State) : State :=
  setActiveCategories
    (fun prev =>
       if bool_decide (cat ∈ prev)
       then List.filter (fun c => negb (bool_decide (c = cat))) prev
       else prev ++ [cat])
    st.

(** The [next] task built by [onToggleComplete]. *)
Definition toggled (t : Task.t) : Task.t :=
  Task.with_status
    (if bool_decide (Task.status t = Completed) then Active else Completed) t.

(** [onToggleComplete] of the card of [t]. *)
Definition onToggleComplete (t : Task.t) (st : State) : State :=
  upsertTask (toggled t) st.

(** ** The other state updates *)

(** [setQuery(e.target.value)] of the search box. *)
Definition setQuery (q : string) (st : State) : State :=
  mkState (tasks st) q (activeCategories st) (statusFilter st)
          (sortKey st) (view st) (showModal st) (editing st)
          (calendarCursor st) (calendarMode st).

Definition setCalendarCursor (f : Z -> Z) (st : State) : State :=
  mkState (tasks st) (query st) (activeCategories st) (statusFilter st)
          (sortKey st) (view st) (showModal st) (editing st)
          (f (calendarCursor st)) (calendarMode st).

(** The edit buttons: [setEditing(t); setShowModal(true)]. *)
Definition onEdit (t : Task.t) (st : State) : State :=
  setShowModal true (setEditing (Some t) st).

(** [showModal && editing]: whether the modal with the form is rendered. *)
Definition modalShown (st : State) : bool :=
  showModal st && bool_decide (is_Some (editing st)).

(** ** Dates

    The time-value arithmetic of ECMAScript's Date objects (ECMA-262, "Date
    Objects"), over mathematical integers. *)

Module JSDate.

Definition msPerDay : Z := 86400000.

Definition Day (t : Z) : Z := t / msPerDay.
Definition TimeWithinDay (t : Z) : Z := t mod msPerDay.

Definition isLeap (y : Z) : bool :=
  if negb (y mod 4 =? 0) then false
  else if negb (y mod 100 =? 0) then true
  else if negb (y mod 400 =? 0) then false
  else true.

Definition DaysInYear (y : Z) : Z := if isLeap y then 366 else 365.

Definition DayFromYear (y : Z) : Z :=
  365 * (y - 1970) + (y - 1969) / 4 - (y - 1901) / 100 + (y - 1601) / 400.

(** The largest year [y] with [DayFromYear y <= d]: a first estimate from
    the mean year length, corrected by at most one year. *)
Definition YearFromDay (d : Z) : Z :=
  let y0 := 1970 + (d * 400) / 146097 in
  if DayFromYear (y0 + 1) <=? d then y0 + 1
  else if DayFromYear y0 <=? d then y0
  else y0 - 1.

Definition YearFromTime (t : Z) : Z := YearFromDay (Day t).

Definition InLeapYear (t : Z) : Z :=
  if isLeap (YearFromTime t) then 1 else 0.

Definition DayWithinYear (t : Z) : Z := Day t - DayFromYear (YearFromTime t).

(** Days of the year before month [m] (0 = January), [leap] being 0 or 1. *)
Definition daysBeforeMonth (leap m : Z) : Z :=
  match m with
  | 0 => 0
  | 1 => 31
  | 2 => 59 + leap
  | 3 => 90 + leap
  | 4 => 120 + leap
  | 5 => 151 + leap
  | 6 => 181 + leap
  | 7 => 212 + leap
  | 8 => 243 + leap
  | 9 => 273 + leap
  | 10 => 304 + leap
  | _ => 334 + leap
  end.

(** The month (0 = January) of day [d] of a year, [leap] being 0 or 1. *)
Definition monthOfDayWithinYear (leap d : Z) : Z :=
  if d <? 31 then 0
  else if d <? 59 + leap then 1
  else if d <? 90 + leap then 2
  else if d <? 120 + leap then 3
  else if d <? 151 + leap then 4
  else if d <? 181 + leap then 5
  else if d <? 212 + leap then 6
  else if d <? 243 + leap then 7
  else if d <? 273 + leap then 8
  else if d <? 304 + leap then 9
  else if d <? 334 + leap then 10
  else 11.

Definition MonthFromTime (t : Z) : Z :=
  monthOfDayWithinYear (InLeapYear t) (DayWithinYear t).

Definition DateFromTime (t : Z) : Z :=
  DayWithinYear t - daysBeforeMonth (InLeapYear t) (MonthFromTime t) + 1.

Definition WeekDay (t : Z) : Z := (Day t + 4) mod 7.

Definition HourFromTime (t : Z) : Z := (t / 3600000) mod 24.
Definition MinFromTime (t : Z) : Z := (t / 60000) mod 60.
Definition SecFromTime (t : Z) : Z := (t / 1000) mod 60.
Definition msFromTime (t : Z) : Z := t mod 1000.

Definition MakeTime (h m s ms : Z) : Z := h * 3600000 + m * 60000 + s * 1000 + ms.

(** [MakeDay(year, month, date)]: the day number of the first of the month,
    the month carried into the year, plus [date - 1]. *)
Definition MakeDay (year month date : Z) : Z :=
  let ym := year + month / 12 in
  let mn := month mod 12 in
  DayFromYear ym + daysBeforeMonth (if isLeap ym then 1 else 0) mn + date - 1.

Definition MakeDate (day time : Z) : Z := day * msPerDay + time.

(** The host: what [new Date()] reads, and the offset of local time from
    UTC in milliseconds (positive east of Greenwich), taken constant. *)
Record Env := mkEnv {
  now : Z;
  LocalTZA : Z;
}.

Definition LocalTime (env : Env) (t : Z) : Z := t + LocalTZA env.
Definition UTC (env : Env) (t : Z) : Z := t - LocalTZA env.

Definition getFullYear (env : Env) (d : Z) : Z := YearFromTime (LocalTime env d).
Definition getMonth (env : Env) (d : Z) : Z := MonthFromTime (LocalTime env d).
Definition getDate (env : Env) (d : Z) : Z := DateFromTime (LocalTime env d).
Definition getDay (env : Env) (d : Z) : Z := WeekDay (LocalTime env d).

(** [d.setDate(dt)], returning the new time value.  The offset of the
    host being constant, no daylight-saving change moves the time of day;
    the result is not clipped to the range of time values. *)
Definition setDate (env : Env) (d dt : Z) : Z :=
  let t := LocalTime env d in
  UTC env (MakeDate (MakeDay (YearFromTime t) (MonthFromTime t) dt) (TimeWithinDay t)).

(** [new Date(year, month, date)]: local midnight; a year from 0 to 99 is
    read as 1900 + year. *)
Definition ofYMD (env : Env) (year month date : Z) : Z :=
  let yr := if (0 <=? year) && (year <=? 99) then 1900 + year else year in
  UTC env (MakeDate (MakeDay yr month date) 0).

(** What [toDateString] prints: week day, month, day of the month and year
    of the local date ("Mon Jun 10 2024"). *)
Record DateString := mkDateString {
  ds_weekday : Z;
  ds_month : Z;
  ds_date : Z;
  ds_year : Z;
}.

Definition toDateString (env : Env) (d : Z) : DateString :=
  let t := LocalTime env d in
  mkDateString (WeekDay t) (MonthFromTime t) (DateFromTime t) (YearFromTime t).

(** [new Date(s)] for a string printed by [toDateString]: local midnight of
    the date it names. *)
Definition ofDateString (env : Env) (s : DateString) : Z :=
  UTC env (MakeDate (MakeDay (ds_year s) (ds_month s) (ds_date s)) 0).

#[global] Instance DateString_eq_dec : EqDecision DateString.
Proof. solve_decision. Defined.

(** *** Printing and reading ISO strings *)

Definition digit (n : Z) : ascii := ascii_of_N (48 + Z.to_N (n mod 10)).

(** [n] in [w] decimal digits, zero padded. *)
Fixpoint pad (w : nat) (n : Z) : string :=
  match w with
  | O => EmptyString
  | S w' => pad w' (n / 10) ++ String (digit n) EmptyString
  end.

Definition isoYear (y : Z) : string :=
  if (0 <=? y) && (y <=? 9999) then pad 4 y
  else if y <? 0 then String "-" (pad 6 (- y))
  else String "+" (pad 6 y).

(** [d.toISOString()]: the UTC fields. *)
Definition toISOString (d : Z) : string :=
  isoYear (YearFromTime d) ++ "-" ++ pad 2 (MonthFromTime d + 1) ++ "-" ++
  pad 2 (DateFromTime d) ++ "T" ++ pad 2 (HourFromTime d) ++ ":" ++
  pad 2 (MinFromTime d) ++ ":" ++ pad 2 (SecFromTime d) ++ "." ++
  pad 3 (msFromTime d) ++ "Z".

Definition digitVal (c : ascii) : option Z :=
  let n := N_of_ascii c in
  if ((48 <=? n) && (n <=? 57))%N then Some (Z.of_N n - 48) else None.

(** A run of decimal digits read as a number; [None] on anything else. *)
Fixpoint digits (acc : Z) (s : string) : option Z :=
  match s with
  | EmptyString => Some acc
  | String c r =>
      match digitVal c with
      | Some v => digits (10 * acc + v) r
      | None => None
      end
  end.

Definition number (s : string) : option Z :=
  match s with
  | EmptyString => None
  | _ => digits 0 s
  end.

Definition DaysInMonth (y m : Z) : Z :=
  match m with
  | 1 => if isLeap y then 29 else 28
  | 3 | 5 | 8 | 10 => 30
  | _ => 31
  end.

Definition isChar (c : ascii) (s : string) (i : nat) : bool :=
  match String.get i s with
  | Some c' => Ascii.eqb c c'
  | None => false
  end.

(** The calendar day a date-only string "YYYY-MM-DD" names; none when the
    month has no such day. *)
Definition parseDay (s : string) : option Z :=
  if (String.length s =? 10)%nat && isChar "-" s 4 && isChar "-" s 7 then
    match number (substring 0 4 s), number (substring 5 2 s), number (substring 8 2 s) with
    | Some y, Some m, Some d =>
        if (1 <=? m) && (m <=? 12) && (1 <=? d) && (d <=? DaysInMonth y (m - 1))
        then Some (MakeDay y (m - 1) d)
        else None
    | _, _, _ => None
    end
  else None.

(** The time of day of "THH:mm:ss". *)
Definition parseTime (s : string) : option Z :=
  if (String.length s =? 9)%nat && isChar "T" s 0 && isChar ":" s 3 && isChar ":" s 6 then
    match number (substring 1 2 s), number (substring 4 2 s), number (substring 7 2 s) with
    | Some h, Some m, Some sec =>
        if (h <=? 23) && (m <=? 59) && (sec <=? 59)
        then Some (MakeTime h m sec 0)
        else None
    | _, _, _ => None
    end
  else None.

(** [new Date(s)] for the two shapes of string the program builds: a
    date-only string is read as UTC midnight, a date with a time and no
    offset as local time.  [None] is the invalid date, whose time value is
    NaN: a string of any other shape is left to the host by the standard and
    is not modelled. *)
Definition parse (env : Env) (s : string) : option Z :=
  if (String.length s =? 10)%nat then
    day ← parseDay s; Some (MakeDate day 0)
  else
    day ← parseDay (substring 0 10 s);
    time ← parseTime (substring 10 (String.length s - 10) s);
    Some (UTC env (MakeDate day time)).

(** [a >= b] and [a <= b] on dates: false when either is invalid. *)
Definition ge (a b : option Z) : bool :=
  match a, b with
  | Some x, Some y => y <=? x
  | _, _ => false
  end.

Definition le (a b : option Z) : bool :=
  match a, b with
  | Some x, Some y => x <=? y
  | _, _ => false
  end.

Definition lt (a b : option Z) : bool :=
  match a, b with
  | Some x, Some y => x <? y
  | _, _ => false
  end.

End JSDate.

(** ** Date helpers of the program *)

Section DateHelpers.
Import JSDate.
Variable env : Env.

Definition isOverdue (dateISO : option string) : bool :=
  if negb (JSString.truthy dateISO) then false
  else
    let today := now env in
    let d := parse env (default "" dateISO ++ "T23:59:59") in
    JSDate.lt d (Some today).

Definition isDueWithinDays (dateISO : option string) (days : Z) : bool :=
  if negb (JSString.truthy dateISO) then false
  else
    let today := now env in
    let future := now env in
    let future := setDate env future (getDate env today + days) in
    let d := parse env (default "" dateISO) in
    JSDate.ge d (Some (ofDateString env (toDateString env today))) &&
    JSDate.le d (Some future).

Definition startOfMonth (date : Z) : Z :=
  ofYMD env (getFullYear env date) (getMonth env date) 1.

Definition addDays (date : Z) (n : Z) : Z :=
  let d := date in
  setDate env d (getDate env d + n).

Definition startOfWeek (date : Z) (weekStartsOn : Z) : Z :=
  let d := date in
  let diff := Z.rem (getDay env d + 7 - weekStartsOn) 7 in
  addDays d (- diff).

Definition isSameMonth (a b : Z) : bool :=
  (getFullYear env a =? getFullYear env b) && (getMonth env a =? getMonth env b).

Definition isSameDay (a b : Z) : bool :=
  bool_decide (toDateString env a = toDateString env b).

End DateHelpers.

(** ** Arrays

    [Array.prototype.sort] is a stable sort: with a consistent comparator the
    result is the one stable ordering, whatever algorithm the host runs.  It
    is modelled by insertion from the right, each element placed before the
    first element it does not exceed.  Arrays are objects: [sort] works in
    place, [filter] and the spread [[...a]] build a new array.  The heap
    below keeps the arrays by reference where that matters. *)

Module JSArray.

Section Sort.
Context {A : Type} (cmp : A -> A -> comparison).

Fixpoint place (x : A) (l : list A) : list A :=
  match l with
  | [] => [x]
  | y :: l' =>
      match cmp x y with
      | Gt => y :: place x l'
      | _ => x :: y :: l'
      end
  end.

Definition sorted (l : list A) : list A := foldr place [] l.
End Sort.

Section Heap.
Context {A : Type}.

Definition ref := positive.
Local Abbreviation heap := (gmap positive (list A)).

(** A new array object holding [l]. *)
Definition alloc (l : list A) (h : heap) : ref * heap :=
  let r := fresh (dom h) in (r, <[r := l]> h).

Definition read (r : ref) (h : heap) : list A := default [] (h !! r).

(** [a.filter(p)]. *)
Definition filter (p : A -> bool) (a : ref) (h : heap) : ref * heap :=
  alloc (List.filter p (read a h)) h.

(** [[...a]]. *)
Definition spread (a : ref) (h : heap) : ref * heap :=
  alloc (read a h) h.

(** [a.sort(cmp)]: sorts [a] itself and returns it. *)
Definition sort (cmp : A -> A -> comparison) (a : ref) (h : heap) : ref * heap :=
  (a, alter (sorted cmp) a h).
End Heap.

End JSArray.

(** ** Class lists *)

(** [a.join(sep)] for an array of strings. *)
Fixpoint join (sep : string) (a : list string) : string :=
  match a with
  | [] => EmptyString
  | s :: r =>
      match r with
      | [] => s
      | _ => s +:+ sep +:+ join sep r
      end
  end.

(** [classNames(...args)].  An argument that is [false], [null] or
    [undefined] is [None]; [filter(Boolean)] drops those and the empty
    string. *)
Definition classNames (args : list (option string)) : string :=
  join " " (map (default EmptyString) (List.filter JSString.truthy args)).

(** ** View engine *)

Definition opt_eqb (o : option string) (s : string) : bool :=
  match o with
  | Some x => String.eqb x s
  | None => false
  end.

(** The three comparators of [sorter]. *)
Definition sorter (k : SortKey) (a b : Task.t) : comparison :=
  match k with
  | SortDueDate =>
      JSString.localeCompare (JSString.or_else (Task.dueDate a) "9999")
                             (JSString.or_else (Task.dueDate b) "9999")
  | SortCreatedAt =>
      JSString.localeCompare (JSString.or_else (Some (Task.createdAt b)) "")
                             (JSString.or_else (Some (Task.createdAt a)) "")
  | SortCategory =>
      JSString.localeCompare (Category_name (Task.category a))
                             (Category_name (Task.category b))
  end.

Definition matchesQuery (q : string) (t : Task.t) : bool :=
  JSString.includes (JSString.toLowerCase (Task.title t)) q ||
  JSString.includes (JSString.toLowerCase (JSString.or_else (Task.description t) "")) q ||
  existsb (fun n => JSString.includes (JSString.toLowerCase (NextStep.text n)) q)
          (Task.nextSteps t).

(** The [filtered] memo, on the heap: [tasksRef] is the array held in the
    [tasks] state. *)
Definition filteredM (st : State) (tasksRef : JSArray.ref)
    (h : gmap positive (list Task.t)) : JSArray.ref * gmap positive (list Task.t) :=
  let q := JSString.toLowerCase (JSString.trim (query st)) in
  let '(list, h) :=
    JSArray.filter (fun t => bool_decide (Task.category t ∈ activeCategories st)) tasksRef h in
  let '(list, h) :=
    match statusFilter st with
    | Some s => JSArray.filter (fun t => bool_decide (Task.status t = s)) list h
    | None => (list, h)
    end in
  let '(list, h) :=
    if JSString.nonempty q then JSArray.filter (matchesQuery q) list h else (list, h) in
  let '(copy, h) := JSArray.spread list h in
  JSArray.sort (sorter (sortKey st)) copy h.

(** The elements the [filtered] memo keeps, before sorting. *)
Definition kept (st : State) : list Task.t :=
  let q := JSString.toLowerCase (JSString.trim (query st)) in
  let list := List.filter (fun t => bool_decide (Task.category t ∈ activeCategories st)) (tasks st) in
  let list :=
    match statusFilter st with
    | Some s => List.filter (fun t => bool_decide (Task.status t = s)) list
    | None => list
    end in
  if JSString.nonempty q then List.filter (matchesQuery q) list else list.

(** The value of the [filtered] memo. *)
Definition filtered (st : State) : list Task.t :=
  JSArray.sorted (sorter (sortKey st)) (kept st).

(** [map[t.category].push(t)]: a type error when the key is missing. *)
Definition pushBucket (m : gmap Category (list Task.t)) (t : Task.t)
    : option (gmap Category (list Task.t)) :=
  l ← m !! Task.category t;
  Some (<[Task.category t := l ++ [t]]> m).

Definition emptyBuckets : gmap Category (list Task.t) :=
  <[Dealership := []]> (<[Family := []]> (<[Business := []]>
    (<[Spiritual := []]> (<[Personal := []]> ∅)))).

(** The [byCategory] memo. *)
Definition byCategory (filtered : list Task.t) : option (gmap Category (list Task.t)) :=
  fold_left (fun acc t => m ← acc; pushBucket m t) filtered (Some emptyBuckets).

Record Metrics := mkMetrics {
  total : nat;
  overdue : nat;
  dueSoon : nat;
  active : nat;
  counts : gmap Category nat;
}.

(** The [metrics] memo. *)
Definition metrics (env : JSDate.Env) (tasks : list Task.t) : Metrics :=
  let total := length tasks in
  let overdue := length (List.filter (fun t => isOverdue env (Task.dueDate t)) tasks) in
  let dueSoon := length (List.filter (fun t => isDueWithinDays env (Task.dueDate t) 3) tasks) in
  let active := length (List.filter (fun t => negb (bool_decide (Task.status t = Completed))) tasks) in
  let counts :=
    fold_left
      (fun acc c =>
         <[c := length (List.filter (fun t => bool_decide (Task.category t = c)) tasks)]> acc)
      CATEGORIES ∅ in
  mkMetrics total overdue dueSoon active counts.

(** [metrics.counts[c] || 0], as the category chips show it. *)
Definition shownCount (m : Metrics) (c : Category) : nat := default 0%nat (counts m !! c).

(** ** Nearest next step *)

Definition stepDate (n : NextStep.t) : string := JSString.or_else (NextStep.dueDate n) "".

Definition dated (n : NextStep.t) : bool := JSString.truthy (NextStep.dueDate n).

(** [nearestNextStep] of the table view.  [withDates] is a new array, so
    sorting it in place leaves [task.nextSteps] as it was. *)
Definition nearestNextStep (task : Task.t) : option NextStep.t :=
  if negb (0 <? length (Task.nextSteps task))%nat then None
  else
    let withDates := List.filter dated (Task.nextSteps task) in
    if negb (0 <? length withDates)%nat then Task.nextSteps task !! 0%nat
    else
      JSArray.sorted (fun a b => JSString.localeCompare (stepDate a) (stepDate b)) withDates
        !! 0%nat.

(** The callback of the [reduce] in [TaskCard]. *)
Definition nearer (acc : option NextStep.t) (cur : NextStep.t) : option NextStep.t :=
  match acc with
  | None => Some cur
  | Some a =>
      if negb (dated a) then (if dated cur then Some cur else Some a)
      else if negb (dated cur) then Some a
      else if JSString.le (default "" (NextStep.dueDate a)) (default "" (NextStep.dueDate cur))
           then Some a else Some cur
  end.

(** [nn] of [TaskCard], the grid view's nearest next step. *)
Definition cardNextStep (task : Task.t) : option NextStep.t :=
  if (0 <? length (Task.nextSteps task))%nat
  then fold_left nearer (Task.nextSteps task) None
  else None.

(** [nearestNextStep] on the heap, [stepsRef] being the array
    [task.nextSteps]: [filter] builds the array that [sort] then sorts in
    place. *)
Definition nearestNextStepM (stepsRef : JSArray.ref) (h : gmap positive (list NextStep.t))
    : option NextStep.t * gmap positive (list NextStep.t) :=
  if negb (0 <? length (JSArray.read stepsRef h))%nat then (None, h)
  else
    let '(withDates, h) := JSArray.filter dated stepsRef h in
    if negb (0 <? length (JSArray.read withDates h))%nat
    then (JSArray.read stepsRef h !! 0%nat, h)
    else
      let '(sorted, h) :=
        JSArray.sort (fun a b => JSString.localeCompare (stepDate a) (stepDate b))
                     withDates h in
      (JSArray.read sorted h !! 0%nat, h).

(** ** The views on a host

    [localeCompare] compares by the collation of the host, which the
    standard leaves to the implementation.  Here are the sorting views
    with that collation as a parameter; at [JSString.localeCompare] they
    are [sorter], [filtered] and [nearestNextStep] above. *)

Section OnHost.
Variable collate : string -> string -> comparison.

Definition sorterOn (k : SortKey) (a b : Task.t) : comparison :=
  match k with
  | SortDueDate =>
      collate (JSString.or_else (Task.dueDate a) "9999")
              (JSString.or_else (Task.dueDate b) "9999")
  | SortCreatedAt =>
      collate (JSString.or_else (Some (Task.createdAt b)) "")
              (JSString.or_else (Some (Task.createdAt a)) "")
  | SortCategory =>
      collate (Category_name (Task.category a))
              (Category_name (Task.category b))
  end.

Definition filteredOn (st : State) : list Task.t :=
  JSArray.sorted (sorterOn (sortKey st)) (kept st).


End OnHost.

(** ** Calendar *)

Section Calendar.
Variable env : JSDate.Env.

(** The [calendarMatrix] memo. *)
Definition calendarMatrix (calendarCursor : Z) : list Z :=
  let first := startOfMonth env calendarCursor in
  let gridStart := startOfWeek env first 0 in
  map (fun i => addDays env gridStart i) (seqZ 0 42).

(** The seven days of week mode. *)
Definition weekDays (calendarCursor : Z) : list Z :=
  map (fun i => addDays env (startOfWeek env calendarCursor 0) i) (seqZ 0 7).

Definition tasksOn (tasks : list Task.t) (date : Z) : list Task.t :=
  let iso := JSString.slice0 10 (JSDate.toISOString date) in
  List.filter
    (fun t => opt_eqb (Task.dueDate t) iso ||
              existsb (fun n => opt_eqb (NextStep.dueDate n) iso) (Task.nextSteps t))
    tasks.

(** What a month cell shows: at most three tasks and the overflow count. *)
Definition cellTasks (tasks : list Task.t) (day : Z) : list Task.t * nat :=
  let dayTasks := tasksOn tasks day in
  (take 3 dayTasks, (length dayTasks - 3)%nat).
End Calendar.

(** ** Calendar navigation, the due badge and the new task *)

Section Handlers.
Variable env : JSDate.Env.

(** The "Today" button: [setCalendarCursor(new Date())]. *)
Definition onToday (st : State) : State :=
  setCalendarCursor (fun _ => JSDate.now env) st.



(** The colour of the due badge of a card. *)
Inductive Tone := Red | Amber | Neutral.

(** The badge of [TaskCard]: rendered when [task.dueDate] is truthy, red
    when overdue, else amber when due within the default three days. *)
Definition dueBadge (task : Task.t) : option Tone :=
  if JSString.truthy (Task.dueDate task) then
    Some (if isOverdue env (Task.dueDate task) then Red
          else if isDueWithinDays env (Task.dueDate task) 3 then Amber
          else Neutral)
  else None.

(** The task the "Add Task" button puts in the form, [uid] being what the
    call of [uid()] returns. *)
Definition newTask (uid : string) : Task.t :=
  Task.mk uid "" (Some "") Dealership Active (Some "")
          (JSDate.toISOString (JSDate.now env)) [].

Definition onAddTask (uid : string) (st : State) : State :=
  setShowModal true (setEditing (Some (newTask uid)) st).

End Handlers.

(** ** JSON

    [JSON.stringify(value, null, 2)] and [JSON.parse] on the values a task
    list is made of: null, booleans, strings, arrays and objects.  Numbers
    do not occur in a task and are left out of the model, as are code units
    from 256 up; on a text that needs either, [parse] answers [None]. *)

Module JSON.

#[warnings="-register-all"]
Inductive value :=
| Null
| Bool (b : bool)
| Str (s : string)
| Arr (elements : list value)
| Obj (members : list (string * value)).

Definition dquote : ascii := "034"%char.
Definition lf : ascii := "010"%char.

Definition hexDigit (n : N) : ascii :=
  if (n <? 10)%N then ascii_of_N (48 + n) else ascii_of_N (87 + n).

Definition hexVal (c : ascii) : option N :=
  let n := N_of_ascii c in
  if ((48 <=? n) && (n <=? 57))%N then Some (n - 48)%N
  else if ((97 <=? n) && (n <=? 102))%N then Some (n - 87)%N
  else if ((65 <=? n) && (n <=? 70))%N then Some (n - 55)%N
  else None.

(** One code unit inside a quoted string. *)
Definition escapeUnit (c : ascii) : string :=
  match N_of_ascii c with
  | 8 => "\b"
  | 9 => "\t"
  | 10 => "\n"
  | 12 => "\f"
  | 13 => "\r"
  | 34 => String "\" (String dquote "")
  | 92 => "\\"
  | n => if (n <? 32)%N
         then "\u00" +:+ String (hexDigit (n / 16)) (String (hexDigit (n mod 16)) "")
         else String c ""
  end%N.

Fixpoint escape (s : string) : string :=
  match s with
  | EmptyString => EmptyString
  | String c r => escapeUnit c +:+ escape r
  end.

Definition quote (s : string) : string :=
  String dquote (escape s +:+ String dquote "").

Fixpoint spaces (n : nat) : string :=
  match n with
  | O => EmptyString
  | S n' => String " " (spaces n')
  end.

(** A line feed and the indentation of depth [k], two spaces a level. *)
Definition newline (k : nat) : string := String lf (spaces (2 * k)).

(** The items of an array or object at depth [k], between its brackets. *)
Definition wrap (open close : string) (k : nat) (items : list string) : string :=
  match items with
  | [] => open +:+ close
  | i :: rest =>
      open +:+ newline (S k) +:+ i +:+
      fold_right (fun j acc => "," +:+ newline (S k) +:+ j +:+ acc) (newline k +:+ close) rest
  end.

Fixpoint stringify (k : nat) (v : value) : string :=
  match v with
  | Null => "null"
  | Bool true => "true"
  | Bool false => "false"
  | Str s => quote s
  | Arr xs => wrap "[" "]" k (map (stringify (S k)) xs)
  | Obj ms =>
      wrap "{" "}" k
        (map (fun m => quote (fst m) +:+ ": " +:+ stringify (S k) (snd m)) ms)
  end.

Definition isWs (c : ascii) : bool :=
  match N_of_ascii c with
  | 9 | 10 | 13 | 32 => true
  | _ => false
  end%N.

Fixpoint skipWs (s : string) : string :=
  match s with
  | EmptyString => EmptyString
  | String c r => if isWs c then skipWs r else s
  end.

(** [s] without the leading [lit], when it starts with it. *)
Fixpoint literal (lit s : string) : option string :=
  match lit with
  | EmptyString => Some s
  | String c lit' =>
      match s with
      | String c' s' => if Ascii.eqb c c' then literal lit' s' else None
      | EmptyString => None
      end
  end.

Definition consUnit (c : ascii) (res : option (string * string)) : option (string * string) :=
  match res with
  | Some (s, r) => Some (String c s, r)
  | None => None
  end.

Definition hex4 (a b c d : ascii) : option ascii :=
  match hexVal a, hexVal b, hexVal c, hexVal d with
  | Some x, Some y, Some z, Some w =>
      let n := (((x * 16 + y) * 16 + z) * 16 + w)%N in
      if (n <? 256)%N then Some (ascii_of_N n) else None
  | _, _, _, _ => None
  end.

(** The characters of a string up to its closing quote, and the text
    after it. *)
Fixpoint stringBody (s : string) : option (string * string) :=
  match s with
  | EmptyString => None
  | String c r =>
      match N_of_ascii c with
      | 34 => Some (EmptyString, r)
      | 92 =>
          match r with
          | EmptyString => None
          | String e r' =>
              match N_of_ascii e with
              | 34 => consUnit dquote (stringBody r')
              | 92 => consUnit "\" (stringBody r')
              | 47 => consUnit "/" (stringBody r')
              | 98 => consUnit "008" (stringBody r')
              | 102 => consUnit "012" (stringBody r')
              | 110 => consUnit "010" (stringBody r')
              | 114 => consUnit "013" (stringBody r')
              | 116 => consUnit "009" (stringBody r')
              | 117 =>
                  match r' with
                  | String h1 (String h2 (String h3 (String h4 r''))) =>
                      match hex4 h1 h2 h3 h4 with
                      | Some u => consUnit u (stringBody r'')
                      | None => None
                      end
                  | _ => None
                  end
              | _ => None
              end
          end
      | n => if (n <? 32)%N then None else consUnit c (stringBody r)
      end%N
  end.

(** Defining a property on an object under construction: a repeated name
    keeps its first place and takes the later value. *)
Definition setMember (k : string) (v : value) (ms : list (string * value))
    : list (string * value) :=
  if existsb (fun m => String.eqb (fst m) k) ms
  then map (fun m => if String.eqb (fst m) k then (k, v) else m) ms
  else ms ++ [(k, v)].

Definition object (ms : list (string * value)) : value :=
  Obj (fold_left (fun acc m => setMember (fst m) (snd m) acc) ms []).

Definition startsWith (c : ascii) (s : string) : option string :=
  match s with
  | String c' r => if Ascii.eqb c c' then Some r else None
  | EmptyString => None
  end.

(** Recursive descent, [fuel] bounding the nesting and the number of
    items read. *)
Fixpoint parseValue (fuel : nat) (s : string) : option (value * string) :=
  match fuel with
  | O => None
  | S fuel' =>
      let s := skipWs s in
      match literal "null" s, literal "true" s, literal "false" s with
      | Some r, _, _ => Some (Null, r)
      | None, Some r, _ => Some (Bool true, r)
      | None, None, Some r => Some (Bool false, r)
      | None, None, None =>
          match startsWith dquote s, startsWith "[" s, startsWith "{" s with
          | Some r, _, _ =>
              match stringBody r with
              | Some (str, r') => Some (Str str, r')
              | None => None
              end
          | None, Some r, _ =>
              match startsWith "]" (skipWs r) with
              | Some r' => Some (Arr [], r')
              | None =>
                  match parseElements fuel' r with
                  | Some (vs, r') => Some (Arr vs, r')
                  | None => None
                  end
              end
          | None, None, Some r =>
              match startsWith "}" (skipWs r) with
              | Some r' => Some (Obj [], r')
              | None =>
                  match parseMembers fuel' r with
                  | Some (ms, r') => Some (object ms, r')
                  | None => None
                  end
              end
          | None, None, None => None
          end
      end
  end
with parseElements (fuel : nat) (s : string) : option (list value * string) :=
  match fuel with
  | O => None
  | S fuel' =>
      match parseValue fuel' s with
      | Some (v, r) =>
          match startsWith "," (skipWs r), startsWith "]" (skipWs r) with
          | Some r', _ =>
              match parseElements fuel' r' with
              | Some (vs, r'') => Some (v :: vs, r'')
              | None => None
              end
          | None, Some r' => Some ([v], r')
          | None, None => None
          end
      | None => None
      end
  end
with parseMembers (fuel : nat) (s : string)
    : option (list (string * value) * string) :=
  match fuel with
  | O => None
  | S fuel' =>
      match startsWith dquote (skipWs s) with
      | Some r =>
          match stringBody r with
          | Some (key, r1) =>
              match startsWith ":" (skipWs r1) with
              | Some r2 =>
                  match parseValue fuel' r2 with
                  | Some (v, r3) =>
                      match startsWith "," (skipWs r3), startsWith "}" (skipWs r3) with
                      | Some r4, _ =>
                          match parseMembers fuel' r4 with
                          | Some (ms, r5) => Some ((key, v) :: ms, r5)
                          | None => None
                          end
                      | None, Some r4 => Some ([(key, v)], r4)
                      | None, None => None
                      end
                  | None => None
                  end
              | None => None
              end
          | None => None
          end
      | None => None
      end
  end.

(** [JSON.parse(text)]; [None] where it throws, and on a text that
    needs a number or a code unit from 256 up, which the model leaves out.
    No text needs more fuel than it has characters. *)
Definition parse (text : string) : option value :=
  match parseValue (String.length text) text with
  | Some (v, r) => match skipWs r with EmptyString => Some v | _ => None end
  | None => None
  end.

End JSON.

(** ** Export and import *)

Section Transfer.
Import JSON.

Definition optMember (k : string) (o : option value) : list (string * value) :=
  match o with
  | Some v => [(k, v)]
  | None => []
  end.

(** A next step as the object it is, properties in declaration order; a
    missing optional property is not printed. *)
Definition NextStep_value (n : NextStep.t) : value :=
  Obj ([("id", Str (NextStep.id n)); ("text", Str (NextStep.text n))] ++
       optMember "dueDate" (Str <$> NextStep.dueDate n) ++
       optMember "done" (Bool <$> NextStep.done n)).

Definition Task_value (t : Task.t) : value :=
  Obj ([("id", Str (Task.id t)); ("title", Str (Task.title t))] ++
       optMember "description" (Str <$> Task.description t) ++
       [("category", Str (Category_name (Task.category t)));
        ("status", Str (Status_name (Task.status t)))] ++
       optMember "dueDate" (Str <$> Task.dueDate t) ++
       [("createdAt", Str (Task.createdAt t));
        ("nextSteps", Arr (map NextStep_value (Task.nextSteps t)))]).

(** The text of the exported file. *)
Definition exportJSON (st : State) : string :=
  stringify 0 (Arr (map Task_value (tasks st))).

Definition member (k : string) (ms : list (string * value)) : option value :=
  snd <$> List.find (fun m => String.eqb (fst m) k) ms.

(** A required string property. *)
Definition strMember (k : string) (ms : list (string * value)) : option string :=
  match member k ms with
  | Some (Str s) => Some s
  | _ => None
  end.

(** An optional property: [Some None] when missing, [None] when present
    with a value of another type. *)
Definition optStrMember (k : string) (ms : list (string * value))
    : option (option string) :=
  match member k ms with
  | None => Some None
  | Some (Str s) => Some (Some s)
  | Some _ => None
  end.

Definition optBoolMember (k : string) (ms : list (string * value))
    : option (option bool) :=
  match member k ms with
  | None => Some None
  | Some (Bool b) => Some (Some b)
  | Some _ => None
  end.

Definition Category_of_name (s : string) : option Category :=
  List.find (fun c => String.eqb (Category_name c) s) CATEGORIES.

Definition Status_of_name (s : string) : option Status :=
  List.find (fun c => String.eqb (Status_name c) s) STATUSES.

Definition present {A} (o : option A) : nat :=
  match o with
  | Some _ => 1%nat
  | None => 0%nat
  end.

(** The next step a parsed value is, when it has the properties of one
    and no other. *)
Definition NextStep_of_value (v : value) : option NextStep.t :=
  match v with
  | Obj ms =>
      id ← strMember "id" ms;
      text ← strMember "text" ms;
      dueDate ← optStrMember "dueDate" ms;
      done ← optBoolMember "done" ms;
      if (length ms =? 2 + present dueDate + present done)%nat
      then Some (NextStep.mk id text dueDate done)
      else None
  | _ => None
  end.

Definition Task_of_value (v : value) : option Task.t :=
  match v with
  | Obj ms =>
      id ← strMember "id" ms;
      title ← strMember "title" ms;
      description ← optStrMember "description" ms;
      category ← strMember "category" ms ≫= Category_of_name;
      status ← strMember "status" ms ≫= Status_of_name;
      dueDate ← optStrMember "dueDate" ms;
      createdAt ← strMember "createdAt" ms;
      nextSteps ←
        match member "nextSteps" ms with
        | Some (Arr vs) => mapM NextStep_of_value vs
        | _ => None
        end;
      if (length ms =? 6 + present description + present dueDate)%nat
      then Some (Task.mk id title description category status dueDate createdAt nextSteps)
      else None
  | _ => None
  end.

(** What the import handler does with the text of the chosen file. *)
Inductive ImportOutcome :=
| Replaced (st : State)   (* [setTasks(data)] *)
| Ignored                 (* not JSON, or not an array: nothing is set *)
| Untyped.                (* an array that is no list of tasks: set as it
                             is, which [State] cannot hold *)

Definition importJSON (text : string) (st : State) : ImportOutcome :=
  match parse text with
  | Some (Arr vs) =>
      match mapM Task_of_value vs with
      | Some ts => Replaced (setTasks (fun _ => ts) st)
      | None => Untyped
      end
  | _ => Ignored
  end.

End Transfer.

(** ** Local storage *)

Section Persistence.
Import JSON.

(** [JSON.stringify(value)], with no indentation. *)
Fixpoint stringifyFlat (v : value) : string :=
  match v with
  | Null => "null"
  | Bool true => "true"
  | Bool false => "false"
  | Str s => quote s
  | Arr xs => "[" +:+ join "," (map stringifyFlat xs) +:+ "]"
  | Obj ms =>
      "{" +:+ join "," (map (fun m => quote (fst m) +:+ ":" +:+ stringifyFlat (snd m)) ms)
          +:+ "}"
  end.

(** What the second effect stores under the key [personal_crm_tasks_v1]. *)
Definition persist (st : State) : string :=
  stringifyFlat (Arr (map Task_value (tasks st))).

(** A character that starts a JSON value. *)
Definition startsValue (c : ascii) : bool :=
  Ascii.eqb "n" c || Ascii.eqb "t" c || Ascii.eqb "f" c || Ascii.eqb dquote c ||
  Ascii.eqb "[" c || Ascii.eqb "{" c || Ascii.eqb "-" c ||
  ((48 <=? N_of_ascii c) && (N_of_ascii c <=? 57))%N.

(** A text that is certainly no JSON: after its white space it is empty
    or starts with a character that starts no value. *)
Definition notJSON (text : string) : bool :=
  match skipWs text with
  | EmptyString => true
  | String c _ => negb (startsValue c)
  end.

Inductive LoadOutcome :=
| Loaded (st : State)     (* [setTasks] of a list of tasks *)
| LoadedUntyped           (* [setTasks] of a value that is no list of tasks *)
| NotModelled.            (* a text [parse] does not read and that may
                             still be JSON: the model does not say *)

(** The first effect, [raw] being what [getItem] returned ([None] for
    [null]) and [seedTasks] the module's seed list, whose ids are drawn
    when the module is loaded.  What is parsed is set without a test.
    [parse] reads no numbers and no escapes above 00ff, so a text it
    refuses is taken for one that makes [JSON.parse] throw only when it
    is certainly no JSON. *)
Definition load (seedTasks : list Task.t) (raw : option string) (st : State)
    : LoadOutcome :=
  if JSString.truthy raw then
    match parse (default EmptyString raw) with
    | Some (Arr vs) =>
        match mapM Task_of_value vs with
        | Some ts => Loaded (setTasks (fun _ => ts) st)
        | None => LoadedUntyped
        end
    | Some _ => LoadedUntyped
    | None =>
        if notJSON (default EmptyString raw)
        then Loaded (setTasks (fun _ => seedTasks) st)
        else NotModelled
    end
  else Loaded (setTasks (fun _ => seedTasks) st).

End Persistence.

(** ** The task form *)

Module TaskForm.

(** The state of [TaskForm]: the task being edited and the two inputs of
    the next-step row. *)
Record t := mk {
  task : Task.t;
  nsText : string;
  nsDate : string;
}.

(** [useState({ ...initial })] and the two empty inputs. *)
Definition init (initial : Task.t) : t := mk initial "" "".

(** [{ ...x, nextSteps: ns }]. *)
Definition with_nextSteps (ns : list NextStep.t) (x : Task.t) : Task.t :=
  Task.mk (Task.id x) (Task.title x) (Task.description x) (Task.category x)
          (Task.status x) (Task.dueDate x) (Task.createdAt x) ns.

(** [{ ...x, title: s }], the change handler of the title input. *)
Definition with_title (s : string) (x : Task.t) : Task.t :=
  Task.mk (Task.id x) s (Task.description x) (Task.category x)
          (Task.status x) (Task.dueDate x) (Task.createdAt x) (Task.nextSteps x).

Definition setTitle (s : string) (f : t) : t :=
  mk (with_title s (task f)) (nsText f) (nsDate f).

(** [s || undefined] for a string. *)
Definition or_undefined (s : string) : option string :=
  if JSString.nonempty s then Some s else None.

(** [addNextStep], [uid] being what the call of [uid()] returns. *)
Definition addNextStep (uid : string) (f : t) : t :=
  if negb (JSString.nonempty (JSString.trim (nsText f))) then f
  else
    let ns := NextStep.mk uid (JSString.trim (nsText f)) (or_undefined (nsDate f)) None in
    mk (with_nextSteps (Task.nextSteps (task f) ++ [ns]) (task f)) "" "".

Definition removeNextStep (id : string) (f : t) : t :=
  mk (with_nextSteps
        (List.filter (fun n => negb (String.eqb (NextStep.id n) id))
                     (Task.nextSteps (task f)))
        (task f))
     (nsText f) (nsDate f).

(** The task [onSubmit] builds from the form's. *)
Definition clean (x : Task.t) : Task.t :=
  Task.mk (Task.id x) (JSString.trim (Task.title x))
          (Some (JSString.trim (JSString.or_else (Task.description x) "")))
          (Task.category x) (Task.status x)
          (if JSString.truthy (Task.dueDate x) then Task.dueDate x else None)
          (Task.createdAt x) (Task.nextSteps x).

(** [onSubmit], with [onSave] the [upsertTask] the main component passes. *)
Definition onSubmit (f : t) (st : State) : State :=
  upsertTask (clean (task f)) st.

End TaskForm.

(** * Vocabulary of the statements *)

(** ** Strings and sorting *)

(** [a] is at most [b], by code unit. *)
Definition sle (a b : string) : Prop := JSString.le a b = true.

#[global] Instance sle_dec (a b : string) : Decision (sle a b).
Proof. unfold sle. apply _. Defined.

(** A comparator that compares keys. *)
Definition byKey {A : Type} (key : A -> string) (x y : A) : comparison :=
  JSString.localeCompare (key x) (key y).

(** [x] does not come after [y] in the order of the keys. *)
Definition keyLe {A : Type} (key : A -> string) (x y : A) : Prop :=
  sle (key x) (key y).

(** The key the due-date comparator of [sorter] compares: the due date,
    or "9999" where there is none. *)
Definition dueKey (t : Task.t) : string := JSString.or_else (Task.dueDate t) "9999".

(** A comparator that compares keys the other way round. *)
Definition byKeyDesc {A : Type} (key : A -> string) (x y : A) : comparison :=
  JSString.localeCompare (key y) (key x).

(** [x] does not come before [y] in the order of the keys. *)
Definition keyGe {A : Type} (key : A -> string) (x y : A) : Prop :=
  sle (key y) (key x).

(** The place of a category when the five names are put in alphabetical
    order. *)
Definition alphaRank (c : Category) : nat :=
  match c with
  | Business => 0 | Dealership => 1 | Family => 2 | Personal => 3 | Spiritual => 4
  end%nat.

(** Nothing but white space. *)
Fixpoint blank (s : string) : bool :=
  match s with
  | EmptyString => true
  | String c r => JSString.is_space c && blank r
  end.

(** The tasks that carry a due date. *)
Definition withDueDate (l : list Task.t) : list Task.t :=
  List.filter (fun t => JSString.truthy (Task.dueDate t)) l.

(** The tasks of [l] in status [s]. *)
Definition inStatus (s : Status) (l : list Task.t) : list Task.t :=
  List.filter (fun t => bool_decide (Task.status t = s)) l.

(** ** Host collations *)

Definition isDigit (c : ascii) : bool :=
  ((48 <=? N_of_ascii c) && (N_of_ascii c <=? 57))%N.

(** [s] has the shape [p]: a digit where [p] has the letter d, and the
    character of [p] everywhere else. *)
Fixpoint shaped (p s : string) : bool :=
  match p, s with
  | EmptyString, EmptyString => true
  | String x p', String c s' =>
      (if Ascii.eqb x "d" then isDigit c else Ascii.eqb x c) && shaped p' s'
  | _, _ => false
  end.


Definition instantShape : string := "dddd-dd-ddTdd:dd:dd.dddZ".

(** The collation orders the strings of shape [p] as their code units
    do.  The strings of one such shape differ first at a digit, and every
    collation keeps the digits in their order. *)
Definition CollatesShape (p : string) (collate : string -> string -> comparison) : Prop :=
  forall a b, shaped p a = true -> shaped p b = true -> collate a b = String.compare a b.


(** ** The filters of the list view *)

(** Some text of the task contains [q], case apart. *)
Definition mentions (q : string) (t : Task.t) : Prop :=
  JSString.includes (JSString.toLowerCase (Task.title t)) q = true \/
  JSString.includes (JSString.toLowerCase (JSString.or_else (Task.description t) "")) q = true \/
  exists n, n ∈ Task.nextSteps t /\
            JSString.includes (JSString.toLowerCase (NextStep.text n)) q = true.

(** The task passes the chips, the status selector and the search box. *)
Definition Passes (st : State) (t : Task.t) : Prop :=
  Task.category t ∈ activeCategories st /\
  (forall s, statusFilter st = Some s -> Task.status t = s) /\
  (JSString.toLowerCase (JSString.trim (query st)) <> "" ->
   mentions (JSString.toLowerCase (JSString.trim (query st))) t).

(** How often [t] occurs in [l]. *)
Definition occurrences (t : Task.t) (l : list Task.t) : nat :=
  length (List.filter (fun x => bool_decide (x = t)) l).

(** ** Grouping *)

(** The tasks of [l] in category [c], in the order of [l]. *)
Definition inCategory (c : Category) (l : list Task.t) : list Task.t :=
  List.filter (fun t => bool_decide (Task.category t = c)) l.

(** ** Nearest next step *)




(** ** Dates *)

(** The ISO date string of the day numbered [d]. *)
Definition isoDate (d : Z) : string :=
  JSString.slice0 10 (JSDate.toISOString (JSDate.MakeDate d 0)).

(** Ten to the number of characters of [a]. *)
Definition width (a : string) : Z := 10 ^ Z.of_nat (String.length a).

(** The tasks whose own due date, or one of whose next steps' due dates,
    is the string [iso]. *)
Definition dueOn (iso : string) (l : list Task.t) : list Task.t :=
  List.filter
    (fun t => opt_eqb (Task.dueDate t) iso ||
              existsb (fun n => opt_eqb (NextStep.dueDate n) iso) (Task.nextSteps t))
    l.

(** The local calendar day of a date. *)
Definition localDay (env : JSDate.Env) (d : Z) : Z :=
  JSDate.Day (JSDate.LocalTime env d).

(** [d] is midnight, local time. *)
Definition localMidnight (env : JSDate.Env) (d : Z) : Prop :=
  JSDate.TimeWithinDay (JSDate.LocalTime env d) = 0.

(** A time value put together from its day number and the fields of its
    time of day. *)
Definition radix (t : Z) : Z :=
  (((JSDate.Day t * 24 + JSDate.HourFromTime t) * 60 + JSDate.MinFromTime t) * 60 +
   JSDate.SecFromTime t) * 1000 + JSDate.msFromTime t.

(** ** JSON values and text *)

Section JSONVocabulary.
Import JSON.
Local Open Scope nat_scope.

Fixpoint weight (v : value) : nat :=
  match v with
  | Arr xs => S (list_sum (map (fun x => S (weight x)) xs))
  | Obj ms => S (list_sum (map (fun m => S (weight (snd m))) ms))
  | _ => 1
  end.

(** Objects have no repeated property name, at any depth. *)
Fixpoint distinctNames (v : value) : Prop :=
  match v with
  | Arr xs => fold_right (fun x acc => distinctNames x /\ acc) True xs
  | Obj ms =>
      NoDup (map fst ms) /\
      fold_right (fun m acc => distinctNames (snd m) /\ acc) True ms
  | _ => True
  end.

(** The text that follows the first item of a bracketed list: the other
    items, each after a comma and a new line, then the closing bracket on
    a line of its own, then [rest]. *)
Definition itemsTail (close : string) (k : nat) (items : list string)
    (rest : string) : string :=
  fold_right (fun j acc => "," +:+ newline (S k) +:+ j +:+ acc)
             (newline k +:+ close +:+ rest) items.

(** Every printed value starts with a character that is neither white
    space nor a closing bracket. *)
Definition valueStart (s : string) : Prop :=
  skipWs s = s /\ startsWith "]" s = None /\ startsWith "}" s = None.

(** The text of one member of an object printed at depth [k]. *)
Definition memberText (k : nat) (m : string * value) : string :=
  quote (fst m) +:+ ": " +:+ stringify (S k) (snd m).

End JSONVocabulary.

Section FlatVocabulary.
Import JSON.

(** The text that follows the first item of a list printed without
    indentation: the other items, each after a comma, then the closing
    bracket, then [rest]. *)
Definition flatTail (close : string) (items : list string) (rest : string) : string :=
  fold_right (fun j acc => "," +:+ j +:+ acc) (close +:+ rest) items.

(** The text of one member of an object printed without indentation. *)
Definition memberFlat (m : string * value) : string :=
  quote (fst m) +:+ ":" +:+ stringifyFlat (snd m).

End FlatVocabulary.

(** ** Worked inputs *)

Definition lateTask : Task.t :=
  Task.mk "t1" "Archive" None Business Active (Some "9999-12-31")
          "2024-06-01T09:00:00.000Z" [].

Definition undatedTask : Task.t :=
  Task.mk "t2" "Someday" None Business Active None
          "2024-06-02T09:00:00.000Z" [].

Definition lateState : State :=
  mkState [lateTask; undatedTask] "" CATEGORIES None SortDueDate Grid false None 0 Month.

(** Noon of Monday 10 June 2024, New York daylight time (UTC-4). *)
Definition newYorkNoon : JSDate.Env :=
  JSDate.mkEnv (19884 * JSDate.msPerDay + 16 * 3600000) (- 4 * 3600000).

(** Noon of Saturday 15 June 2024, Berlin summer time (UTC+2). *)
Definition berlinNoon : JSDate.Env :=
  JSDate.mkEnv (19889 * JSDate.msPerDay + 10 * 3600000) (2 * 3600000).

Definition dueJune10 : Task.t :=
  Task.mk "t3" "Call Grace" None Dealership Active (Some "2024-06-10")
          "2024-06-01T09:00:00.000Z" [].

Definition stepA : NextStep.t := NextStep.mk "n1" "A" (Some "2024-06-10") None.

Definition stepB : NextStep.t := NextStep.mk "n2" "B" (Some "2024-06-01") None.

Definition stepA' : NextStep.t := NextStep.mk "n3" "A" None None.

Definition stepB' : NextStep.t := NextStep.mk "n4" "B" None None.



Definition withSteps (ns : list NextStep.t) : Task.t :=
  Task.mk "t4" "Plan" None Family Active None "2024-06-01T09:00:00.000Z" ns.

Definition twoTasks : State :=
  mkState [withSteps [stepA; stepB]; undatedTask] "" CATEGORIES None SortDueDate Grid
          false None 0 Month.

(** Three tasks of two categories, created on different days. *)
Definition byCreation : State :=
  mkState [lateTask; undatedTask; dueJune10] "" CATEGORIES None SortCreatedAt Table
          false None 0 Month.

Definition byCategoryName : State :=
  mkState [lateTask; undatedTask; dueJune10] "" CATEGORIES None SortCategory Table
          false None 0 Month.

(** Noon of Monday 10 June 2024 on a host that runs in UTC. *)
Definition utcNoon : JSDate.Env :=
  JSDate.mkEnv (19884 * JSDate.msPerDay + 12 * 3600000) 0.

(** The calendar open on the month of [berlinNoon]. *)
Definition juneCalendar : State :=
  mkState [dueJune10] "" CATEGORIES None SortDueDate Calendar false None
          (JSDate.now berlinNoon) Month.

(** A task as the form saves it, and a store that holds it. *)
Definition savedTask : Task.t :=
  Task.mk "t5" "Plan trip" (Some "") Family Pending (Some "2024-07-01")
          "2024-06-03T09:00:00.000Z" [].

Definition savedStore : State :=
  mkState [dueJune10; savedTask] "" CATEGORIES None SortDueDate Grid false None 0 Month.

(** * Properties *)

(** ** Task store *)

Section Store.
Implicit Types (t p : Task.t) (l : list Task.t) (st : State).

Lemma id_eqb_true p t : String.eqb (Task.id p) (Task.id t) = true <-> Task.id p = Task.id t.
Proof. apply String.eqb_eq. Qed.

Lemma id_eqb_false p t : String.eqb (Task.id p) (Task.id t) = false <-> Task.id p <> Task.id t.
Proof. apply String.eqb_neq. Qed.

Lemma has_id_true t l :
  existsb (fun p => String.eqb (Task.id p) (Task.id t)) l = true <->
  exists p, p ∈ l /\ Task.id p = Task.id t.
Proof.
  rewrite existsb_exists. split.
  - intros (p & Hin & Heq). exists p. split; [by apply list_elem_of_In|by apply id_eqb_true].
  - intros (p & Hin & Heq). exists p. split; [by apply list_elem_of_In|by apply id_eqb_true].
Qed.

Lemma has_id_false t l :
  existsb (fun p => String.eqb (Task.id p) (Task.id t)) l = false <->
  forall p, p ∈ l -> Task.id p <> Task.id t.
Proof.
  split.
  - intros Hex p Hin Heq.
    assert (existsb (fun p => String.eqb (Task.id p) (Task.id t)) l = true) as Ht
      by (apply has_id_true; eauto).
    congruence.
  - intros Hall. destruct (existsb _ l) eqn:Hex; [|done].
    apply has_id_true in Hex as (p & Hin & Heq). by destruct (Hall p Hin).
Qed.

(** Position by position, the replacing branch of [upsert]. *)
Lemma upsert_lookup t l i p :
  (exists q, q ∈ l /\ Task.id q = Task.id t) ->
  l !! i = Some p ->
  upsert t l !! i = Some (if String.eqb (Task.id p) (Task.id t) then t else p).
Proof.
  intros Hex Hi. apply has_id_true in Hex. unfold upsert. rewrite Hex.
  by rewrite list_lookup_fmap, Hi.
Qed.

Lemma upsert_length_present t l :
  (exists q, q ∈ l /\ Task.id q = Task.id t) -> length (upsert t l) = length l.
Proof.
  intros Hex. apply has_id_true in Hex. unfold upsert. rewrite Hex. apply length_map.
Qed.

Lemma upsert_absent t l :
  (forall p, p ∈ l -> Task.id p <> Task.id t) -> upsert t l = t :: l.
Proof. intros Hno. apply has_id_false in Hno. unfold upsert. by rewrite Hno. Qed.

(** With unique ids, the replacing branch is an update at one index. *)
Lemma upsert_unique t l i p :
  NoDup (map Task.id l) -> l !! i = Some p -> Task.id p = Task.id t ->
  upsert t l = <[i := t]> l.
Proof.
  intros Hnd Hi Hid.
  assert (exists q, q ∈ l /\ Task.id q = Task.id t) as Hex.
  { exists p. split; [by eapply list_elem_of_lookup_2|done]. }
  apply list_eq. intros j.
  destruct (l !! j) as [q|] eqn:Hj.
  - rewrite (upsert_lookup t l j q Hex Hj).
    destruct (decide (i = j)) as [->|Hne].
    + rewrite list_lookup_insert_eq by (by eapply lookup_lt_Some).
      assert (q = p) as -> by congruence.
      apply id_eqb_true in Hid. by rewrite Hid.
    + rewrite list_lookup_insert_ne by done. rewrite Hj.
      destruct (String.eqb (Task.id q) (Task.id t)) eqn:Hq; [|done].
      apply id_eqb_true in Hq. exfalso. apply Hne.
      eapply (NoDup_lookup (map Task.id l) i j (Task.id t)); [done|..].
      * by rewrite list_lookup_fmap, Hi, <- Hid.
      * by rewrite list_lookup_fmap, Hj, <- Hq.
  - assert (length l <= j)%nat as Hlen by (by apply lookup_ge_None).
    rewrite (lookup_ge_None_2 (upsert t l)) by (by rewrite upsert_length_present).
    symmetry. apply lookup_ge_None_2. by rewrite length_insert.
Qed.

Lemma tasks_upsertTask t st : tasks (upsertTask t st) = upsert t (tasks st).
Proof. reflexivity. Qed.

Lemma toggled_fields t :
  Task.id (toggled t) = Task.id t /\ Task.title (toggled t) = Task.title t /\
  Task.description (toggled t) = Task.description t /\
  Task.category (toggled t) = Task.category t /\
  Task.dueDate (toggled t) = Task.dueDate t /\
  Task.createdAt (toggled t) = Task.createdAt t /\
  Task.nextSteps (toggled t) = Task.nextSteps t.
Proof. by repeat split. Qed.

Lemma toggled_status t :
  Task.status (toggled t) =
  match Task.status t with Completed => Active | _ => Completed end.
Proof. unfold toggled. by destruct t as [? ? ? ? [] ? ? ?]. Qed.

Lemma toggled_twice_active t : Task.status t = Active -> toggled (toggled t) = t.
Proof. destruct t as [? ? ? ? s ? ? ?]. simpl. by intros ->. Qed.

(** C7: [upsert(t)] replaces, in place, the entry carrying [t]'s id when
    there is one (same length, every entry with another id untouched; with
    unique ids the result is the list updated at that one index), and
    otherwise puts [t] in front of the unchanged list. *)
Theorem upsertTask_replaces_or_prepends t st :
  let l := tasks st in
  let r := tasks (upsertTask t st) in
  ((exists p, p ∈ l /\ Task.id p = Task.id t) ->
     length r = length l /\
     (forall i p, l !! i = Some p -> Task.id p = Task.id t -> r !! i = Some t) /\
     (forall i p, l !! i = Some p -> Task.id p <> Task.id t -> r !! i = Some p) /\
     (forall i p, NoDup (map Task.id l) -> l !! i = Some p -> Task.id p = Task.id t ->
                  r = <[i := t]> l)) /\
  ((forall p, p ∈ l -> Task.id p <> Task.id t) ->
     r = t :: l /\ length r = S (length l) /\
     forall i p, l !! i = Some p -> r !! S i = Some p).
Proof.
  cbv zeta. rewrite tasks_upsertTask. split.
  - intros Hex. split; [by apply upsert_length_present|]. split; [|split].
    + intros i p Hi Hid. rewrite (upsert_lookup _ _ _ _ Hex Hi).
      apply id_eqb_true in Hid. by rewrite Hid.
    + intros i p Hi Hid. rewrite (upsert_lookup _ _ _ _ Hex Hi).
      apply id_eqb_false in Hid. by rewrite Hid.
    + intros i p Hnd Hi Hid. by eapply upsert_unique.
  - intros Hno. rewrite (upsert_absent _ _ Hno). by repeat split.
Qed.

(** C6: toggle-complete puts in the place of [T] a copy whose status is
    Completed when [T] was Active or Pending and Active when it was
    Completed, every other field as it was and every other task of the
    store untouched; two toggles from Active give the store back. *)
Theorem onToggleComplete_flips_status_only st i (T : Task.t) :
  tasks st !! i = Some T ->
  NoDup (map Task.id (tasks st)) ->
  let T' := toggled T in
  let st' := onToggleComplete T st in
  tasks st' = <[i := T']> (tasks st) /\
  tasks st' !! i = Some T' /\
  length (tasks st') = length (tasks st) /\
  (forall j p, j <> i -> tasks st !! j = Some p -> tasks st' !! j = Some p) /\
  (Task.status T = Active \/ Task.status T = Pending -> Task.status T' = Completed) /\
  (Task.status T = Completed -> Task.status T' = Active) /\
  (Task.status T = Active ->
     Task.status (toggled T') = Active /\
     tasks (onToggleComplete T' st') = tasks st) /\
  Task.id T' = Task.id T /\ Task.title T' = Task.title T /\
  Task.description T' = Task.description T /\
  Task.category T' = Task.category T /\
  Task.dueDate T' = Task.dueDate T /\
  Task.createdAt T' = Task.createdAt T /\
  Task.nextSteps T' = Task.nextSteps T.
Proof.
  intros Hi Hnd T' st'.
  assert (i < length (tasks st))%nat as Hlt by (by eapply lookup_lt_Some).
  assert (tasks st' = <[i := T']> (tasks st)) as Hst'.
  { unfold st', onToggleComplete. rewrite tasks_upsertTask.
    by apply (upsert_unique _ _ i T). }
  split; [done|]. rewrite Hst'.
  split; [by apply list_lookup_insert_eq|].
  split; [by apply length_insert|].
  split; [by intros j p Hne Hj; rewrite list_lookup_insert_ne|].
  split; [by intros [H|H]; unfold T'; rewrite toggled_status, H|].
  split; [by intros H; unfold T'; rewrite toggled_status, H|].
  split; [|apply toggled_fields].
  intros Hact. split.
  - unfold T'. by rewrite toggled_twice_active.
  - unfold onToggleComplete at 1. rewrite tasks_upsertTask, Hst'.
    rewrite (upsert_unique (toggled T') (<[i := T']> (tasks st)) i T').
    + unfold T'. rewrite toggled_twice_active by done.
      rewrite list_insert_insert_eq. by apply list_insert_id.
    + assert (map Task.id (<[i := T']> (tasks st)) = map Task.id (tasks st)) as ->; [|done].
      rewrite list_fmap_insert. apply list_insert_id.
      by rewrite list_lookup_fmap, Hi.
    + by apply list_lookup_insert_eq.
    + done.
Qed.

End Store.

(** ** Grouping and metrics *)

Section Grouping.
Implicit Types (t : Task.t) (l : list Task.t) (c : Category)
  (m : gmap Category (list Task.t)).

Lemma inCategory_cons c t l :
  inCategory c (t :: l) =
  if decide (Task.category t = c) then t :: inCategory c l else inCategory c l.
Proof.
  unfold inCategory. simpl. rewrite bool_decide_decide.
  by destruct (decide (Task.category t = c)).
Qed.

Lemma elem_of_inCategory c t l : t ∈ inCategory c l <-> t ∈ l /\ Task.category t = c.
Proof.
  unfold inCategory. rewrite !list_elem_of_In, filter_In.
  by rewrite bool_decide_eq_true.
Qed.

Lemma inCategory_sublist c l : sublist (inCategory c l) l.
Proof.
  induction l as [|t l IH]; [constructor|].
  rewrite inCategory_cons. destruct (decide _); by constructor.
Qed.

Lemma elem_of_CATEGORIES c : c ∈ CATEGORIES.
Proof. unfold CATEGORIES. destruct c; set_solver. Qed.

Lemma NoDup_CATEGORIES : NoDup CATEGORIES.
Proof. compute_done. Qed.

Lemma emptyBuckets_lookup c : emptyBuckets !! c = Some [].
Proof. by destruct c. Qed.

Lemma pushBucket_lookup m t l0 :
  m !! Task.category t = Some l0 ->
  exists m', pushBucket m t = Some m' /\
    forall c, m' !! c =
      if decide (Task.category t = c) then Some (l0 ++ [t]) else m !! c.
Proof.
  intros Hm. unfold pushBucket. rewrite Hm. simpl. eexists. split; [done|].
  intros c. destruct (decide _) as [->|Hne].
  - by rewrite lookup_insert_eq.
  - by rewrite lookup_insert_ne.
Qed.

(** The loop of [byCategory] from any map that has the five keys. *)
Lemma push_all l : forall m,
  (forall c, is_Some (m !! c)) ->
  exists m', fold_left (fun acc t => m0 ← acc; pushBucket m0 t) l (Some m) = Some m' /\
    forall c, m' !! c = (fun b => b ++ inCategory c l) <$> m !! c.
Proof.
  induction l as [|t l IH]; intros m Hkeys.
  - exists m. split; [done|]. intros c. destruct (Hkeys c) as [b ->]. simpl.
    by rewrite app_nil_r.
  - destruct (Hkeys (Task.category t)) as [b0 Hb0].
    destruct (pushBucket_lookup m t b0 Hb0) as (m1 & Hpush & Hm1).
    destruct (IH m1) as (m' & Hfold & Hm').
    { intros c. rewrite Hm1. destruct (decide _); [by eexists|apply Hkeys]. }
    exists m'. split.
    + simpl. by rewrite Hpush.
    + intros c. rewrite Hm', Hm1, inCategory_cons.
      destruct (decide _) as [<-|Hne]; [|done].
      rewrite Hb0. simpl. by rewrite <- app_assoc.
Qed.

Lemma byCategory_lookup l :
  exists m, byCategory l = Some m /\ forall c, m !! c = Some (inCategory c l).
Proof.
  destruct (push_all l emptyBuckets) as (m & Hm & Hlook).
  { intros c. rewrite emptyBuckets_lookup. by eexists. }
  exists m. split; [done|]. intros c. by rewrite Hlook, emptyBuckets_lookup.
Qed.

Lemma Permutation_of_eq (l1 l2 : list Task.t) : l1 = l2 -> l1 ≡ₚ l2.
Proof. by intros ->. Qed.

Lemma concat_cons_one (f : Category -> list Task.t) t (cs : list Category) :
  NoDup cs -> Task.category t ∈ cs ->
  concat (map (fun c => if decide (Task.category t = c) then t :: f c else f c) cs)
    ≡ₚ t :: concat (map f cs).
Proof.
  induction cs as [|c cs IH]; intros Hnd Hin; [by apply elem_of_nil in Hin|].
  apply NoDup_cons in Hnd as [Hc Hnd]. simpl.
  destruct (decide (Task.category t = c)) as [Heq|Hne].
  - simpl. constructor. apply Permutation_of_eq. f_equal. f_equal.
    apply map_ext_in. intros c' Hc'. apply list_elem_of_In in Hc'.
    destruct (decide _); [congruence|done].
  - apply elem_of_cons in Hin as [?|Hin]; [done|].
    rewrite (IH Hnd Hin). by rewrite Permutation_middle.
Qed.

Lemma concat_inCategory l :
  concat (map (fun c => inCategory c l) CATEGORIES) ≡ₚ l.
Proof.
  induction l as [|t l IH].
  - reflexivity.
  - transitivity (t :: concat (map (fun c => inCategory c l) CATEGORIES));
      [|by constructor].
    rewrite <- (concat_cons_one (fun c => inCategory c l) t CATEGORIES
                 NoDup_CATEGORIES (elem_of_CATEGORIES _)).
    apply Permutation_of_eq. f_equal. apply map_ext. intros c. apply inCategory_cons.
Qed.

(** C8: grouping yields exactly the five buckets; the bucket of a category
    holds the tasks of that category in the order of the input; the buckets
    are pairwise disjoint and jointly exhaustive; and chained in declaration
    order they are a permutation of the input. *)
Theorem byCategory_partitions l :
  exists m, byCategory l = Some m /\
    dom m = list_to_set CATEGORIES /\
    size m = 5%nat /\
    (forall c, m !! c = Some (inCategory c l)) /\
    (forall c b, m !! c = Some b -> sublist b l) /\
    (forall t, t ∈ l -> exists c b, c ∈ CATEGORIES /\ m !! c = Some b /\ t ∈ b) /\
    (forall c1 c2 b1 b2 t,
       m !! c1 = Some b1 -> m !! c2 = Some b2 -> t ∈ b1 -> t ∈ b2 -> c1 = c2) /\
    concat (map (fun c => default [] (m !! c)) CATEGORIES) ≡ₚ l.
Proof.
  destruct (byCategory_lookup l) as (m & Hby & Hm).
  assert (dom m = list_to_set CATEGORIES) as Hdom.
  { apply set_eq. intros c. rewrite elem_of_dom, Hm, elem_of_list_to_set.
    split; [intros _; apply elem_of_CATEGORIES|by eexists]. }
  exists m. split; [done|]. split; [done|]. split.
  { rewrite <- size_dom, Hdom. reflexivity. }
  split; [done|]. split.
  { intros c b. rewrite Hm. intros [= <-]. apply inCategory_sublist. }
  split.
  { intros t Ht. exists (Task.category t), (inCategory (Task.category t) l).
    split; [apply elem_of_CATEGORIES|]. split; [done|]. by apply elem_of_inCategory. }
  split.
  { intros c1 c2 b1 b2 t. rewrite !Hm. intros [= <-] [= <-].
    rewrite !elem_of_inCategory. intros [_ <-] [_ <-]. done. }
  etransitivity; [|apply (concat_inCategory l)].
  apply Permutation_of_eq. f_equal. apply map_ext. intros c. by rewrite Hm.
Qed.

End Grouping.

Section MetricsFacts.
Variable env : JSDate.Env.
Implicit Types (l : list Task.t) (c : Category).

Lemma counts_lookup l c :
  counts (metrics env l) !! c = Some (length (inCategory c l)).
Proof.
  unfold metrics, CATEGORIES, inCategory. simpl.
  destruct c; by repeat (rewrite lookup_insert_eq || rewrite lookup_insert_ne by done).
Qed.

Lemma inCategory_lengths l :
  (length (inCategory Dealership l) + length (inCategory Family l) +
   length (inCategory Business l) + length (inCategory Spiritual l) +
   length (inCategory Personal l))%nat = length l.
Proof.
  induction l as [|t l IH]; [done|].
  rewrite !inCategory_cons. simpl length. rewrite <- IH.
  destruct (Task.category t); simpl; lia.
Qed.

(** C10: [total] is the length of the task list, and the five per-category
    counts, as stored and as the chips show them, add up to it. *)
Theorem metrics_counts_sum_to_total l :
  let m := metrics env l in
  total m = length l /\
  (forall c, counts m !! c = Some (length (inCategory c l))) /\
  dom (counts m) = list_to_set CATEGORIES /\
  total m = sum_list (map (shownCount m) CATEGORIES).
Proof.
  cbv zeta. split; [done|]. split; [apply counts_lookup|]. split.
  - apply set_eq. intros c. rewrite elem_of_dom, counts_lookup, elem_of_list_to_set.
    split; [intros _; apply elem_of_CATEGORIES|by eexists].
  - unfold CATEGORIES at 1. cbn [map sum_list sum_list_with]. unfold shownCount.
    rewrite !counts_lookup. cbn [default].
    change (total (metrics env l)) with (length l).
    rewrite <- (inCategory_lengths l). unfold id. lia.
Qed.

End MetricsFacts.

(** ** The order on strings *)

Section StringOrder.
Implicit Types a b c : string.

Lemma compare_refl a : String.compare a a = Eq.
Proof.
  change (String_as_OT.compare a a = Eq).
  destruct (String_as_OT.compare_spec a a) as [_|H|H]; [done|..];
    by apply (irreflexivity String_as_OT.lt) in H.
Qed.

Lemma compare_Lt_trans a b c :
  String.compare a b = Lt -> String.compare b c = Lt -> String.compare a c = Lt.
Proof. apply (transitivity (R := String_as_OT.lt)). Qed.

Lemma compare_Gt_Lt a b : String.compare a b = Gt <-> String.compare b a = Lt.
Proof.
  rewrite (String.compare_antisym b a).
  destruct (String.compare a b); simpl; split; congruence.
Qed.

Lemma sle_compare a b : sle a b <-> String.compare a b <> Gt.
Proof.
  unfold sle, JSString.le, String.leb.
  destruct (String.compare a b); split; congruence.
Qed.

Lemma sle_refl a : sle a a.
Proof. apply sle_compare. by rewrite compare_refl. Qed.

Lemma not_sle a b : ~ sle a b <-> String.compare b a = Lt.
Proof.
  rewrite sle_compare, <- compare_Gt_Lt.
  destruct (String.compare a b); split; try congruence; intros H; by destruct H.
Qed.

Lemma sle_total a b : sle a b \/ sle b a.
Proof. apply String.leb_total. Qed.

Lemma sle_antisym a b : sle a b -> sle b a -> a = b.
Proof. apply String.leb_antisym. Qed.

Lemma sle_trans a b c : sle a b -> sle b c -> sle a c.
Proof.
  rewrite !sle_compare. intros Hab Hbc Hac. apply compare_Gt_Lt in Hac.
  destruct (String.compare a b) eqn:Eab; [|clear Hab|done].
  - apply String.compare_eq_iff in Eab as ->. apply compare_Gt_Lt in Hac. done.
  - destruct (String.compare b c) eqn:Ebc; [| |done].
    + apply String.compare_eq_iff in Ebc as ->.
      pose proof (compare_Lt_trans _ _ _ Hac Eab) as H. by rewrite compare_refl in H.
    + pose proof (compare_Lt_trans _ _ _ (compare_Lt_trans _ _ _ Hac Eab) Ebc) as H.
      by rewrite compare_refl in H.
Qed.

Lemma not_sle_sle a b : ~ sle a b -> sle b a.
Proof. destruct (sle_total a b); tauto. Qed.

End StringOrder.

(** ** Sorting *)

Section SortFacts.
Context {A : Type} (key : A -> string).

Local Abbreviation sort := (JSArray.sorted (byKey key)).
Local Abbreviation place := (JSArray.place (byKey key)).

Lemma place_perm x l : place x l ≡ₚ x :: l.
Proof.
  induction l as [|y l IH]; simpl; [done|].
  destruct (byKey key x y); try done. rewrite IH. apply Permutation_swap.
Qed.

Lemma sorted_perm l : sort l ≡ₚ l.
Proof.
  induction l as [|x l IH]; simpl; [done|].
  rewrite place_perm. by constructor.
Qed.


Lemma byKey_not_Gt x y : byKey key x y <> Gt <-> sle (key x) (key y).
Proof. symmetry. apply sle_compare. Qed.

Lemma byKey_Gt x y : byKey key x y = Gt -> sle (key y) (key x) /\ ~ sle (key x) (key y).
Proof.
  intros H. split.
  - apply not_sle_sle. rewrite sle_compare. unfold byKey, JSString.localeCompare in H. tauto.
  - rewrite sle_compare. unfold byKey, JSString.localeCompare in H. tauto.
Qed.

Lemma place_sorted x l :
  StronglySorted (keyLe key) l -> StronglySorted (keyLe key) (place x l).
Proof.
  induction 1 as [|y l Hs IH Hall]; simpl.
  - repeat constructor.
  - destruct (byKey key x y) eqn:E.
    + assert (keyLe key x y) as Hxy by (apply byKey_not_Gt; congruence).
      constructor; [by constructor|]. constructor; [done|].
      eapply Forall_impl; [done|]. intros z Hz. by eapply sle_trans.
    + assert (keyLe key x y) as Hxy by (apply byKey_not_Gt; congruence).
      constructor; [by constructor|]. constructor; [done|].
      eapply Forall_impl; [done|]. intros z Hz. by eapply sle_trans.
    + apply byKey_Gt in E as [Hyx _].
      constructor; [done|]. rewrite place_perm. by constructor.
Qed.

(** The result is in ascending order of the keys. *)
Lemma sorted_ascending l : StronglySorted (keyLe key) (sort l).
Proof.
  induction l as [|x l IH]; simpl; [constructor|]. by apply place_sorted.
Qed.

(** Stability: the elements of any one key keep their order. *)
Lemma place_same_key k x l :
  List.filter (fun y => String.eqb (key y) k) (place x l) =
  List.filter (fun y => String.eqb (key y) k) (x :: l).
Proof.
  induction l as [|y l IH]; [done|].
  simpl. destruct (byKey key x y) eqn:E; try done.
  simpl. simpl in IH. rewrite IH.
  destruct (String.eqb (key x) k) eqn:Ex; [|done].
  destruct (String.eqb (key y) k) eqn:Ey; [|done].
  apply String.eqb_eq in Ex, Ey. unfold byKey, JSString.localeCompare in E.
  rewrite Ex, Ey, compare_refl in E. done.
Qed.

Lemma sorted_stable k l :
  List.filter (fun y => String.eqb (key y) k) (sort l) =
  List.filter (fun y => String.eqb (key y) k) l.
Proof.
  induction l as [|x l IH]; [done|].
  simpl. rewrite place_same_key. simpl. by rewrite IH.
Qed.

Lemma same_key_head k x l l' y :
  List.filter (fun z => String.eqb (key z) k) (x :: l) =
  List.filter (fun z => String.eqb (key z) k) (y :: l') ->
  key x = k -> key y = k -> x = y.
Proof.
  intros H Hx Hy. simpl in H.
  apply String.eqb_eq in Hx, Hy. rewrite Hx, Hy in H. congruence.
Qed.

Lemma same_key_elem k (l l' : list A) x :
  List.filter (fun z => String.eqb (key z) k) l =
  List.filter (fun z => String.eqb (key z) k) l' ->
  x ∈ l -> key x = k -> x ∈ l'.
Proof.
  intros H Hin Hk.
  assert (In x (List.filter (fun z => String.eqb (key z) k) l)) as Hf.
  { apply filter_In. split; [by apply list_elem_of_In|by apply String.eqb_eq]. }
  rewrite H in Hf. apply filter_In in Hf as [Hf _]. by apply list_elem_of_In.
Qed.

(** Two ascending lists that hold, for every key, the same elements of
    that key in the same order are one list: a stable sort has one result,
    and [sort] computes it. *)
Lemma stable_ascending_unique (l1 : list A) : forall l2 : list A,
  StronglySorted (keyLe key) l1 -> StronglySorted (keyLe key) l2 ->
  (forall k, List.filter (fun z => String.eqb (key z) k) l1 =
             List.filter (fun z => String.eqb (key z) k) l2) ->
  l1 = l2.
Proof.
  induction l1 as [|x l1 IH]; intros l2 Hs1 Hs2 Hsame.
  - destruct l2 as [|y l2]; [done|].
    specialize (Hsame (key y)). simpl in Hsame. by rewrite String.eqb_refl in Hsame.
  - destruct l2 as [|y l2].
    { specialize (Hsame (key x)). simpl in Hsame. by rewrite String.eqb_refl in Hsame. }
    apply StronglySorted_inv in Hs1 as [Hs1 Hall1].
    apply StronglySorted_inv in Hs2 as [Hs2 Hall2].
    rewrite Forall_forall in Hall1, Hall2.
    assert (key x = key y) as Hk.
    { apply sle_antisym.
      - assert (y ∈ x :: l1) as Hy.
        { apply (same_key_elem (key y) (y :: l2)); [done|by left|done]. }
        apply elem_of_cons in Hy as [->|Hy]; [apply sle_refl|by apply Hall1].
      - assert (x ∈ y :: l2) as Hx.
        { apply (same_key_elem (key x) (x :: l1)); [done|by left|done]. }
        apply elem_of_cons in Hx as [->|Hx]; [apply sle_refl|by apply Hall2]. }
    assert (x = y) as -> by (by apply (same_key_head (key x) x l1 l2 y)).
    f_equal. apply IH; [done..|].
    intros k. specialize (Hsame k). simpl in Hsame.
    destruct (String.eqb (key y) k); congruence.
Qed.

Lemma sorted_unique (l l' : list A) :
  StronglySorted (keyLe key) l' ->
  (forall k, List.filter (fun z => String.eqb (key z) k) l' =
             List.filter (fun z => String.eqb (key z) k) l) ->
  l' = sort l.
Proof.
  intros Hs Hsame. apply stable_ascending_unique; [done|apply sorted_ascending|].
  intros k. by rewrite Hsame, sorted_stable.
Qed.


End SortFacts.

(** ** The [filtered] memo *)

Section Filtered.
Implicit Types (st : State) (h : gmap positive (list Task.t)) (r : JSArray.ref).

Lemma sorter_dueDate : sorter SortDueDate = byKey dueKey.
Proof. reflexivity. Qed.

Lemma sorter_category :
  sorter SortCategory = byKey (fun t => Category_name (Task.category t)).
Proof. reflexivity. Qed.

(** What the heap holds after [alloc]: the new array under a reference
    that was not in use, everything else as before. *)
Lemma alloc_spec (l : list Task.t) h :
  let '(r, h') := JSArray.alloc l h in
  h !! r = None /\ h' !! r = Some l /\ forall r', r' <> r -> h' !! r' = h !! r'.
Proof.
  unfold JSArray.alloc. set (r := fresh (dom h)).
  assert (h !! r = None) as Hfresh.
  { apply not_elem_of_dom. apply is_fresh. }
  split; [done|]. split; [by rewrite lookup_insert_eq|].
  intros r' Hne. by rewrite lookup_insert_ne.
Qed.

Lemma filter_spec (p : Task.t -> bool) a h l :
  h !! a = Some l ->
  let '(r, h') := JSArray.filter p a h in
  h !! r = None /\ h' !! r = Some (List.filter p l) /\
  forall r', r' <> r -> h' !! r' = h !! r'.
Proof.
  intros Ha. unfold JSArray.filter, JSArray.read. rewrite Ha. simpl.
  apply alloc_spec.
Qed.

Lemma spread_spec a h l :
  h !! a = Some l ->
  let '(r, h') := JSArray.spread a h in
  h !! r = None /\ h' !! r = Some l /\ forall r', r' <> r -> h' !! r' = h !! r'.
Proof.
  intros Ha. unfold JSArray.spread, JSArray.read. rewrite Ha. simpl.
  apply alloc_spec.
Qed.

Lemma sort_spec cmp a h l :
  h !! a = Some l ->
  let '(r, h') := JSArray.sort cmp a h in
  r = a /\ h' !! a = Some (JSArray.sorted cmp l) /\
  forall r', r' <> a -> h' !! r' = h !! r'.
Proof.
  intros Ha. unfold JSArray.sort. split; [done|]. split.
  - by rewrite lookup_alter_eq, Ha.
  - intros r' Hne. by rewrite lookup_alter_ne.
Qed.

(** The memo leaves every array that existed before it ran as it was, the
    [tasks] array included, and returns a new array holding [filtered]. *)
Lemma filteredM_spec st tasksRef h :
  h !! tasksRef = Some (tasks st) ->
  let '(r, h') := filteredM st tasksRef h in
  h !! r = None /\
  h' !! r = Some (filtered st) /\
  forall r', is_Some (h !! r') -> h' !! r' = h !! r'.
Proof.
  intros Ht. unfold filteredM, filtered, kept.
  set (q := JSString.toLowerCase (JSString.trim (query st))).
  pose proof (filter_spec
    (fun t => bool_decide (Task.category t ∈ activeCategories st)) tasksRef h _ Ht) as H1.
  destruct (JSArray.filter _ tasksRef h) as [r1 h1].
  destruct H1 as (Hn1 & Hr1 & Hf1).
  set (l1 := List.filter _ (tasks st)) in *.
  assert (exists r2 h2 l2,
    (match statusFilter st with
     | Some s => JSArray.filter (fun t => bool_decide (Task.status t = s)) r1 h1
     | None => (r1, h1)
     end) = (r2, h2) /\
    l2 = (match statusFilter st with
          | Some s => List.filter (fun t => bool_decide (Task.status t = s)) l1
          | None => l1
          end) /\
    h2 !! r2 = Some l2 /\ h !! r2 = None /\
    forall r', is_Some (h !! r') -> h2 !! r' = h !! r') as (r2 & h2 & l2 & -> & Hl2 & Hr2 & Hn2 & Hf2).
  { destruct (statusFilter st) as [s|].
    - pose proof (filter_spec (fun t => bool_decide (Task.status t = s)) r1 h1 _ Hr1) as H2.
      destruct (JSArray.filter _ r1 h1) as [r2 h2]. destruct H2 as (Hn2 & Hr2 & Hf2).
      eexists r2, h2, _. split; [done|]. split; [done|]. split; [done|].
      assert (r2 <> r1) as Hne by congruence.
      assert (h !! r2 = None) as Hn by (by rewrite <- Hf1).
      split; [done|].
      intros r' [x Hx]. rewrite Hf2, Hf1; congruence.
    - exists r1, h1, l1. repeat split; try done.
      intros r' [x Hx]. apply Hf1. congruence. }
  rewrite <- Hl2. clear Hl2.
  assert (exists r3 h3 l3,
    (if JSString.nonempty q then JSArray.filter (matchesQuery q) r2 h2 else (r2, h2))
      = (r3, h3) /\
    l3 = (if JSString.nonempty q then List.filter (matchesQuery q) l2 else l2) /\
    h3 !! r3 = Some l3 /\ h !! r3 = None /\
    forall r', is_Some (h !! r') -> h3 !! r' = h !! r') as (r3 & h3 & l3 & -> & Hl3 & Hr3 & Hn3 & Hf3).
  { destruct (JSString.nonempty q).
    - pose proof (filter_spec (matchesQuery q) r2 h2 _ Hr2) as H3.
      destruct (JSArray.filter _ r2 h2) as [r3 h3]. destruct H3 as (Hn3 & Hr3 & Hf3).
      eexists r3, h3, _. split; [done|]. split; [done|]. split; [done|]. split.
      + destruct (h !! r3) as [x|] eqn:Hx; [|done].
        rewrite <- (Hf2 r3) in Hx by (by eexists). congruence.
      + intros r' [x Hx]. rewrite Hf3; [by apply Hf2; eexists|].
        intros ->. rewrite <- (Hf2 r3) in Hx by (by eexists). congruence.
    - exists r2, h2, l2. by repeat split. }
  rewrite <- Hl3. clear Hl3.
  pose proof (spread_spec r3 h3 _ Hr3) as H4.
  destruct (JSArray.spread r3 h3) as [copy h4]. destruct H4 as (Hn4 & Hr4 & Hf4).
  pose proof (sort_spec (sorter (sortKey st)) copy h4 _ Hr4) as H5.
  destruct (JSArray.sort _ copy h4) as [r5 h5]. destruct H5 as (-> & Hr5 & Hf5).
  assert (h !! copy = None) as Hn.
  { destruct (h !! copy) as [x|] eqn:Hx; [|done].
    rewrite <- (Hf3 copy) in Hx by (by eexists). congruence. }
  split; [done|]. split; [done|].
  intros r' [x Hx]. assert (r' <> copy) as Hne by congruence.
  rewrite Hf5, Hf4 by done. apply Hf3. by eexists.
Qed.

(** Sorting by due date: a permutation of what the filters keep, in
    ascending order of the keys, tasks of equal keys in their former
    order. *)
Lemma filtered_dueDate st :
  sortKey st = SortDueDate ->
  filtered st ≡ₚ kept st /\
  StronglySorted (keyLe dueKey) (filtered st) /\
  forall k,
    List.filter (fun t => String.eqb (dueKey t) k) (filtered st) =
    List.filter (fun t => String.eqb (dueKey t) k) (kept st).
Proof.
  intros Hk. unfold filtered. rewrite Hk, sorter_dueDate.
  split; [apply sorted_perm|]. split; [apply sorted_ascending|].
  intros k. apply sorted_stable.
Qed.

End Filtered.

Section DueDateOrder.
Implicit Types (st : State) (a b : Task.t).

Lemma StronglySorted_lookup {A} (R : A -> A -> Prop) (l : list A) :
  StronglySorted R l ->
  forall i j x y, l !! i = Some x -> l !! j = Some y -> (i < j)%nat -> R x y.
Proof.
  induction 1 as [|z l Hs IH Hall]; intros i j x y Hi Hj Hlt; [done|].
  destruct j as [|j]; [lia|]. simpl in Hj. destruct i as [|i]; simpl in Hi.
  - injection Hi as <-. rewrite Forall_forall in Hall. apply Hall.
    by eapply list_elem_of_lookup_2.
  - eapply IH; [done..|lia].
Qed.

(** Where every due date in view sorts below the sentinel, the tasks with
    a due date all come before the tasks without one. *)
Lemma filtered_undated_last st i j a b :
  sortKey st = SortDueDate ->
  filtered st !! i = Some a -> filtered st !! j = Some b ->
  JSString.truthy (Task.dueDate a) = true ->
  JSString.truthy (Task.dueDate b) = false ->
  ~ sle "9999" (dueKey a) ->
  (i < j)%nat.
Proof.
  intros Hk Hi Hj Ha Hb Hlt.
  destruct (filtered_dueDate st Hk) as (_ & Hsorted & _).
  assert (dueKey b = "9999") as Hkb.
  { unfold dueKey, JSString.or_else. unfold JSString.truthy in Hb.
    destruct (Task.dueDate b); [by rewrite Hb|done]. }
  destruct (decide (i < j)%nat) as [|Hge]; [done|]. exfalso.
  destruct (decide (i = j)) as [->|Hne].
  - assert (a = b) as -> by congruence. congruence.
  - apply Hlt. rewrite <- Hkb.
    apply (StronglySorted_lookup _ _ Hsorted j i b a Hj Hi). lia.
Qed.

(** C4, at the input where the code departs from it: a task due in the
    year 9999 is sorted after a task with no due date, since the key
    "9999" that stands for a missing date is a proper prefix of, and so
    below, every date of that year. *)
Theorem filtered_dueDate_undated_before_year_9999 :
  filtered lateState = [undatedTask; lateTask] /\
  (let '(r, h) := filteredM lateState 1%positive {[ 1%positive := tasks lateState ]} in
   h !! r = Some [undatedTask; lateTask] /\
   h !! 1%positive = Some [lateTask; undatedTask]).
Proof. split; [reflexivity|]. vm_compute. split; reflexivity. Qed.

End DueDateOrder.

(** ** Calendar arithmetic *)

Section DateFacts.
Import JSDate.
Implicit Types (t d n y : Z) (env : Env).

Lemma DayFromYear_succ y : DayFromYear (y + 1) = DayFromYear y + DaysInYear y.
Proof.
  unfold DayFromYear, DaysInYear, isLeap.
  destruct (y mod 4 =? 0) eqn:E4; destruct (y mod 100 =? 0) eqn:E100;
    destruct (y mod 400 =? 0) eqn:E400; simpl;
    rewrite ?Z.eqb_eq, ?Z.eqb_neq in *; Z.div_mod_to_equations; lia.
Qed.

Lemma DayFromYear_mono y1 y2 : y1 < y2 -> DayFromYear y1 < DayFromYear y2.
Proof. unfold DayFromYear. intros. Z.div_mod_to_equations. lia. Qed.

(** [YearFromDay] is the year the standard defines: the one whose first
    day is the last first-of-year not after [d]. *)
Lemma YearFromDay_spec d :
  DayFromYear (YearFromDay d) <= d < DayFromYear (YearFromDay d + 1).
Proof.
  unfold YearFromDay.
  set (y0 := 1970 + d * 400 / 146097).
  destruct (DayFromYear (y0 + 1) <=? d) eqn:E1;
    [|destruct (DayFromYear y0 <=? d) eqn:E0];
    rewrite ?Z.leb_le, ?Z.leb_gt in *; unfold DayFromYear, y0 in *;
    Z.div_mod_to_equations; lia.
Qed.

Lemma YearFromDay_unique d y :
  DayFromYear y <= d < DayFromYear (y + 1) -> YearFromDay d = y.
Proof.
  intros Hy. pose proof (YearFromDay_spec d) as Hs.
  destruct (Z.lt_trichotomy (YearFromDay d) y) as [Hlt|[Heq|Hgt]]; [|done|].
  - destruct (Z.eq_dec (YearFromDay d + 1) y) as [Heq|Hne]; [rewrite Heq in Hs; lia|].
    assert (DayFromYear (YearFromDay d + 1) < DayFromYear y)
      by (apply DayFromYear_mono; lia).
    lia.
  - destruct (Z.eq_dec (y + 1) (YearFromDay d)) as [Heq|Hne]; [rewrite <- Heq in Hs; lia|].
    assert (DayFromYear (y + 1) < DayFromYear (YearFromDay d))
      by (apply DayFromYear_mono; lia).
    lia.
Qed.

Lemma Day_MakeDate day time :
  0 <= time < msPerDay -> Day (MakeDate day time) = day.
Proof.
  intros H. unfold Day, MakeDate, msPerDay in *. Z.div_mod_to_equations. lia.
Qed.

Lemma TimeWithinDay_MakeDate day time :
  0 <= time < msPerDay -> TimeWithinDay (MakeDate day time) = time.
Proof.
  intros H. unfold TimeWithinDay, MakeDate, msPerDay in *. Z.div_mod_to_equations. lia.
Qed.

Lemma MakeDate_Day t : MakeDate (Day t) (TimeWithinDay t) = t.
Proof. unfold MakeDate, Day, TimeWithinDay, msPerDay. Z.div_mod_to_equations. lia. Qed.

Lemma month_range leap d : 0 <= monthOfDayWithinYear leap d <= 11.
Proof. unfold monthOfDayWithinYear. repeat (destruct (_ <? _); [lia|]). lia. Qed.

Lemma MonthFromTime_range t : 0 <= MonthFromTime t <= 11.
Proof. apply month_range. Qed.

(** The fields of a time value name its day: [MakeDay] of its year, month
    and date, the date moved by [n], is its day number moved by [n]. *)
Lemma MakeDay_fields t n :
  MakeDay (YearFromTime t) (MonthFromTime t) (DateFromTime t + n) = Day t + n.
Proof.
  pose proof (MonthFromTime_range t) as Hm.
  unfold MakeDay, DateFromTime, DayWithinYear.
  rewrite (Z.div_small (MonthFromTime t) 12), (Z.mod_small (MonthFromTime t) 12) by lia.
  rewrite Z.add_0_r. fold (InLeapYear t). lia.
Qed.

Lemma setDate_getDate env d n :
  setDate env d (getDate env d + n) = d + n * msPerDay.
Proof.
  unfold setDate, getDate. rewrite MakeDay_fields.
  pose proof (MakeDate_Day (LocalTime env d)) as H.
  unfold UTC, MakeDate, LocalTime in *. lia.
Qed.

(** [addDays] moves a date by whole days. *)
Lemma addDays_add env d n : addDays env d n = d + n * msPerDay.
Proof. apply setDate_getDate. Qed.

(** Reading back what [toDateString] printed gives local midnight. *)
Lemma ofDateString_toDateString env d :
  ofDateString env (toDateString env d) =
  UTC env (MakeDate (Day (LocalTime env d)) 0).
Proof.
  unfold ofDateString, toDateString. simpl.
  pose proof (MakeDay_fields (LocalTime env d) 0) as H.
  rewrite Z.add_0_r in H. by rewrite H, Z.add_0_r.
Qed.

Lemma daysBeforeMonth_bounds leap m :
  0 <= leap <= 1 -> 0 <= m <= 11 ->
  0 <= daysBeforeMonth leap m < 365 + leap /\
  monthOfDayWithinYear leap (daysBeforeMonth leap m) = m.
Proof.
  intros Hl Hm.
  assert (leap = 0 \/ leap = 1) as [-> | ->] by lia;
    assert (m = 0 \/ m = 1 \/ m = 2 \/ m = 3 \/ m = 4 \/ m = 5 \/ m = 6 \/ m = 7 \/
            m = 8 \/ m = 9 \/ m = 10 \/ m = 11) as Hcases by lia;
    repeat (destruct Hcases as [-> | Hcases]); subst; by vm_compute.
Qed.

(** The first of a month is read back as that year, that month, day 1. *)
Lemma first_of_month_fields y m :
  0 <= m <= 11 ->
  let t := MakeDate (MakeDay y m 1) 0 in
  YearFromTime t = y /\ MonthFromTime t = m /\ DateFromTime t = 1 /\
  TimeWithinDay t = 0.
Proof.
  intros Hm t.
  assert (Day t = MakeDay y m 1) as HD by (apply Day_MakeDate; unfold msPerDay; lia).
  set (leap := if isLeap y then 1 else 0).
  assert (MakeDay y m 1 = DayFromYear y + daysBeforeMonth leap m) as HM.
  { unfold MakeDay. rewrite (Z.div_small m 12), (Z.mod_small m 12) by lia.
    rewrite Z.add_0_r. fold leap. lia. }
  assert (0 <= leap <= 1) as Hl by (unfold leap; destruct (isLeap y); lia).
  destruct (daysBeforeMonth_bounds leap m Hl Hm) as [Hb Hmonth].
  assert (YearFromTime t = y) as HY.
  { unfold YearFromTime. rewrite HD, HM. apply YearFromDay_unique.
    rewrite DayFromYear_succ. unfold DaysInYear. fold leap.
    unfold leap in *. destruct (isLeap y); lia. }
  assert (InLeapYear t = leap) as HL by (unfold InLeapYear; by rewrite HY).
  assert (DayWithinYear t = daysBeforeMonth leap m) as HW.
  { unfold DayWithinYear. rewrite HY, HD, HM. lia. }
  assert (MonthFromTime t = m) as HMo.
  { unfold MonthFromTime. by rewrite HL, HW. }
  split; [done|]. split; [done|]. split.
  - unfold DateFromTime. rewrite HMo, HL, HW. lia.
  - apply TimeWithinDay_MakeDate. unfold msPerDay. lia.
Qed.

End DateFacts.

(** ** ISO date strings *)

Section IsoFacts.
Import JSDate.
Implicit Types (t d n : Z) (s : string).

Lemma append_cons (c : ascii) (s r : string) : String c s +:+ r = String c (s +:+ r).
Proof. reflexivity. Qed.

Lemma append_nil_l (s : string) : "" +:+ s = s.
Proof. reflexivity. Qed.

Lemma append_assoc (s1 s2 s3 : string) : (s1 +:+ s2) +:+ s3 = s1 +:+ (s2 +:+ s3).
Proof.
  induction s1 as [|c s1 IH]; [done|]. rewrite !append_cons. by f_equal.
Qed.

Lemma append_nil_r (s : string) : s +:+ "" = s.
Proof. induction s as [|c s IH]; [done|]. rewrite append_cons. by f_equal. Qed.

Lemma length_append s1 s2 :
  String.length (s1 ++ s2) = (String.length s1 + String.length s2)%nat.
Proof. induction s1 as [|c s1 IH]; simpl; [done|]. by rewrite IH. Qed.

Lemma length_pad w n : String.length (pad w n) = w.
Proof.
  revert n. induction w as [|w IH]; intros n; simpl; [done|].
  rewrite length_append, IH. simpl. lia.
Qed.

Lemma length_isoYear y : (4 <= String.length (isoYear y))%nat.
Proof.
  unfold isoYear. destruct (_ && _); [by rewrite length_pad|].
  destruct (y <? 0); cbn [String.length]; rewrite length_pad; lia.
Qed.

(** A slice from the start only reads that far. *)
Lemma slice0_app k a s1 s2 :
  JSString.slice0 (k - String.length a) s1 = JSString.slice0 (k - String.length a) s2 ->
  JSString.slice0 k (a ++ s1) = JSString.slice0 k (a ++ s2).
Proof.
  unfold JSString.slice0. revert k. induction a as [|c a IH]; intros k H.
  - simpl in *. by rewrite Nat.sub_0_r in H.
  - destruct k as [|k]; [done|]. simpl. f_equal. apply IH. exact H.
Qed.

Lemma slice0_zero s : JSString.slice0 0 s = "".
Proof. unfold JSString.slice0. by destruct s. Qed.

(** The first ten characters of [toISOString] are fixed by the UTC day. *)
Lemma toISOString_date t t' :
  Day t = Day t' ->
  JSString.slice0 10 (toISOString t) = JSString.slice0 10 (toISOString t').
Proof.
  intros HD. unfold toISOString.
  assert (YearFromTime t = YearFromTime t') as -> by (unfold YearFromTime; by rewrite HD).
  assert (MonthFromTime t = MonthFromTime t') as ->.
  { unfold MonthFromTime, InLeapYear, DayWithinYear, YearFromTime. by rewrite HD. }
  assert (DateFromTime t = DateFromTime t') as ->.
  { unfold DateFromTime, MonthFromTime, InLeapYear, DayWithinYear, YearFromTime.
    by rewrite HD. }
  pose proof (length_isoYear (YearFromTime t')) as Hy.
  apply slice0_app.
  apply (slice0_app _ "-"). apply slice0_app. apply (slice0_app _ "-").
  apply slice0_app. rewrite !length_pad. simpl String.length.
  replace (10 - String.length (isoYear (YearFromTime t')) - 1 - 2 - 1 - 2)%nat
    with 0%nat by lia.
  by rewrite !slice0_zero.
Qed.

Lemma toISOString_isoDate t : JSString.slice0 10 (toISOString t) = isoDate (Day t).
Proof.
  unfold isoDate. apply toISOString_date.
  rewrite Day_MakeDate; [done|]. unfold msPerDay. lia.
Qed.

End IsoFacts.

(** ** The order of ISO dates *)

Section IsoOrder.
Import JSDate.
Implicit Types (s a r : string) (n v y m d : Z).

Lemma parseDay_length (s : string) (D : Z) : parseDay s = Some D -> String.length s = 10%nat.
Proof.
  unfold parseDay. destruct (String.length s =? 10)%nat eqn:E; [|done].
  intros _. by apply Nat.eqb_eq.
Qed.

Lemma digitVal_spec c v :
  digitVal c = Some v -> 0 <= v <= 9 /\ Z.of_N (N_of_ascii c) = 48 + v.
Proof.
  unfold digitVal. destruct (_ && _)%N eqn:E; [|done]. intros [= <-].
  apply andb_true_iff in E as [E1 E2]. apply N.leb_le in E1, E2. lia.
Qed.

Lemma compare_digit c c' v v' :
  digitVal c = Some v -> digitVal c' = Some v' -> Ascii.compare c c' = (v ?= v').
Proof.
  intros [_ H]%digitVal_spec [_ H']%digitVal_spec. unfold Ascii.compare.
  rewrite <- N2Z.inj_compare, H, H'. apply Z.add_compare_mono_l.
Qed.

Lemma width_cons c a : width (String c a) = 10 * width a.
Proof.
  unfold width. replace (Z.of_nat (String.length (String c a)))
    with (Z.succ (Z.of_nat (String.length a))) by (simpl; lia).
  apply Z.pow_succ_r. lia.
Qed.

Lemma width_pos a : 0 < width a.
Proof. unfold width. apply Z.pow_pos_nonneg; lia. Qed.

(** A run of digits read after [acc] denotes [acc] shifted left by the
    length of the run, plus a number of that many digits. *)
Lemma digits_bounds a : forall acc n,
  digits acc a = Some n -> acc * width a <= n < (acc + 1) * width a.
Proof.
  induction a as [|c a IH]; intros acc n H.
  - injection H as <-. unfold width. simpl. lia.
  - simpl in H. destruct (digitVal c) as [v|] eqn:Hv; [|done].
    destruct (digitVal_spec c v Hv) as [Hr _].
    apply IH in H. rewrite width_cons. pose proof (width_pos a). nia.
Qed.

(** Strings that start with runs of digits of one length compare as the
    numbers the runs denote, and then as the rest. *)
Lemma compare_digits a : forall a' r r' acc n n',
  String.length a = String.length a' ->
  digits acc a = Some n -> digits acc a' = Some n' ->
  String.compare (a +:+ r) (a' +:+ r') =
  match n ?= n' with
  | Eq => String.compare r r'
  | c => c
  end.
Proof.
  induction a as [|c a IH]; intros [|c' a'] r r' acc n n' Hlen Hn Hn'; try done.
  - injection Hn as <-. injection Hn' as <-. by rewrite Z.compare_refl.
  - simpl in Hlen, Hn, Hn'. injection Hlen as Hlen.
    destruct (digitVal c) as [v|] eqn:Hv; [|done].
    destruct (digitVal c') as [v'|] eqn:Hv'; [|done].
    change (String.compare (String c a +:+ r) (String c' a' +:+ r')) with
      (match Ascii.compare c c' with
       | Eq => String.compare (a +:+ r) (a' +:+ r')
       | Lt => Lt | Gt => Gt end).
    rewrite (compare_digit c c' v v' Hv Hv').
    pose proof (digits_bounds _ _ _ Hn) as B. pose proof (digits_bounds _ _ _ Hn') as B'.
    assert (width a' = width a) as Hw by (unfold width; by rewrite Hlen).
    rewrite Hw in B'. pose proof (width_pos a) as Hp.
    destruct (Z.compare_spec v v') as [->|Hlt|Hgt].
    + by apply (IH a' r r' (10 * acc + v')).
    + assert ((n ?= n') = Lt) as -> by (apply Z.compare_lt_iff; nia). done.
    + assert ((n ?= n') = Gt) as -> by (apply Z.compare_gt_iff; nia). done.
Qed.


(** The shape of a date-only string: year, month and day in four, two and
    two digits, hyphens between. *)
Lemma parseDay_inv s D :
  parseDay s = Some D ->
  exists (a b c : string) y m d,
    s = a +:+ "-" +:+ b +:+ "-" +:+ c /\
    String.length a = 4%nat /\ String.length b = 2%nat /\ String.length c = 2%nat /\
    digits 0 a = Some y /\ digits 0 b = Some m /\ digits 0 c = Some d /\
    1 <= m <= 12 /\ 1 <= d <= DaysInMonth y (m - 1) /\
    D = MakeDay y (m - 1) d.
Proof.
  unfold parseDay. destruct (String.length s =? 10)%nat eqn:Hlen; [|done].
  apply Nat.eqb_eq in Hlen.
  do 10 (destruct s as [|? s]; [simpl in Hlen; lia|]).
  destruct s; [|simpl in Hlen; lia]. clear Hlen.
  unfold isChar. simpl String.get. cbv beta iota.
  destruct (Ascii.eqb_spec "-" a3) as [<-|]; [|by simpl].
  destruct (Ascii.eqb_spec "-" a6) as [<-|]; [|by simpl]. simpl andb.
  simpl substring.
  destruct (number _) as [y|] eqn:Hy; [|done].
  destruct (number (String a4 _)) as [m|] eqn:Hm; [|done].
  destruct (number (String a7 _)) as [d|] eqn:Hd; [|done].
  destruct (_ && _) eqn:Hv; [|done]. intros [= <-].
  repeat (apply andb_true_iff in Hv as [Hv ?]).
  exists (String a (String a0 (String a1 (String a2 ""))))%string,
         (String a4 (String a5 ""))%string, (String a7 (String a8 ""))%string, y, m, d.
  repeat split; try done; lia.
Qed.


Lemma MakeDay_valid y m d :
  1 <= m <= 12 -> 1 <= d <= DaysInMonth y (m - 1) ->
  DayFromYear y <= MakeDay y (m - 1) d < DayFromYear (y + 1).
Proof.
  intros Hm Hd. rewrite DayFromYear_succ. unfold MakeDay, DaysInYear.
  rewrite (Z.div_small (m - 1) 12), (Z.mod_small (m - 1) 12), Z.add_0_r by lia.
  assert (m = 1 \/ m = 2 \/ m = 3 \/ m = 4 \/ m = 5 \/ m = 6 \/ m = 7 \/ m = 8 \/
          m = 9 \/ m = 10 \/ m = 11 \/ m = 12) as Hcases by lia.
  repeat (destruct Hcases as [-> | Hcases]); subst;
    simpl in Hd |- *; destruct (isLeap y); lia.
Qed.

(** Valid dates are ordered as their year, month and day are, in that
    order of weight. *)
Lemma MakeDay_compare y m d y' m' d' :
  1 <= m <= 12 -> 1 <= d <= DaysInMonth y (m - 1) ->
  1 <= m' <= 12 -> 1 <= d' <= DaysInMonth y' (m' - 1) ->
  (MakeDay y (m - 1) d ?= MakeDay y' (m' - 1) d') =
  match y ?= y' with
  | Eq => match m ?= m' with Eq => d ?= d' | c => c end
  | c => c
  end.
Proof.
  intros Hm Hd Hm' Hd'.
  pose proof (MakeDay_valid y m d Hm Hd) as B.
  pose proof (MakeDay_valid y' m' d' Hm' Hd') as B'.
  destruct (Z.compare_spec y y') as [<-|Hlt|Hgt].
  - clear B B'. unfold MakeDay.
    rewrite (Z.div_small (m - 1) 12), (Z.mod_small (m - 1) 12) by lia.
    rewrite (Z.div_small (m' - 1) 12), (Z.mod_small (m' - 1) 12) by lia.
    rewrite Z.add_0_r.
    assert (m = 1 \/ m = 2 \/ m = 3 \/ m = 4 \/ m = 5 \/ m = 6 \/ m = 7 \/ m = 8 \/
            m = 9 \/ m = 10 \/ m = 11 \/ m = 12) as Hc by lia.
    assert (m' = 1 \/ m' = 2 \/ m' = 3 \/ m' = 4 \/ m' = 5 \/ m' = 6 \/ m' = 7 \/
            m' = 8 \/ m' = 9 \/ m' = 10 \/ m' = 11 \/ m' = 12) as Hc' by lia.
    repeat (destruct Hc as [-> | Hc]); subst;
      repeat (destruct Hc' as [-> | Hc']); subst;
      simpl in Hd, Hd' |- *; destruct (isLeap y);
      first [ apply Z.compare_lt_iff; lia | apply Z.compare_gt_iff; lia
            | destruct (Z.compare_spec d d');
              [ apply Z.compare_eq_iff | apply Z.compare_lt_iff | apply Z.compare_gt_iff ];
              lia ].
  - apply Z.compare_lt_iff.
    assert (DayFromYear (y + 1) <= DayFromYear y').
    { destruct (Z.eq_dec (y + 1) y') as [<-|]; [lia|].
      pose proof (DayFromYear_mono (y + 1) y'). lia. }
    lia.
  - apply Z.compare_gt_iff.
    assert (DayFromYear (y' + 1) <= DayFromYear y).
    { destruct (Z.eq_dec (y' + 1) y) as [<-|]; [lia|].
      pose proof (DayFromYear_mono (y' + 1) y). lia. }
    lia.
Qed.

(** On date-only strings the order of the strings is the order of the
    days they name. *)
Lemma parseDay_compare s s' D D' :
  parseDay s = Some D -> parseDay s' = Some D' ->
  String.compare s s' = (D ?= D').
Proof.
  intros (a & b & c & y & m & d & -> & La & Lb & Lc & Hy & Hm & Hd & Vm & Vd & ->)%parseDay_inv
         (a' & b' & c' & y' & m' & d' & -> & La' & Lb' & Lc' & Hy' & Hm' & Hd' & Vm' & Vd' & ->)%parseDay_inv.
  rewrite (MakeDay_compare y m d y' m' d') by done.
  rewrite (compare_digits a a' _ _ 0 y y') by (done || congruence).
  destruct (y ?= y'); [|done..].
  change (String.compare ("-" +:+ b +:+ "-" +:+ c) ("-" +:+ b' +:+ "-" +:+ c')) with
         (String.compare (b +:+ "-" +:+ c) (b' +:+ "-" +:+ c')).
  rewrite (compare_digits b b' _ _ 0 m m') by (done || congruence).
  destruct (m ?= m'); [|done..].
  change (String.compare ("-" +:+ c) ("-" +:+ c')) with (String.compare c c').
  rewrite <- (append_nil_r c), <- (append_nil_r c').
  rewrite (compare_digits c c' _ _ 0 d d') by (done || congruence).
  by destruct (d ?= d').
Qed.

Lemma parseDay_sle s s' D D' :
  parseDay s = Some D -> parseDay s' = Some D' -> sle s s' <-> D <= D'.
Proof.
  intros H H'. rewrite sle_compare, (parseDay_compare s s' D D' H H').
  apply Z.compare_le_iff.
Qed.

End IsoOrder.

(** ** Host collations *)

Section HostFacts.
Context {A : Type}.
Implicit Types (cmp : A -> A -> comparison) (l : list A).

Lemma place_ext_in cmp cmp' x l :
  (forall y, y ∈ l -> cmp x y = cmp' x y) ->
  JSArray.place cmp x l = JSArray.place cmp' x l.
Proof.
  induction l as [|y l IH]; intros H; [done|]. simpl.
  rewrite (H y) by left. rewrite IH; [done|]. intros z Hz. apply H. by right.
Qed.

Lemma elem_of_place cmp x y l : y ∈ JSArray.place cmp x l <-> y = x \/ y ∈ l.
Proof.
  induction l as [|z l IH]; simpl.
  - rewrite list_elem_of_singleton, elem_of_nil. tauto.
  - destruct (cmp x z); rewrite ?elem_of_cons, ?IH, ?elem_of_cons; tauto.
Qed.

Lemma elem_of_sorted cmp y l : y ∈ JSArray.sorted cmp l <-> y ∈ l.
Proof.
  induction l as [|x l IH]; [done|]. simpl.
  by rewrite elem_of_place, IH, elem_of_cons.
Qed.

(** Two comparators that agree on the elements of a list sort it alike. *)
Lemma sorted_ext_in cmp cmp' l :
  (forall x y, x ∈ l -> y ∈ l -> cmp x y = cmp' x y) ->
  JSArray.sorted cmp l = JSArray.sorted cmp' l.
Proof.
  induction l as [|x l IH]; intros H; [done|]. simpl.
  rewrite IH by (intros y z Hy Hz; apply H; by right).
  apply place_ext_in. intros y Hy. apply H; [by left|].
  right. by apply (elem_of_sorted cmp').
Qed.

End HostFacts.

Section AlphaCompare.



Lemma code_units_collate p : CollatesShape p JSString.localeCompare.
Proof. by intros a b _ _. Qed.


End AlphaCompare.

(** ** Nearest next step *)

Section Nearest.
Implicit Types (n m x : NextStep.t) (l : list NextStep.t).



















End Nearest.

(** ** Due dates in order of time *)

Section DueDateChronology.
Implicit Types (st : State) (a b : Task.t).

(** Sorted by due date, the tasks whose due dates are dates come in the
    order of their days. *)
Lemma filtered_dueDate_chronological st i j a b sa sb Da Db :
  sortKey st = SortDueDate ->
  filtered st !! i = Some a -> filtered st !! j = Some b -> (i < j)%nat ->
  Task.dueDate a = Some sa -> Task.dueDate b = Some sb ->
  JSDate.parseDay sa = Some Da -> JSDate.parseDay sb = Some Db ->
  Da <= Db.
Proof.
  intros Hk Hi Hj Hlt Ha Hb HDa HDb.
  destruct (filtered_dueDate st Hk) as (_ & Hsorted & _).
  pose proof (StronglySorted_lookup _ _ Hsorted i j a b Hi Hj Hlt) as Hle.
  unfold keyLe, dueKey, JSString.or_else in Hle. rewrite Ha, Hb in Hle.
  assert (JSString.nonempty sa = true) as Hna.
  { destruct sa; [by apply parseDay_length in HDa|done]. }
  assert (JSString.nonempty sb = true) as Hnb.
  { destruct sb; [by apply parseDay_length in HDb|done]. }
  rewrite Hna, Hnb in Hle. by apply (parseDay_sle sa sb Da Db HDa HDb).
Qed.

End DueDateChronology.

(** ** The calendar grid and the tasks of a day *)

Section CalendarFacts.
Import JSDate.
Variable env : Env.
Implicit Types (c d i : Z) (l : list Task.t).

Lemma LocalTime_ofYMD y m dt :
  LocalTime env (UTC env (MakeDate (MakeDay y m dt) 0)) = MakeDate (MakeDay y m dt) 0.
Proof. unfold LocalTime, UTC. lia. Qed.

(** [startOfMonth] is local midnight of day 1 of the month and year of
    its argument (years 0 to 99 apart, which the constructor moves to the
    twentieth century). *)
Lemma startOfMonth_first c :
  ~ (0 <= getFullYear env c <= 99) ->
  getFullYear env (startOfMonth env c) = getFullYear env c /\
  getMonth env (startOfMonth env c) = getMonth env c /\
  getDate env (startOfMonth env c) = 1 /\
  localMidnight env (startOfMonth env c).
Proof.
  intros Hy. unfold startOfMonth, ofYMD.
  pose proof (MonthFromTime_range (LocalTime env c)) as Hm. fold (getMonth env c) in Hm.
  set (y := getFullYear env c) in *. set (m := getMonth env c) in *.
  replace ((0 <=? y) && (y <=? 99)) with false.
  2: { symmetry. apply andb_false_iff. rewrite Z.leb_gt, Z.leb_gt. lia. }
  unfold localMidnight, getFullYear, getMonth, getDate.
  rewrite LocalTime_ofYMD.
  apply (first_of_month_fields y m Hm).
Qed.

Lemma localDay_addDays d i : localDay env (addDays env d i) = localDay env d + i.
Proof.
  rewrite addDays_add. unfold localDay, LocalTime, Day, msPerDay.
  Z.div_mod_to_equations. lia.
Qed.

Lemma localMidnight_addDays d i : localMidnight env d -> localMidnight env (addDays env d i).
Proof.
  rewrite addDays_add. unfold localMidnight, LocalTime, TimeWithinDay, msPerDay.
  intros H. Z.div_mod_to_equations. lia.
Qed.

Lemma getDay_localDay d : getDay env d = (localDay env d + 4) mod 7.
Proof. reflexivity. Qed.

(** [startOfWeek d 0] is the same time of day on the Sunday on or before
    the day of [d]. *)
Lemma startOfWeek_sunday d :
  let s := startOfWeek env d 0 in
  getDay env s = 0 /\
  localDay env s <= localDay env d < localDay env s + 7 /\
  s = addDays env d (- getDay env d) /\
  (localMidnight env d -> localMidnight env s).
Proof.
  assert (0 <= getDay env d < 7) as Hw by (apply Z.mod_pos_bound; lia).
  assert (startOfWeek env d 0 = addDays env d (- getDay env d)) as Hs.
  { assert (Z.rem (getDay env d + 7 - 0) 7 = getDay env d) as Hdiff.
    { rewrite Z.rem_mod_nonneg by lia.
      revert Hw. generalize (getDay env d). intros w Hw.
      Z.div_mod_to_equations. lia. }
    unfold startOfWeek. cbv zeta. rewrite Hdiff. reflexivity. }
  cbv zeta. rewrite Hs. split; [|split; [|split]].
  - rewrite getDay_localDay, localDay_addDays, getDay_localDay.
    Z.div_mod_to_equations. lia.
  - rewrite localDay_addDays. lia.
  - reflexivity.
  - apply localMidnight_addDays.
Qed.

(** The month grid: 42 cells; cell [i] is [i] days after the first cell;
    the first cell is a Sunday, on or at most six days before the first
    of the month; with the cursor's year outside 0 to 99 every cell is a
    local midnight. *)
Lemma calendarMatrix_grid c :
  let first := startOfMonth env c in
  let grid := calendarMatrix env c in
  length grid = 42%nat /\
  (exists g, grid !! 0%nat = Some g /\ getDay env g = 0 /\
             localDay env g <= localDay env first < localDay env g + 7 /\
             forall k : nat, (k < 42)%nat ->
               exists cell, grid !! k = Some cell /\
                 cell = addDays env g (Z.of_nat k) /\
                 localDay env cell = localDay env g + Z.of_nat k /\
                 (localMidnight env first -> localMidnight env cell)).
Proof.
  cbv zeta. unfold calendarMatrix.
  set (first := startOfMonth env c). set (g := startOfWeek env first 0).
  destruct (startOfWeek_sunday first) as (Hsun & Hrange & _ & Hmid). fold g in Hsun, Hrange, Hmid.
  split; [by rewrite length_map, length_seqZ|].
  exists g. split.
  { rewrite list_lookup_fmap, lookup_seqZ_lt by lia. simpl.
    rewrite addDays_add. f_equal. lia. }
  split; [done|]. split; [done|].
  intros k Hk. exists (addDays env g (Z.of_nat k)).
  split.
  - rewrite list_lookup_fmap, lookup_seqZ_lt by lia. simpl. by rewrite Z.add_0_l.
  - split; [done|]. split; [apply localDay_addDays|].
    intros Hf. by apply localMidnight_addDays, Hmid.
Qed.

Lemma tasksOn_dueOn l d : tasksOn l d = dueOn (isoDate (Day d)) l.
Proof. unfold tasksOn, dueOn. by rewrite toISOString_isoDate. Qed.

(** West of Greenwich (and in UTC) a cell of the grid is mapped to the
    tasks due on the cell's own date. *)
Lemma tasksOn_west l cell :
  - msPerDay < LocalTZA env <= 0 -> localMidnight env cell ->
  tasksOn l cell = dueOn (isoDate (localDay env cell)) l.
Proof.
  intros Htz Hmid. rewrite tasksOn_dueOn. f_equal. f_equal.
  unfold localMidnight, localDay, LocalTime, TimeWithinDay, Day, msPerDay in *.
  Z.div_mod_to_equations. lia.
Qed.

(** East of Greenwich it is mapped to the tasks due the day before. *)
Lemma tasksOn_east l cell :
  0 < LocalTZA env <= msPerDay -> localMidnight env cell ->
  tasksOn l cell = dueOn (isoDate (localDay env cell - 1)) l.
Proof.
  intros Htz Hmid. rewrite tasksOn_dueOn. f_equal. f_equal.
  unfold localMidnight, localDay, LocalTime, TimeWithinDay, Day, msPerDay in *.
  Z.div_mod_to_equations. lia.
Qed.

End CalendarFacts.

(** ** Due within days *)

Section DueSoon.
Import JSDate.
Variable env : Env.
Implicit Types (s : string) (days D t : Z).

Lemma parse_date_only s D : parseDay s = Some D -> parse env s = Some (MakeDate D 0).
Proof.
  intros H. unfold parse. rewrite (parseDay_length s D H). simpl. by rewrite H.
Qed.

Lemma isDueWithinDays_undefined days : isDueWithinDays env None days = false.
Proof. reflexivity. Qed.

(** What the two comparisons of [isDueWithinDays] compare: the parsed
    instant against local midnight of today and against this very time of
    day [days] days from now. *)
Lemma isDueWithinDays_spec (o : option string) days :
  isDueWithinDays env o days = true <->
  exists s t, o = Some s /\ s <> "" /\ parse env s = Some t /\
    UTC env (MakeDate (Day (LocalTime env (now env))) 0) <= t <=
    now env + days * msPerDay.
Proof.
  unfold isDueWithinDays. rewrite setDate_getDate, ofDateString_toDateString.
  destruct o as [s|]; simpl.
  2: { split; [done|]. by intros (s & t & ? & _). }
  unfold JSString.nonempty. destruct (String.eqb_spec s "") as [->|Hne]; simpl.
  { split; [done|]. intros (s & t & [= <-] & ? & _). done. }
  destruct (parse env s) as [t|] eqn:Hp; simpl.
  - rewrite andb_true_iff, !Z.leb_le. split.
    + intros [H1 H2]. by exists s, t.
    + intros (s' & t' & [= <-] & _ & Ht & H). rewrite Hp in Ht. injection Ht as <-. lia.
  - split; [done|]. intros (s' & t' & [= <-] & _ & Ht & _). congruence.
Qed.

(** In UTC the test is the one on calendar dates: the due date is today
    or one of the next [days] days. *)
Lemma isDueWithinDays_utc s D days :
  LocalTZA env = 0 -> parseDay s = Some D ->
  isDueWithinDays env (Some s) days = true <->
  Day (now env) <= D <= Day (now env) + days.
Proof.
  intros Htz HD. rewrite isDueWithinDays_spec. split.
  - intros (s' & t & [= <-] & _ & Ht & H).
    rewrite (parse_date_only s D HD) in Ht. injection Ht as <-.
    unfold UTC, LocalTime, MakeDate, Day, msPerDay in *. rewrite Htz in H.
    Z.div_mod_to_equations. lia.
  - intros H. exists s, (MakeDate D 0). split; [done|]. split.
    { intros ->. by apply parseDay_length in HD. }
    split; [by apply parse_date_only|].
    unfold UTC, LocalTime, MakeDate, Day, msPerDay in *. rewrite Htz.
    Z.div_mod_to_equations. lia.
Qed.

(** West of Greenwich a task due today is never reported as due. *)
Lemma isDueWithinDays_west_today s days :
  - msPerDay < LocalTZA env < 0 ->
  parseDay s = Some (Day (LocalTime env (now env))) ->
  isDueWithinDays env (Some s) days = false.
Proof.
  intros Htz HD. apply not_true_is_false. rewrite isDueWithinDays_spec.
  intros (s' & t & [= <-] & _ & Ht & H).
  rewrite (parse_date_only s _ HD) in Ht. injection Ht as <-.
  unfold UTC, LocalTime, MakeDate, Day, msPerDay in *.
  Z.div_mod_to_equations. lia.
Qed.

End DueSoon.

(** ** Worked inputs for the date-dependent views *)

Section WorkedDates.
Import JSDate.

(** C1, at an input where the code departs from it: at noon on 10 June
    2024 in New York, a due date of 10 June 2024 is today, inside
    [[today, today + 3]], and [isDueWithinDays] answers false.  The due
    date is read as midnight UTC, which in local time is the evening of
    the day before, and that is compared with local midnight of today. *)
Theorem isDueWithinDays_due_today_west_of_utc :
  parseDay "2024-06-10" = Some (Day (LocalTime newYorkNoon (now newYorkNoon))) /\
  toDateString newYorkNoon (now newYorkNoon) = mkDateString 1 5 10 2024 /\
  isDueWithinDays newYorkNoon (Some "2024-06-10") 3 = false.
Proof. by vm_compute. Qed.

(** C5, at an input where the code departs from it: in Berlin the cell
    of the June 2024 grid that shows the 10th is not given the task due
    on 10 June 2024; the cell that shows the 11th is.  The cell is local
    midnight; its ISO string is in UTC, where it is still the 9th. *)
Theorem tasksOn_day_before_east_of_utc :
  let grid := calendarMatrix berlinNoon (now berlinNoon) in
  exists cell next,
    grid !! 15%nat = Some cell /\ grid !! 16%nat = Some next /\
    toDateString berlinNoon cell = mkDateString 1 5 10 2024 /\
    toDateString berlinNoon next = mkDateString 2 5 11 2024 /\
    JSString.slice0 10 (toISOString cell) = "2024-06-09" /\
    tasksOn [dueJune10] cell = [] /\
    tasksOn [dueJune10] next = [dueJune10].
Proof.
  exists 1717970400000, 1718056800000. vm_compute. repeat split; reflexivity.
Qed.

End WorkedDates.

(** ** JSON text *)

Section JSONFacts.
Import JSON.
Local Open Scope nat_scope.
Implicit Types (s r rest : string) (v : value) (k fuel : nat).

Lemma skipWs_spaces n s : skipWs (spaces n +:+ s) = skipWs s.
Proof. induction n as [|n IH]; [done|]. exact IH. Qed.

Lemma skipWs_newline k s : skipWs (newline k +:+ s) = skipWs s.
Proof. apply (skipWs_spaces (2 * k)). Qed.

Lemma stringBody_escapeUnit c r :
  stringBody (escapeUnit c +:+ r) = consUnit c (stringBody r).
Proof.
  destruct c as [[] [] [] [] [] [] [] []]; reflexivity.
Qed.

Lemma stringBody_escape s rest :
  stringBody (escape s +:+ String dquote rest) = Some (s, rest).
Proof.
  induction s as [|c s IH]; [done|].
  cbn [escape]. rewrite append_assoc, stringBody_escapeUnit, IH. done.
Qed.

Lemma stringBody_quote s rest :
  stringBody ((escape s +:+ String dquote "") +:+ rest) = Some (s, rest).
Proof. rewrite append_assoc. apply stringBody_escape. Qed.

(** *** Sizes and well-formedness *)

Lemma value_rect' (P : value -> Prop) :
  P Null -> (forall b, P (Bool b)) -> (forall s, P (Str s)) ->
  (forall xs, Forall P xs -> P (Arr xs)) ->
  (forall ms, Forall (fun m => P (snd m)) ms -> P (Obj ms)) ->
  forall v, P v.
Proof.
  intros HN HB HS HA HO. fix IH 1. intros [|b|s|xs|ms].
  - exact HN.
  - apply HB.
  - apply HS.
  - apply HA. induction xs as [|x xs IHxs]; constructor; [apply IH|exact IHxs].
  - apply HO. induction ms as [|[key x] ms IHms]; constructor; [apply IH|exact IHms].
Qed.


(** *** The parser on printed text *)

Lemma parseValue_skip fuel s s' :
  skipWs s = skipWs s' -> parseValue fuel s = parseValue fuel s'.
Proof. intros H. destruct fuel; [done|]. simpl. by rewrite H. Qed.

Lemma parseValue_Arr fuel r :
  parseValue (S fuel) (String "[" r) =
  match startsWith "]" (skipWs r) with
  | Some r' => Some (Arr [], r')
  | None =>
      match parseElements fuel r with
      | Some (vs, r') => Some (Arr vs, r')
      | None => None
      end
  end.
Proof. reflexivity. Qed.

Lemma parseValue_Obj fuel r :
  parseValue (S fuel) (String "{" r) =
  match startsWith "}" (skipWs r) with
  | Some r' => Some (Obj [], r')
  | None =>
      match parseMembers fuel r with
      | Some (ms, r') => Some (object ms, r')
      | None => None
      end
  end.
Proof. reflexivity. Qed.

Lemma parseValue_Str fuel r :
  parseValue (S fuel) (String dquote r) =
  match stringBody r with
  | Some (str, r') => Some (Str str, r')
  | None => None
  end.
Proof. reflexivity. Qed.

Lemma parseElements_step fuel s :
  parseElements (S fuel) s =
  match parseValue fuel s with
  | Some (v, r) =>
      match startsWith "," (skipWs r), startsWith "]" (skipWs r) with
      | Some r', _ =>
          match parseElements fuel r' with
          | Some (vs, r'') => Some (v :: vs, r'')
          | None => None
          end
      | None, Some r' => Some ([v], r')
      | None, None => None
      end
  | None => None
  end.
Proof. reflexivity. Qed.

Lemma parseMembers_step fuel s :
  parseMembers (S fuel) s =
  match startsWith dquote (skipWs s) with
  | Some r =>
      match stringBody r with
      | Some (key, r1) =>
          match startsWith ":" (skipWs r1) with
          | Some r2 =>
              match parseValue fuel r2 with
              | Some (v, r3) =>
                  match startsWith "," (skipWs r3), startsWith "}" (skipWs r3) with
                  | Some r4, _ =>
                      match parseMembers fuel r4 with
                      | Some (ms, r5) => Some ((key, v) :: ms, r5)
                      | None => None
                      end
                  | None, Some r4 => Some ([(key, v)], r4)
                  | None, None => None
                  end
              | None => None
              end
          | None => None
          end
      | None => None
      end
  | None => None
  end.
Proof. reflexivity. Qed.

Lemma wrap_cons opn close k i items rest :
  wrap opn close k (i :: items) +:+ rest =
  opn +:+ newline (S k) +:+ i +:+ itemsTail close k items rest.
Proof.
  unfold wrap, itemsTail. rewrite !append_assoc. do 3 f_equal.
  induction items as [|j items IH]; simpl.
  - by rewrite !append_assoc.
  - rewrite !append_assoc. by rewrite IH.
Qed.

Lemma stringify_start k v rest : valueStart (stringify k v +:+ rest).
Proof.
  destruct v as [|[]|s|[|x xs]|[|m ms]]; by repeat split.
Qed.


Lemma skipWs_nonws c s : isWs c = false -> skipWs (String c s) = String c s.
Proof. intros H. simpl. by rewrite H. Qed.

Lemma startsWith_cons c s : startsWith c (String c s) = Some s.
Proof. unfold startsWith. by rewrite Ascii.eqb_refl. Qed.

Lemma object_distinct (ms : list (string * value)) :
  NoDup (map fst ms) -> object ms = Obj ms.
Proof.
  intros Hnd. unfold object. f_equal.
  enough (forall acc, NoDup (map fst (acc ++ ms)) ->
            fold_left (fun a m => setMember (fst m) (snd m) a) ms acc = acc ++ ms) as H.
  { by apply (H []). }
  clear Hnd. induction ms as [|[key x] ms IH]; intros acc Hnd; simpl.
  - by rewrite app_nil_r.
  - assert (existsb (fun m => String.eqb (fst m) key) acc = false) as Hex.
    { apply not_true_is_false. rewrite existsb_exists. intros ([key' x'] & Hin & Heq).
      apply String.eqb_eq in Heq. simpl in Heq. subst key'.
      rewrite map_app in Hnd. apply NoDup_app in Hnd as (_ & Hdisj & _).
      apply (Hdisj key).
      - apply list_elem_of_In. apply (in_map fst) in Hin. exact Hin.
      - simpl. left. }
    unfold setMember at 2. rewrite Hex.
    rewrite IH; [by rewrite <- app_assoc|]. by rewrite <- app_assoc.
Qed.

(** The items of an array after its opening bracket. *)
Lemma parseElements_printed k (xs : list value) :
  Forall (fun x => forall fuel rest, weight x <= fuel ->
            parseValue fuel (stringify (S k) x +:+ rest) = Some (x, rest)) xs ->
  forall x fuel rest,
    (forall fuel rest, weight x <= fuel ->
       parseValue fuel (stringify (S k) x +:+ rest) = Some (x, rest)) ->
    list_sum (map (fun x => S (weight x)) (x :: xs)) <= fuel ->
    parseElements fuel
      (newline (S k) +:+ stringify (S k) x +:+
       itemsTail "]" k (map (stringify (S k)) xs) rest) = Some (x :: xs, rest).
Proof.
  induction 1 as [|y ys Hy Hys IH]; intros x fuel rest Hx Hfuel.
  - destruct fuel as [|fuel]; [simpl in Hfuel; lia|].
    rewrite parseElements_step.
    rewrite (parseValue_skip fuel _ (stringify (S k) x +:+ itemsTail "]" k [] rest))
      by apply skipWs_newline.
    rewrite Hx by (simpl in Hfuel; lia).
    unfold itemsTail. simpl fold_right. rewrite skipWs_newline. reflexivity.
  - destruct fuel as [|fuel]; [simpl in Hfuel; lia|].
    rewrite parseElements_step.
    rewrite (parseValue_skip fuel _
               (stringify (S k) x +:+ itemsTail "]" k (map (stringify (S k)) (y :: ys)) rest))
      by apply skipWs_newline.
    rewrite Hx by (simpl in Hfuel; lia).
    unfold itemsTail. simpl map. simpl fold_right. fold (itemsTail "]" k (map (stringify (S k)) ys) rest).
    rewrite append_cons, append_nil_l, skipWs_nonws by done.
    rewrite startsWith_cons.
    rewrite IH; [done|done|]. simpl in *. lia.
Qed.


(** The members of an object after its opening brace. *)
Lemma parseMembers_printed k (ms : list (string * value)) :
  Forall (fun m => forall fuel rest, weight (snd m) <= fuel ->
            parseValue fuel (stringify (S k) (snd m) +:+ rest) = Some (snd m, rest)) ms ->
  forall m fuel rest,
    (forall fuel rest, weight (snd m) <= fuel ->
       parseValue fuel (stringify (S k) (snd m) +:+ rest) = Some (snd m, rest)) ->
    list_sum (map (fun m => S (weight (snd m))) (m :: ms)) <= fuel ->
    parseMembers fuel
      (newline (S k) +:+ memberText k m +:+
       itemsTail "}" k (map (memberText k) ms) rest) = Some (m :: ms, rest).
Proof.
  assert (forall m fuel tail,
    (forall fuel rest, weight (snd m) <= fuel ->
       parseValue fuel (stringify (S k) (snd m) +:+ rest) = Some (snd m, rest)) ->
    weight (snd m) <= fuel ->
    parseMembers (S fuel) (newline (S k) +:+ memberText k m +:+ tail) =
    match startsWith "," (skipWs tail), startsWith "}" (skipWs tail) with
    | Some r4, _ =>
        match parseMembers fuel r4 with
        | Some (ms, r5) => Some (m :: ms, r5)
        | None => None
        end
    | None, Some r4 => Some ([m], r4)
    | None, None => None
    end) as Hstep.
  { intros [key x] fuel tail Hx Hfuel. simpl in Hx, Hfuel.
    rewrite parseMembers_step, skipWs_newline.
    unfold memberText, quote. simpl fst. simpl snd.
    rewrite !append_cons, skipWs_nonws by done. rewrite startsWith_cons.
    rewrite !append_assoc, !append_cons, !append_nil_l, stringBody_escape.
    rewrite skipWs_nonws by done.
    rewrite startsWith_cons.
    rewrite (parseValue_skip fuel _ (stringify (S k) x +:+ tail)) by done.
    by rewrite Hx. }
  induction 1 as [|y ys Hy Hys IH]; intros m fuel rest Hm Hfuel.
  - destruct fuel as [|fuel]; [simpl in Hfuel; lia|].
    rewrite Hstep; [|done|simpl in Hfuel; lia].
    unfold itemsTail. simpl fold_right. rewrite skipWs_newline. reflexivity.
  - destruct fuel as [|fuel]; [simpl in Hfuel; lia|].
    rewrite Hstep; [|done|simpl in Hfuel; lia].
    unfold itemsTail. simpl map. simpl fold_right.
    fold (itemsTail "}" k (map (memberText k) ys) rest).
    rewrite append_cons, append_nil_l, skipWs_nonws by done.
    rewrite startsWith_cons.
    rewrite IH; [done|done|]. simpl in *. lia.
Qed.

Lemma distinctNames_Arr xs :
  distinctNames (Arr xs) <-> Forall distinctNames xs.
Proof.
  simpl. induction xs as [|x xs IH]; [done|]. simpl.
  rewrite Forall_cons. by rewrite IH.
Qed.

Lemma distinctNames_Obj ms :
  distinctNames (Obj ms) <->
  NoDup (map fst ms) /\ Forall (fun m => distinctNames (snd m)) ms.
Proof.
  simpl. apply and_iff_compat_l.
  induction ms as [|m ms IH]; [done|]. simpl.
  rewrite Forall_cons. by rewrite IH.
Qed.

(** Parsing a printed value gives the value back and stops where the
    print ends, whatever the indentation and with any fuel from the
    value's weight up. *)
Lemma parseValue_printed v :
  distinctNames v ->
  forall k fuel rest, weight v <= fuel ->
    parseValue fuel (stringify k v +:+ rest) = Some (v, rest).
Proof.
  induction v as [|b|s|xs IH|ms IH] using value_rect'; intros Hd k fuel rest Hfuel;
    (destruct fuel as [|fuel]; [simpl in Hfuel; lia|]).
  - reflexivity.
  - by destruct b.
  - simpl stringify. unfold quote. rewrite append_cons, parseValue_Str.
    by rewrite stringBody_quote.
  - apply distinctNames_Arr in Hd.
    destruct xs as [|x xs]; [reflexivity|].
    apply Forall_cons in IH as [IHx IHxs]. apply Forall_cons in Hd as [Hdx Hdxs].
    change (stringify k (Arr (x :: xs)))
      with (wrap "[" "]" k (stringify (S k) x :: map (stringify (S k)) xs)).
    rewrite wrap_cons, append_cons, append_nil_l, parseValue_Arr.
    rewrite skipWs_newline.
    destruct (stringify_start (S k) x (itemsTail "]" k (map (stringify (S k)) xs) rest))
      as (-> & -> & _).
    rewrite (parseElements_printed k xs); [done| |by auto|cbn [weight] in Hfuel; lia].
    rewrite Forall_forall in *. intros y Hy. by auto.
  - apply distinctNames_Obj in Hd as [Hnd Hd].
    destruct ms as [|m ms]; [reflexivity|].
    rewrite <- (object_distinct (m :: ms) Hnd) at 2.
    apply Forall_cons in IH as [IHx IHxs]. apply Forall_cons in Hd as [Hdx Hdxs].
    change (stringify k (Obj (m :: ms)))
      with (wrap "{" "}" k (memberText k m :: map (memberText k) ms)).
    rewrite wrap_cons, append_cons, append_nil_l, parseValue_Obj.
    rewrite skipWs_newline.
    assert (startsWith "}" (skipWs (memberText k m +:+
              itemsTail "}" k (map (memberText k) ms) rest)) = None) as ->.
    { unfold memberText, quote. by rewrite !append_cons, skipWs_nonws. }
    rewrite (parseMembers_printed k ms); [done| |by auto|cbn [weight] in Hfuel; lia].
    rewrite Forall_forall in *. intros y Hy. by auto.
Qed.


Lemma length_newline k : 1 <= String.length (newline k).
Proof. unfold newline. simpl. lia. Qed.

Lemma length_itemsTail close k items rest :
  list_sum (map (fun i => S (String.length i)) items) <=
  String.length (itemsTail close k items rest).
Proof.
  unfold itemsTail. induction items as [|i items IH]; simpl; [lia|].
  rewrite !length_append. simpl. lia.
Qed.

Lemma length_wrap opn close k items :
  1 <= String.length opn ->
  S (list_sum (map (fun i => S (String.length i)) items)) <=
  String.length (wrap opn close k items).
Proof.
  intros Hopn. destruct items as [|i items].
  - unfold wrap. rewrite length_append. simpl. lia.
  - rewrite <- (append_nil_r (wrap opn close k (i :: items))), wrap_cons.
    rewrite !length_append.
    pose proof (length_itemsTail close k items "") as H.
    pose proof (length_newline (S k)). simpl. lia.
Qed.

Lemma list_sum_le {A} (f g : A -> nat) (l : list A) :
  Forall (fun x => f x <= g x) l -> list_sum (map f l) <= list_sum (map g l).
Proof. induction 1; simpl; lia. Qed.

(** A printed value has at least as many characters as the parser needs
    fuel. *)
Lemma weight_le_length v : forall k, weight v <= String.length (stringify k v).
Proof.
  induction v as [|b|s|xs IH|ms IH] using value_rect'; intros k.
  - simpl. lia.
  - destruct b; simpl; lia.
  - simpl. lia.
  - change (stringify k (Arr xs)) with (wrap "[" "]" k (map (stringify (S k)) xs)).
    etransitivity; [|apply length_wrap; simpl; lia].
    cbn [weight]. rewrite map_map. apply le_n_S, list_sum_le.
    eapply Forall_impl; [exact IH|]. intros x Hx. simpl. apply le_n_S, Hx.
  - change (stringify k (Obj ms)) with (wrap "{" "}" k (map (memberText k) ms)).
    etransitivity; [|apply length_wrap; simpl; lia].
    cbn [weight]. rewrite map_map. apply le_n_S, list_sum_le.
    eapply Forall_impl; [exact IH|]. intros m Hm. simpl.
    unfold memberText. rewrite !length_append. specialize (Hm (S k)). lia.
Qed.

(** [JSON.parse] undoes [JSON.stringify]. *)
Lemma parse_stringify v : distinctNames v -> parse (stringify 0 v) = Some v.
Proof.
  intros Hd. unfold parse.
  rewrite <- (append_nil_r (stringify 0 v)) at 2.
  rewrite (parseValue_printed v Hd); [done|]. apply weight_le_length.
Qed.

End JSONFacts.

(** ** Export then import *)

Section RoundTrip.
Import JSON.

Lemma Category_of_name_name c : Category_of_name (Category_name c) = Some c.
Proof. by destruct c. Qed.

Lemma Status_of_name_name s : Status_of_name (Status_name s) = Some s.
Proof. by destruct s. Qed.

Lemma NextStep_of_value_value n : NextStep_of_value (NextStep_value n) = Some n.
Proof. by destruct n as [i tx [d|] [b|]]. Qed.

Lemma Task_of_value_value t : Task_of_value (Task_value t) = Some t.
Proof.
  pose proof (mapM_fmap_Some NextStep_of_value NextStep_value (Task.nextSteps t)
                NextStep_of_value_value) as Hns.
  destruct t as [i ti [de|] c st [du|] cr ns]; simpl in Hns;
    unfold Task_of_value, Task_value; cbn -[mapM Category_of_name Status_of_name];
    rewrite Category_of_name_name; cbn -[mapM Status_of_name];
    rewrite Status_of_name_name; cbn -[mapM];
    change (mapM NextStep_of_value (map NextStep_value ns)) with
           (mapM NextStep_of_value (NextStep_value <$> ns));
    by rewrite Hns.
Qed.

Lemma distinctNames_NextStep n : distinctNames (NextStep_value n).
Proof.
  destruct n as [i tx [d|] [b|]]; (split; [compute_done|by repeat split]).
Qed.

Lemma distinctNames_Task t : distinctNames (Task_value t).
Proof.
  assert (distinctNames (Arr (map NextStep_value (Task.nextSteps t)))) as Hns.
  { apply distinctNames_Arr. apply Forall_forall. intros v Hv.
    apply list_elem_of_In, in_map_iff in Hv as (n & <- & _).
    apply distinctNames_NextStep. }
  destruct t as [i ti [de|] c st [du|] cr ns]; simpl in Hns;
    (split; [compute_done|by repeat split]).
Qed.

Lemma distinctNames_export st : distinctNames (Arr (map Task_value (tasks st))).
Proof.
  apply distinctNames_Arr. apply Forall_forall. intros v Hv.
  apply list_elem_of_In, in_map_iff in Hv as (t & <- & _).
  apply distinctNames_Task.
Qed.

(** C9: importing the text that export writes replaces the task list by
    the list that was exported, task for task and field for field. *)
Theorem import_export_round_trip (st st' : State) :
  importJSON (exportJSON st) st' = Replaced (setTasks (fun _ => tasks st) st') /\
  tasks (setTasks (fun _ => tasks st) st') = tasks st.
Proof.
  split; [|done]. unfold importJSON, exportJSON.
  rewrite (parse_stringify _ (distinctNames_export st)).
  change (map Task_value (tasks st)) with (Task_value <$> tasks st).
  by rewrite (mapM_fmap_Some Task_of_value Task_value (tasks st) Task_of_value_value).
Qed.

End RoundTrip.

(** ** Worked inputs *)

Section Scenarios.

Example nearest_later_then_earlier :
  nearestNextStep (withSteps [stepA; stepB]) = Some stepB /\
  cardNextStep (withSteps [stepA; stepB]) = Some stepB.
Proof. by split. Qed.

Example nearest_dated_beats_undated :
  nearestNextStep (withSteps [stepA'; stepB]) = Some stepB /\
  cardNextStep (withSteps [stepA'; stepB]) = Some stepB.
Proof. by split. Qed.

Example nearest_all_undated :
  nearestNextStep (withSteps [stepA'; stepB']) = Some stepA' /\
  cardNextStep (withSteps [stepA'; stepB']) = Some stepA'.
Proof. by split. Qed.

Example nearest_tie_keeps_first :
  nearestNextStep (withSteps [stepB; NextStep.mk "n5" "C" (Some "2024-06-01") None])
    = Some stepB.
Proof. reflexivity. Qed.



(** The hypotheses of the toggle theorem hold of the first task of a
    store of two, and the theorem gives the store after the toggle. *)
Lemma onToggleComplete_witness :
  tasks (onToggleComplete (withSteps [stepA; stepB]) twoTasks) =
  [Task.with_status Completed (withSteps [stepA; stepB]); undatedTask].
Proof.
  refine (proj1 (onToggleComplete_flips_status_only twoTasks 0
                   (withSteps [stepA; stepB]) eq_refl _)).
  apply NoDup_cons. split.
  - intros H. apply list_elem_of_In in H. simpl in H. destruct H as [H|[]]. discriminate H.
  - apply NoDup_cons. split; [|apply NoDup_nil_2].
    intros H. apply list_elem_of_In in H. destruct H.
Defined.

Example toggle_twice_active :
  Task.status (toggled (withSteps [])) = Completed /\
  Task.status (toggled (toggled (withSteps []))) = Active.
Proof. by split. Qed.

Example export_one_task :
  exportJSON twoTasks =
  String.concat (String JSON.lf "")
    [ "[";
      "  {";
      "    " +:+ JSON.quote "id" +:+ ": " +:+ JSON.quote "t4" +:+ ",";
      "    " +:+ JSON.quote "title" +:+ ": " +:+ JSON.quote "Plan" +:+ ",";
      "    " +:+ JSON.quote "category" +:+ ": " +:+ JSON.quote "Family" +:+ ",";
      "    " +:+ JSON.quote "status" +:+ ": " +:+ JSON.quote "Active" +:+ ",";
      "    " +:+ JSON.quote "createdAt" +:+ ": " +:+ JSON.quote "2024-06-01T09:00:00.000Z" +:+ ",";
      "    " +:+ JSON.quote "nextSteps" +:+ ": [";
      "      {";
      "        " +:+ JSON.quote "id" +:+ ": " +:+ JSON.quote "n1" +:+ ",";
      "        " +:+ JSON.quote "text" +:+ ": " +:+ JSON.quote "A" +:+ ",";
      "        " +:+ JSON.quote "dueDate" +:+ ": " +:+ JSON.quote "2024-06-10";
      "      },";
      "      {";
      "        " +:+ JSON.quote "id" +:+ ": " +:+ JSON.quote "n2" +:+ ",";
      "        " +:+ JSON.quote "text" +:+ ": " +:+ JSON.quote "B" +:+ ",";
      "        " +:+ JSON.quote "dueDate" +:+ ": " +:+ JSON.quote "2024-06-01";
      "      }";
      "    ]";
      "  },";
      "  {";
      "    " +:+ JSON.quote "id" +:+ ": " +:+ JSON.quote "t2" +:+ ",";
      "    " +:+ JSON.quote "title" +:+ ": " +:+ JSON.quote "Someday" +:+ ",";
      "    " +:+ JSON.quote "category" +:+ ": " +:+ JSON.quote "Business" +:+ ",";
      "    " +:+ JSON.quote "status" +:+ ": " +:+ JSON.quote "Active" +:+ ",";
      "    " +:+ JSON.quote "createdAt" +:+ ": " +:+ JSON.quote "2024-06-02T09:00:00.000Z" +:+ ",";
      "    " +:+ JSON.quote "nextSteps" +:+ ": []";
      "  }";
      "]" ].
Proof. reflexivity. Qed.

End Scenarios.
(** * The rest of the component *)

(** ** Removing tasks *)

Section Removal.
Implicit Types (t p : Task.t) (l : list Task.t) (st : State) (id : string).

Lemma tasks_removeTask id st :
  tasks (removeTask id st) =
  List.filter (fun p => negb (String.eqb (Task.id p) id)) (tasks st).
Proof. reflexivity. Qed.

Lemma elem_of_List_filter {A} (p : A -> bool) (x : A) (l : list A) :
  x ∈ List.filter p l <-> x ∈ l /\ p x = true.
Proof. rewrite !list_elem_of_In. apply filter_In. Qed.

Lemma List_filter_sublist {A} (p : A -> bool) (l : list A) : sublist (List.filter p l) l.
Proof.
  induction l as [|x l IH]; simpl; [constructor|].
  destruct (p x); by constructor.
Qed.

Lemma List_filter_all {A} (p : A -> bool) (l : list A) :
  (forall x, x ∈ l -> p x = true) -> List.filter p l = l.
Proof.
  induction l as [|x l IH]; intros H; simpl; [done|].
  rewrite (H x) by left. f_equal. apply IH. intros y Hy. apply H. by right.
Qed.

Lemma List_filter_idemp {A} (p : A -> bool) (l : list A) :
  List.filter p (List.filter p l) = List.filter p l.
Proof.
  apply List_filter_all. intros x Hx. by apply elem_of_List_filter in Hx as [_ Hx].
Qed.

Lemma setTasks_id st : setTasks (fun _ => tasks st) st = st.
Proof. by destruct st. Qed.

(** X1: [removeTask id] keeps exactly the tasks whose id is not [id], in
    their order; it changes nothing when no task has the id, a second
    removal changes nothing more, and the filters, the modal and the
    calendar state are left alone. *)
Theorem removeTask_removes_by_id id st :
  let st' := removeTask id st in
  (forall t, t ∈ tasks st' <-> t ∈ tasks st /\ Task.id t <> id) /\
  sublist (tasks st') (tasks st) /\
  ((forall t, t ∈ tasks st -> Task.id t <> id) -> st' = st) /\
  removeTask id st' = st' /\
  st' = setTasks (fun _ => tasks st') st.
Proof.
  cbv zeta. split; [|split; [|split; [|split]]].
  - intros t. rewrite tasks_removeTask, elem_of_List_filter, negb_true_iff.
    by rewrite String.eqb_neq.
  - apply List_filter_sublist.
  - intros Hno. unfold removeTask. rewrite <- (setTasks_id st) at 2.
    unfold setTasks. f_equal. apply List_filter_all. intros t Ht.
    apply negb_true_iff, String.eqb_neq. by apply Hno.
  - unfold removeTask, setTasks. simpl. f_equal. apply List_filter_idemp.
  - reflexivity.
Qed.

(** X2: removing [t]'s id right after [upsertTask t] gives the list that
    removing it from the former store gives: the former store itself
    when the id was new. *)
Theorem removeTask_after_upsertTask t st :
  tasks (removeTask (Task.id t) (upsertTask t st)) =
    tasks (removeTask (Task.id t) st) /\
  ((forall p, p ∈ tasks st -> Task.id p <> Task.id t) ->
   tasks (removeTask (Task.id t) (upsertTask t st)) = tasks st).
Proof.
  assert (tasks (removeTask (Task.id t) (upsertTask t st)) =
          tasks (removeTask (Task.id t) st)) as Heq.
  { rewrite !tasks_removeTask, tasks_upsertTask. unfold upsert.
    destruct (existsb _ (tasks st)) eqn:Hex.
    - induction (tasks st) as [|p l IH] in |- *; [done|]. simpl.
      destruct (String.eqb (Task.id p) (Task.id t)) eqn:Hp; simpl.
      + rewrite String.eqb_refl. simpl. exact IH.
      + rewrite Hp. simpl. by rewrite IH.
    - simpl. by rewrite String.eqb_refl. }
  split; [done|]. intros Hno. rewrite Heq, tasks_removeTask.
  apply List_filter_all. intros p Hp. apply negb_true_iff, String.eqb_neq. by apply Hno.
Qed.

Lemma upsert_ids_present t l :
  (exists q, q ∈ l /\ Task.id q = Task.id t) ->
  map Task.id (upsert t l) = map Task.id l.
Proof.
  intros Hex. apply has_id_true in Hex. unfold upsert. rewrite Hex.
  rewrite map_map. apply map_ext. intros p.
  destruct (String.eqb (Task.id p) (Task.id t)) eqn:Hp; [|done].
  symmetry. by apply String.eqb_eq.
Qed.

Lemma upsert_idemp t l : upsert t (upsert t l) = upsert t l.
Proof.
  assert (existsb (fun p => String.eqb (Task.id p) (Task.id t)) (upsert t l) = true) as Hin.
  { unfold upsert. destruct (existsb _ l) eqn:Hex.
    - apply has_id_true in Hex as (q & Hq & Hid). apply has_id_true.
      exists t. split; [|done]. apply list_elem_of_fmap. exists q. split; [|done].
      apply String.eqb_eq in Hid. by rewrite Hid.
    - simpl. by rewrite String.eqb_refl. }
  unfold upsert at 1. rewrite Hin.
  rewrite <- (map_id (upsert t l)) at 2. apply map_ext_in. intros p Hp.
  destruct (String.eqb (Task.id p) (Task.id t)) eqn:Hid; [|done].
  apply String.eqb_eq in Hid.
  unfold upsert in Hp. destruct (existsb _ l) eqn:Hex.
  - apply in_map_iff in Hp as (q & Hq & _).
    destruct (String.eqb (Task.id q) (Task.id t)) eqn:Hqt; [done|].
    subst q. apply String.eqb_neq in Hqt. done.
  - destruct Hp as [->|Hp]; [done|].
    exfalso. apply (proj1 (has_id_false t l) Hex p); [by apply list_elem_of_In|done].
Qed.

(** X3: the store keeps the ids of its tasks distinct under [upsertTask]
    and [removeTask], and saving the same task twice is saving it once. *)
Theorem store_keeps_ids_distinct t id st :
  NoDup (map Task.id (tasks st)) ->
  NoDup (map Task.id (tasks (upsertTask t st))) /\
  NoDup (map Task.id (tasks (removeTask id st))) /\
  upsertTask t (upsertTask t st) = upsertTask t st.
Proof.
  intros Hnd. split; [|split].
  - rewrite tasks_upsertTask.
    destruct (existsb (fun p => String.eqb (Task.id p) (Task.id t)) (tasks st)) eqn:Hex.
    + apply has_id_true in Hex. by rewrite upsert_ids_present.
    + pose proof (proj1 (has_id_false t (tasks st)) Hex) as Hno.
      rewrite upsert_absent by done. simpl.
      apply NoDup_cons. split; [|done].
      intros Hin. apply list_elem_of_fmap in Hin as (p & Hid & Hp). by apply (Hno p).
  - rewrite tasks_removeTask. eapply sublist_NoDup; [done|].
    apply (fmap_sublist Task.id), List_filter_sublist.
  - unfold upsertTask, resetForm, setShowModal, setEditing, setTasks. simpl.
    f_equal. apply upsert_idemp.
Qed.

End Removal.

(** ** The category chips *)

Section Chips.
Implicit Types (c cat : Category) (st : State).

Lemma active_toggleCategory cat st :
  activeCategories (toggleCategory cat st) =
  if bool_decide (cat ∈ activeCategories st)
  then List.filter (fun c => negb (bool_decide (c = cat))) (activeCategories st)
  else activeCategories st ++ [cat].
Proof. reflexivity. Qed.

Lemma elem_of_toggleCategory c cat st :
  c ∈ activeCategories (toggleCategory cat st) <->
  if decide (c = cat) then cat ∉ activeCategories st else c ∈ activeCategories st.
Proof.
  rewrite active_toggleCategory.
  destruct (decide (cat ∈ activeCategories st)) as [Hin|Hout].
  - rewrite bool_decide_eq_true_2 by done.
    rewrite elem_of_List_filter, negb_true_iff, bool_decide_eq_false.
    destruct (decide (c = cat)) as [->|Hne]; tauto.
  - rewrite bool_decide_eq_false_2 by done.
    rewrite elem_of_app, list_elem_of_singleton.
    destruct (decide (c = cat)) as [->|Hne]; tauto.
Qed.

(** X4: a click on a chip flips whether its category is active and
    nothing else: every other category stays as it was, a category that
    was inactive is added at the end, no category is listed twice if none
    was, and the tasks are untouched. *)
Theorem toggleCategory_flips_one cat st :
  let A := activeCategories st in
  let A' := activeCategories (toggleCategory cat st) in
  (cat ∈ A' <-> cat ∉ A) /\
  (forall c, c <> cat -> c ∈ A' <-> c ∈ A) /\
  (cat ∉ A -> A' = A ++ [cat]) /\
  (cat ∈ A -> sublist A' A) /\
  (NoDup A -> NoDup A') /\
  toggleCategory cat st = setActiveCategories (fun _ => A') st.
Proof.
  cbv zeta. split; [|split; [|split; [|split; [|split]]]].
  - rewrite elem_of_toggleCategory. by rewrite decide_True.
  - intros c Hne. rewrite elem_of_toggleCategory. by rewrite decide_False.
  - intros Hout. rewrite active_toggleCategory. by rewrite bool_decide_eq_false_2.
  - intros Hin. rewrite active_toggleCategory, bool_decide_eq_true_2 by done.
    apply List_filter_sublist.
  - intros Hnd. rewrite active_toggleCategory.
    destruct (decide (cat ∈ activeCategories st)) as [Hin|Hout].
    + rewrite bool_decide_eq_true_2 by done.
      eapply sublist_NoDup; [done|]. apply List_filter_sublist.
    + rewrite bool_decide_eq_false_2 by done.
      apply NoDup_app. split; [done|]. split; [|apply NoDup_singleton].
      intros c Hc Hc'. apply list_elem_of_singleton in Hc'. by subst.
  - reflexivity.
Qed.

(** The view depends on the active categories as a set. *)
Lemma kept_same_active st st' :
  tasks st' = tasks st -> query st' = query st -> statusFilter st' = statusFilter st ->
  (forall c, c ∈ activeCategories st' <-> c ∈ activeCategories st) ->
  kept st' = kept st.
Proof.
  intros Ht Hq Hs Ha. unfold kept. rewrite Ht, Hq, Hs.
  assert (List.filter (fun t => bool_decide (Task.category t ∈ activeCategories st')) (tasks st) =
          List.filter (fun t => bool_decide (Task.category t ∈ activeCategories st)) (tasks st))
    as ->; [|done].
  apply filter_ext. intros t. apply bool_decide_ext, Ha.
Qed.

(** X5: a second click on the same chip brings the view back: the
    filtered list and its groups are those before the first click, and
    when the category was inactive the whole state is. *)
Theorem toggleCategory_twice_same_view cat st :
  let st'' := toggleCategory cat (toggleCategory cat st) in
  filtered st'' = filtered st /\
  byCategory (filtered st'') = byCategory (filtered st) /\
  (forall c, c ∈ activeCategories st'' <-> c ∈ activeCategories st) /\
  (cat ∉ activeCategories st -> st'' = st).
Proof.
  cbv zeta.
  assert (forall c, c ∈ activeCategories (toggleCategory cat (toggleCategory cat st)) <->
                    c ∈ activeCategories st) as Hsame.
  { intros c. rewrite elem_of_toggleCategory.
    destruct (decide (c = cat)) as [->|Hne].
    - rewrite elem_of_toggleCategory, decide_True by done.
      destruct (decide (cat ∈ activeCategories st)); tauto.
    - by rewrite elem_of_toggleCategory, decide_False. }
  assert (filtered (toggleCategory cat (toggleCategory cat st)) = filtered st) as Hf.
  { unfold filtered. by rewrite (kept_same_active st (toggleCategory cat (toggleCategory cat st))
                 eq_refl eq_refl eq_refl Hsame). }
  split; [done|]. split; [by rewrite Hf|]. split; [done|].
  intros Hout. destruct st as [ts q A sf sk v sm ed cc cm]. simpl in Hout.
  unfold toggleCategory, setActiveCategories. simpl. f_equal.
  rewrite (bool_decide_eq_false_2 _ Hout).
  rewrite bool_decide_eq_true_2 by (apply elem_of_app; right; by left).
  rewrite List.filter_app. simpl. rewrite bool_decide_eq_true_2 by done. simpl.
  rewrite app_nil_r. apply List_filter_all. intros c Hc.
  apply negb_true_iff, bool_decide_eq_false. by intros ->.
Qed.

End Chips.

(** ** Trimming and lower case *)

Section StringFacts.
Import JSString.
Implicit Types (s r : string) (c : ascii).

Lemma trimStart_head s :
  match trimStart s with
  | EmptyString => True
  | String c _ => is_space c = false
  end.
Proof.
  induction s as [|c s IH]; [done|]. simpl.
  destruct (is_space c) eqn:Hc; [done|]. simpl. exact Hc.
Qed.

Lemma trimStart_fixed c s : is_space c = false -> trimStart (String c s) = String c s.
Proof. intros H. simpl. by rewrite H. Qed.

Lemma trimEnd_cons c s : is_space c = false -> exists r, trimEnd (String c s) = String c r.
Proof.
  intros H. simpl. destruct (trimEnd s) as [|c' r'].
  - rewrite H. by eexists.
  - by eexists.
Qed.

Lemma trimEnd_step c s :
  trimEnd (String c s) =
  match trimEnd s with
  | EmptyString => if is_space c then EmptyString else String c EmptyString
  | r' => String c r'
  end.
Proof. reflexivity. Qed.

Lemma trimEnd_idemp s : trimEnd (trimEnd s) = trimEnd s.
Proof.
  induction s as [|c s IH]; [done|]. rewrite trimEnd_step.
  destruct (trimEnd s) as [|c' r'] eqn:E.
  - destruct (is_space c) eqn:Hc; [done|]. simpl. by rewrite Hc.
  - rewrite trimEnd_step, IH. done.
Qed.

Lemma trim_idemp s : trim (trim s) = trim s.
Proof.
  unfold trim. pose proof (trimStart_head s) as Hh.
  destruct (trimStart s) as [|c r]; [done|].
  destruct (trimEnd_cons c r Hh) as [r' Hr]. rewrite Hr.
  rewrite trimStart_fixed by done. rewrite <- Hr. apply trimEnd_idemp.
Qed.

Lemma trimStart_blank s : blank s = true -> trimStart s = "".
Proof.
  induction s as [|c s IH]; [done|]. simpl. intros [Hc Hs]%andb_true_iff.
  rewrite Hc. by apply IH.
Qed.

(** [trim] gives the empty string on white space and on nothing else. *)
Lemma trim_blank s : trim s = "" <-> blank s = true.
Proof.
  split.
  - unfold trim. induction s as [|c s IH]; [done|]. simpl.
    destruct (is_space c) eqn:Hc; [exact IH|].
    intros H. destruct (trimEnd_cons c s Hc) as [r Hr]. congruence.
  - intros H. unfold trim. by rewrite trimStart_blank.
Qed.

Lemma is_space_lower c : is_space (lower_unit c) = is_space c.
Proof. destruct c as [[] [] [] [] [] [] [] []]; reflexivity. Qed.

Lemma lower_unit_idemp c : lower_unit (lower_unit c) = lower_unit c.
Proof. destruct c as [[] [] [] [] [] [] [] []]; reflexivity. Qed.

Lemma toLowerCase_idemp s : toLowerCase (toLowerCase s) = toLowerCase s.
Proof. induction s as [|c s IH]; [done|]. simpl. by rewrite lower_unit_idemp, IH. Qed.

Lemma toLowerCase_trimStart s : toLowerCase (trimStart s) = trimStart (toLowerCase s).
Proof.
  induction s as [|c s IH]; [done|]. simpl. rewrite is_space_lower.
  destruct (is_space c); [exact IH|done].
Qed.

Lemma toLowerCase_trimEnd s : toLowerCase (trimEnd s) = trimEnd (toLowerCase s).
Proof.
  induction s as [|c s IH]; [done|]. simpl. rewrite <- IH, is_space_lower.
  destruct (trimEnd s) as [|c' r']; simpl; [|done].
  by destruct (is_space c).
Qed.

Lemma toLowerCase_trim s : toLowerCase (trim s) = trim (toLowerCase s).
Proof. unfold trim. by rewrite toLowerCase_trimEnd, toLowerCase_trimStart. Qed.

End StringFacts.

(** ** Sorting with any comparator, and newest first *)

Section SortAny.
Context {A : Type} (cmp : A -> A -> comparison).

Lemma place_any_perm x l : JSArray.place cmp x l ≡ₚ x :: l.
Proof.
  induction l as [|y l IH]; simpl; [done|].
  destruct (cmp x y); try done. rewrite IH. apply Permutation_swap.
Qed.

Lemma sorted_any_perm l : JSArray.sorted cmp l ≡ₚ l.
Proof.
  induction l as [|x l IH]; simpl; [done|].
  rewrite place_any_perm. by constructor.
Qed.

Lemma sorted_any_ext (cmp' : A -> A -> comparison) l :
  (forall x y, cmp x y = cmp' x y) -> JSArray.sorted cmp l = JSArray.sorted cmp' l.
Proof.
  intros H. induction l as [|x l IH]; [done|]. simpl. rewrite IH.
  generalize (JSArray.sorted cmp' l). intros s.
  induction s as [|y s IHs]; [done|]. simpl. by rewrite H, IHs.
Qed.

End SortAny.

Section SortDescending.
Context {A : Type} (key : A -> string).

Local Abbreviation sortd := (JSArray.sorted (byKeyDesc key)).
Local Abbreviation placed := (JSArray.place (byKeyDesc key)).

Lemma byKeyDesc_not_Gt x y : byKeyDesc key x y <> Gt -> keyGe key x y.
Proof. intros H. by apply sle_compare. Qed.

Lemma byKeyDesc_Gt x y : byKeyDesc key x y = Gt -> keyGe key y x.
Proof.
  intros H. apply not_sle_sle. rewrite sle_compare.
  unfold byKeyDesc, JSString.localeCompare in H. tauto.
Qed.

Lemma place_desc_sorted x l :
  StronglySorted (keyGe key) l -> StronglySorted (keyGe key) (placed x l).
Proof.
  induction 1 as [|y l Hs IH Hall]; simpl.
  - repeat constructor.
  - destruct (byKeyDesc key x y) eqn:E.
    + assert (keyGe key x y) as Hxy by (apply byKeyDesc_not_Gt; congruence).
      constructor; [by constructor|]. constructor; [done|].
      eapply Forall_impl; [done|]. intros z Hz. unfold keyGe in *. by eapply sle_trans.
    + assert (keyGe key x y) as Hxy by (apply byKeyDesc_not_Gt; congruence).
      constructor; [by constructor|]. constructor; [done|].
      eapply Forall_impl; [done|]. intros z Hz. unfold keyGe in *. by eapply sle_trans.
    + apply byKeyDesc_Gt in E.
      constructor; [done|]. rewrite place_any_perm. by constructor.
Qed.

Lemma sorted_descending l : StronglySorted (keyGe key) (sortd l).
Proof.
  induction l as [|x l IH]; simpl; [constructor|]. by apply place_desc_sorted.
Qed.

Lemma place_desc_same_key k x l :
  List.filter (fun y => String.eqb (key y) k) (placed x l) =
  List.filter (fun y => String.eqb (key y) k) (x :: l).
Proof.
  induction l as [|y l IH]; [done|].
  simpl. destruct (byKeyDesc key x y) eqn:E; try done.
  simpl. simpl in IH. rewrite IH.
  destruct (String.eqb (key x) k) eqn:Ex; [|done].
  destruct (String.eqb (key y) k) eqn:Ey; [|done].
  apply String.eqb_eq in Ex, Ey. unfold byKeyDesc, JSString.localeCompare in E.
  rewrite Ex, Ey, compare_refl in E. done.
Qed.

Lemma sorted_desc_stable k l :
  List.filter (fun y => String.eqb (key y) k) (sortd l) =
  List.filter (fun y => String.eqb (key y) k) l.
Proof.
  induction l as [|x l IH]; [done|].
  simpl. rewrite place_desc_same_key. simpl. by rewrite IH.
Qed.

End SortDescending.

(** ** What the list view keeps, and in which order *)

Section ViewFacts.
Implicit Types (t a b : Task.t) (st : State) (q : string).

Lemma filtered_perm st : filtered st ≡ₚ kept st.
Proof. apply sorted_any_perm. Qed.

Lemma kept_sublist st : sublist (kept st) (tasks st).
Proof.
  unfold kept.
  set (l1 := List.filter _ (tasks st)).
  assert (sublist l1 (tasks st)) as H1 by apply List_filter_sublist.
  set (l2 := match statusFilter st with Some s => _ | None => l1 end).
  assert (sublist l2 l1) as H2.
  { unfold l2. destruct (statusFilter st); [apply List_filter_sublist|done]. }
  destruct (JSString.nonempty _).
  - etransitivity; [apply List_filter_sublist|]. by etransitivity.
  - by etransitivity.
Qed.

Lemma elem_of_kept st t :
  let q := JSString.toLowerCase (JSString.trim (query st)) in
  t ∈ kept st <->
  t ∈ tasks st /\ Task.category t ∈ activeCategories st /\
  (forall s, statusFilter st = Some s -> Task.status t = s) /\
  (q <> "" -> matchesQuery q t = true).
Proof.
  cbv zeta. unfold kept.
  set (q := JSString.toLowerCase (JSString.trim (query st))).
  set (l1 := List.filter _ (tasks st)).
  assert (t ∈ l1 <-> t ∈ tasks st /\ Task.category t ∈ activeCategories st) as H1.
  { unfold l1. by rewrite elem_of_List_filter, bool_decide_eq_true. }
  set (l2 := match statusFilter st with Some s => _ | None => l1 end).
  assert (t ∈ l2 <-> t ∈ l1 /\ forall s, statusFilter st = Some s -> Task.status t = s) as H2.
  { unfold l2. destruct (statusFilter st) as [s|].
    - rewrite elem_of_List_filter, bool_decide_eq_true. split.
      + intros [? ?]. split; [done|]. by intros ? [= <-].
      + intros [? H]. split; [done|]. by apply H.
    - split; [by intros ?|by intros [? _]]. }
  unfold JSString.nonempty. destruct (String.eqb_spec q "") as [Hq|Hq]; simpl.
  - rewrite H2, H1. split; [|tauto]. intros [[? ?] ?]. by repeat split.
  - rewrite elem_of_List_filter, H2, H1. split; [|tauto].
    intros [[[? ?] ?] ?]. by repeat split.
Qed.

Lemma occurrences_filter (p : Task.t -> bool) t (l : list Task.t) :
  occurrences t (List.filter p l) = if p t then occurrences t l else 0%nat.
Proof.
  unfold occurrences. induction l as [|x l IH]; simpl; [by destruct (p t)|].
  destruct (p x) eqn:Hx; simpl.
  - destruct (bool_decide_reflect (x = t)) as [->|Hne]; simpl; rewrite IH.
    + by rewrite Hx.
    + done.
  - rewrite IH. destruct (bool_decide_reflect (x = t)) as [->|Hne]; [|done].
    by rewrite Hx.
Qed.

Lemma occurrences_perm t (l l' : list Task.t) :
  l ≡ₚ l' -> occurrences t l = occurrences t l'.
Proof.
  unfold occurrences.
  induction 1 as [|x l l' _ IH|x y l|l l' l'' _ IH1 _ IH2]; simpl.
  - done.
  - destruct (bool_decide (x = t)); simpl; by rewrite IH.
  - by destruct (bool_decide (x = t)), (bool_decide (y = t)).
  - by rewrite IH1.
Qed.

Lemma matchesQuery_mentions q t : matchesQuery q t = true <-> mentions q t.
Proof.
  unfold matchesQuery, mentions. rewrite !orb_true_iff, existsb_exists.
  split.
  - intros [[H|H]|(n & Hn & H)]; [by left|by right; left|].
    right; right. exists n. split; [by apply list_elem_of_In|done].
  - intros [H|[H|(n & Hn & H)]]; [by left; left|by left; right|].
    right. exists n. split; [by apply list_elem_of_In|done].
Qed.

Lemma elem_of_kept_Passes st t : t ∈ kept st <-> t ∈ tasks st /\ Passes st t.
Proof.
  rewrite elem_of_kept. unfold Passes. cbv zeta.
  set (q := JSString.toLowerCase (JSString.trim (query st))).
  split.
  - intros (Hin & Hc & Hs & Hq). split; [done|]. split; [done|]. split; [done|].
    intros Hne. by apply matchesQuery_mentions, Hq.
  - intros (Hin & Hc & Hs & Hq). split; [done|]. split; [done|]. split; [done|].
    intros Hne. by apply matchesQuery_mentions, Hq.
Qed.

Lemma occurrences_kept st t :
  (Passes st t -> occurrences t (kept st) = occurrences t (tasks st)) /\
  (~ Passes st t -> occurrences t (kept st) = 0%nat).
Proof.
  assert (forall l : list Task.t, t ∉ l -> occurrences t l = 0%nat) as Hzero.
  { intros l Hl. unfold occurrences.
    induction l as [|x l IH]; [done|]. simpl.
    apply not_elem_of_cons in Hl as [Hne Hl].
    rewrite bool_decide_eq_false_2 by done. by apply IH. }
  assert (occurrences t (kept st) =
          if decide (t ∈ kept st) then occurrences t (tasks st) else 0%nat) as Hk.
  { destruct (decide (t ∈ kept st)) as [Hin|Hout]; [|by apply Hzero].
    apply elem_of_kept in Hin as (_ & Hc & Hs & Hq). unfold kept.
    set (q := JSString.toLowerCase (JSString.trim (query st))) in *.
    assert (occurrences t
              (match statusFilter st with
               | Some s => List.filter (fun t => bool_decide (Task.status t = s))
                             (List.filter (fun t => bool_decide (Task.category t ∈ activeCategories st)) (tasks st))
               | None => List.filter (fun t => bool_decide (Task.category t ∈ activeCategories st)) (tasks st)
               end) = occurrences t (tasks st)) as H2.
    { destruct (statusFilter st) as [s|].
      - rewrite !occurrences_filter. rewrite (bool_decide_eq_true_2 _ (Hs s eq_refl)).
        by rewrite bool_decide_eq_true_2.
      - rewrite occurrences_filter. by rewrite bool_decide_eq_true_2. }
    unfold JSString.nonempty in *. destruct (String.eqb_spec q "") as [Hq0|Hq0]; simpl.
    - exact H2.
    - rewrite occurrences_filter, (Hq Hq0). exact H2. }
  split.
  - intros Hp. rewrite Hk. destruct (decide (t ∈ kept st)) as [|Hout]; [done|].
    symmetry. apply Hzero. intros Hin. apply Hout. by apply elem_of_kept_Passes.
  - intros Hnp. rewrite Hk. destruct (decide (t ∈ kept st)) as [Hin|]; [|done].
    by apply elem_of_kept_Passes in Hin as [_ Hp].
Qed.

(** X6: on every host, the list view holds the tasks of the store that
    pass the three filters, each as often as the store holds it, and no
    other task: the category is active, the status is the selected one
    unless "All" is, and with a query that is not blank the lower-cased
    title, description or some next step's text contains the trimmed,
    lower-cased query.  Before the sort the kept tasks are in the order
    of the store. *)
Theorem filtered_holds_what_passes collate st :
  (forall t, Passes st t ->
     occurrences t (filteredOn collate st) = occurrences t (tasks st)) /\
  (forall t, ~ Passes st t -> occurrences t (filteredOn collate st) = 0%nat) /\
  (forall t, t ∈ filteredOn collate st <-> t ∈ tasks st /\ Passes st t) /\
  filteredOn collate st ≡ₚ kept st /\
  sublist (kept st) (tasks st) /\
  (length (filteredOn collate st) <= length (tasks st))%nat /\
  filtered st = filteredOn JSString.localeCompare st.
Proof.
  assert (filteredOn collate st ≡ₚ kept st) as Hperm by apply sorted_any_perm.
  split; [|split; [|split; [|split; [done|split; [apply kept_sublist|split; [|done]]]]]].
  - intros t Hp. rewrite (occurrences_perm t _ _ Hperm). by apply occurrences_kept.
  - intros t Hp. rewrite (occurrences_perm t _ _ Hperm). by apply occurrences_kept.
  - intros t. rewrite Hperm. apply elem_of_kept_Passes.
  - rewrite (Permutation_length Hperm). apply sublist_length, kept_sublist.
Qed.

Lemma filtered_same_query st q q' :
  JSString.toLowerCase (JSString.trim q') = JSString.toLowerCase (JSString.trim q) ->
  filtered (setQuery q' st) = filtered (setQuery q st).
Proof.
  intros H. unfold filtered, kept. simpl. by rewrite H.
Qed.

(** X7: a query of white space only filters nothing: the view is that
    of the empty query. *)
Theorem filtered_blank_query st q :
  blank q = true -> filtered (setQuery q st) = filtered (setQuery "" st).
Proof.
  intros Hb. apply filtered_same_query.
  apply trim_blank in Hb. by rewrite Hb.
Qed.

(** X8: the search ignores the case of the query and the white space
    around it. *)
Theorem filtered_query_normalised st q :
  filtered (setQuery (JSString.toLowerCase q) st) = filtered (setQuery q st) /\
  filtered (setQuery (JSString.trim q) st) = filtered (setQuery q st).
Proof.
  split; apply filtered_same_query.
  - by rewrite <- toLowerCase_trim, toLowerCase_idemp.
  - by rewrite trim_idemp.
Qed.

Lemma alphaRank_name c c' :
  sle (Category_name c) (Category_name c') <-> (alphaRank c <= alphaRank c')%nat.
Proof.
  unfold sle, JSString.le.
  destruct c, c'; vm_compute; split; (done || lia || (intros H; by exfalso; apply H)).
Qed.

Lemma Category_name_inj c c' : Category_name c = Category_name c' -> c = c'.
Proof. by destruct c, c'. Qed.

(** X10: sorted by category, the view lists the categories in the
    alphabetical order of their names (Business, Dealership, Family,
    Personal, Spiritual), which is not the order of the chips, and within
    a category the tasks keep the order they have in the store. *)
Theorem filtered_category_alphabetical st :
  sortKey st = SortCategory ->
  filtered st ≡ₚ kept st /\
  (forall i j a b, filtered st !! i = Some a -> filtered st !! j = Some b ->
     (i < j)%nat -> (alphaRank (Task.category a) <= alphaRank (Task.category b))%nat) /\
  forall c, inCategory c (filtered st) = inCategory c (kept st).
Proof.
  intros Hk. split; [apply filtered_perm|].
  unfold filtered. rewrite Hk, sorter_category. split.
  - intros i j a b Hi Hj Hlt. apply alphaRank_name.
    apply (StronglySorted_lookup _ _
             (sorted_ascending (fun t => Category_name (Task.category t)) (kept st))
             i j a b Hi Hj Hlt).
  - intros c. unfold inCategory.
    pose proof (sorted_stable (fun t => Category_name (Task.category t))
                  (Category_name c) (kept st)) as Hs.
    assert (forall l : list Task.t,
              List.filter (fun t => bool_decide (Task.category t = c)) l =
              List.filter (fun t => String.eqb (Category_name (Task.category t))
                                               (Category_name c)) l) as Hf.
    { intros l. apply filter_ext. intros t.
      destruct (String.eqb_spec (Category_name (Task.category t)) (Category_name c)) as [He|He].
      - apply bool_decide_eq_true_2. by apply Category_name_inj.
      - apply bool_decide_eq_false_2. intros Heq. apply He. by rewrite Heq. }
    by rewrite !Hf.
Qed.

End ViewFacts.

(** ** The metric boxes *)

Section Boxes.
Variable env : JSDate.Env.
Implicit Types (t : Task.t) (l : list Task.t).

Lemma List_filter_length_le {A} (p q : A -> bool) (l : list A) :
  (forall x, p x = true -> q x = true) ->
  (length (List.filter p l) <= length (List.filter q l))%nat.
Proof.
  intros H. induction l as [|x l IH]; simpl; [done|].
  destruct (p x) eqn:Hp.
  - rewrite (H x Hp). simpl. lia.
  - destruct (q x); simpl; lia.
Qed.

Lemma List_filter_length_perm {A} (p : A -> bool) (l l' : list A) :
  l ≡ₚ l' -> length (List.filter p l) = length (List.filter p l').
Proof.
  induction 1 as [|x l l' _ IH|x y l|l l' l'' _ IH1 _ IH2]; simpl.
  - done.
  - destruct (p x); simpl; by rewrite IH.
  - by destruct (p x), (p y).
  - by rewrite IH1.
Qed.

Lemma isOverdue_truthy o : isOverdue env o = true -> JSString.truthy o = true.
Proof. unfold isOverdue. by destruct (JSString.truthy o). Qed.

Lemma isDueWithinDays_truthy o days :
  isDueWithinDays env o days = true -> JSString.truthy o = true.
Proof. unfold isDueWithinDays. by destruct (JSString.truthy o). Qed.

(** X11: the "Active" box counts the tasks that are not completed, the
    pending ones included; the "Overdue" and "Due" boxes count only tasks
    that carry a due date; and no box depends on the order of the
    store. *)
Theorem metrics_boxes l :
  let m := metrics env l in
  (active m + length (inStatus Completed l) = total m)%nat /\
  active m = (length (inStatus Active l) + length (inStatus Pending l))%nat /\
  (overdue m <= length (withDueDate l))%nat /\
  (dueSoon m <= length (withDueDate l))%nat /\
  (forall l', l ≡ₚ l' -> metrics env l' = m).
Proof.
  cbv zeta. split; [|split; [|split; [|split]]].
  - unfold metrics, inStatus. simpl.
    induction l as [|t l IH]; [done|]. simpl.
    destruct (bool_decide (Task.status t = Completed)); simpl; lia.
  - unfold metrics, inStatus. simpl.
    induction l as [|t l IH]; [done|]. simpl.
    destruct (Task.status t); simpl; lia.
  - apply List_filter_length_le. intros t. apply isOverdue_truthy.
  - apply List_filter_length_le. intros t. apply isDueWithinDays_truthy.
  - intros l' Hp. unfold metrics, CATEGORIES. simpl.
    rewrite <- (Permutation_length Hp).
    by rewrite <- !(List_filter_length_perm _ l l' Hp).
Qed.

End Boxes.

(** ** Overdue, and the due badge *)

Section Overdue.
Import JSDate.
Variable env : Env.
Implicit Types (s : string) (D : Z) (t : Task.t).

Local Ltac by_days :=
  unfold MakeDate, Day, TimeWithinDay, msPerDay in *; Z.div_mod_to_equations; lia.

Lemma parse_end_of_day s D :
  parseDay s = Some D ->
  parse env (s ++ "T23:59:59") = Some (UTC env (MakeDate D 86399000)).
Proof.
  intros HD. pose proof (parseDay_length s D HD) as Hlen.
  do 10 (destruct s as [|? s]; [done|]).
  destruct s; [|done].
  rewrite !append_cons, append_nil_l. unfold parse.
  change (String.length _ =? 10)%nat with false. cbv iota.
  match goal with H : parseDay ?d = _ |- _ => change (substring 0 10 _) with d end.
  rewrite HD. reflexivity.
Qed.

Lemma isOverdue_spec s D :
  parseDay s = Some D ->
  isOverdue env (Some s) = true <-> MakeDate D 86399000 < LocalTime env (now env).
Proof.
  intros HD. unfold isOverdue.
  assert (JSString.truthy (Some s) = true) as ->.
  { apply parseDay_length in HD. by destruct s. }
  cbv zeta. cbn [negb]. change (default "" (Some s)) with s.
  rewrite (parse_end_of_day s D HD).
  unfold JSDate.lt. rewrite Z.ltb_lt. unfold UTC, LocalTime. lia.
Qed.

(** X12: a task is overdue from the last second of its due date on, in
    local time and in every time zone: always when the due date is
    before today, never when it is after today, and on the day itself
    once 23:59:59 has passed. *)
Theorem isOverdue_after_local_end_of_day s D :
  parseDay s = Some D ->
  let today := localDay env (now env) in
  (isOverdue env (Some s) = true <->
     MakeDate D 86399000 < LocalTime env (now env)) /\
  (D < today -> isOverdue env (Some s) = true) /\
  (today < D -> isOverdue env (Some s) = false) /\
  (D = today ->
     (isOverdue env (Some s) = true <->
      86399000 < TimeWithinDay (LocalTime env (now env)))).
Proof.
  intros HD today. pose proof (isOverdue_spec s D HD) as Hs.
  split; [done|]. unfold today, localDay in *.
  split; [|split].
  - intros Hlt. apply Hs. unfold MakeDate, Day, msPerDay in *.
    Z.div_mod_to_equations. lia.
  - intros Hlt. apply not_true_is_false. rewrite Hs.
    unfold MakeDate, Day, msPerDay in *. Z.div_mod_to_equations. lia.
  - intros ->. rewrite Hs. unfold MakeDate, Day, TimeWithinDay, msPerDay.
    Z.div_mod_to_equations. lia.
Qed.

(** X13: the due badge of a card when the host runs in UTC: red for a
    due date before today, amber for today (up to 23:59:59) and the
    next three days, neutral beyond; a task with no due date, or with the
    empty one, has no badge. *)
Theorem dueBadge_utc t s D :
  LocalTZA env = 0 -> Task.dueDate t = Some s -> parseDay s = Some D ->
  let today := Day (now env) in
  (D < today -> dueBadge env t = Some Red) /\
  (D = today -> TimeWithinDay (now env) <= 86399000 -> dueBadge env t = Some Amber) /\
  (today < D <= today + 3 -> dueBadge env t = Some Amber) /\
  (today + 3 < D -> dueBadge env t = Some Neutral).
Proof.
  intros Htz Hdue HD today.
  assert (JSString.truthy (Some s) = true) as Htr.
  { pose proof (parseDay_length s D HD). by destruct s. }
  pose proof (isOverdue_spec s D HD) as Ho.
  pose proof (isDueWithinDays_utc env s D 3 Htz HD) as Hd.
  assert (LocalTime env (now env) = now env) as HL by (unfold LocalTime; lia).
  rewrite HL in Ho. fold today in Hd.
  assert (forall (b : bool) (P : Prop), (b = true <-> P) -> ~ P -> b = false) as Hno.
  { intros [] P H HP; [by destruct HP; apply H|done]. }
  unfold dueBadge. rewrite Hdue, Htr.
  split; [|split; [|split]].
  - intros Hlt. rewrite (proj2 Ho); [done|]. unfold today in Hlt. by_days.
  - intros HDt Htime. rewrite (Hno _ _ Ho), (proj2 Hd); [done|lia|].
    unfold today in HDt. by_days.
  - intros HDt. rewrite (Hno _ _ Ho), (proj2 Hd); [done|lia|].
    unfold today in HDt. by_days.
  - intros HDt. rewrite (Hno _ _ Ho), (Hno _ _ Hd); [done|lia|].
    unfold today in HDt. by_days.
Qed.

End Overdue.

(** ** Days, weeks and months *)

Section Days.
Import JSDate.
Variable env : Env.
Implicit Types (a b c d n m w : Z).

(** X14: on a host whose offset from UTC is constant, as [Env] has it,
    and within the range of time values, [addDays] moves a date by [n]
    days of 24 hours: the local day number moves by [n] across the ends
    of months and years, the week day moves with it, the time of day
    stays, and two moves add up. *)
Theorem addDays_moves_whole_days d n m :
  addDays env d n = d + n * msPerDay /\
  localDay env (addDays env d n) = localDay env d + n /\
  getDay env (addDays env d n) = (getDay env d + n) mod 7 /\
  TimeWithinDay (LocalTime env (addDays env d n)) = TimeWithinDay (LocalTime env d) /\
  addDays env (addDays env d n) m = addDays env d (n + m) /\
  addDays env d 0 = d.
Proof.
  split; [apply addDays_add|]. split; [apply localDay_addDays|]. split; [|split; [|split]].
  - rewrite !getDay_localDay, localDay_addDays. Z.div_mod_to_equations. lia.
  - rewrite addDays_add. unfold LocalTime, TimeWithinDay, msPerDay.
    Z.div_mod_to_equations. lia.
  - rewrite !addDays_add. lia.
  - rewrite addDays_add. lia.
Qed.

Lemma startOfWeek_back d w :
  0 <= w <= 6 ->
  startOfWeek env d w = addDays env d (- ((getDay env d - w) mod 7)).
Proof.
  intros Hw.
  assert (0 <= getDay env d < 7) as Hg by (apply Z.mod_pos_bound; lia).
  assert (Z.rem (getDay env d + 7 - w) 7 = (getDay env d - w) mod 7) as Hdiff.
  { rewrite Z.rem_mod_nonneg by lia.
    revert Hg. generalize (getDay env d). intros g Hg.
    Z.div_mod_to_equations. lia. }
  unfold startOfWeek. cbv zeta. rewrite Hdiff. reflexivity.
Qed.

(** X15: on a host whose offset from UTC is constant, as [Env] has it,
    and within the range of time values: for a first day of the week [w]
    from 0 (Sunday) to 6, [startOfWeek d w] is the same time of day on the
    last day of week day [w] that is not after [d]: at most six days
    back, and [d] itself when [d] falls on week day [w]. *)
Theorem startOfWeek_last_such_weekday d w :
  0 <= w <= 6 ->
  let s := startOfWeek env d w in
  getDay env s = w /\
  localDay env s <= localDay env d < localDay env s + 7 /\
  TimeWithinDay (LocalTime env s) = TimeWithinDay (LocalTime env d) /\
  (getDay env d = w -> s = d) /\
  startOfWeek env s w = s.
Proof.
  intros Hw s.
  assert (0 <= getDay env d < 7) as Hg by (apply Z.mod_pos_bound; lia).
  assert (s = addDays env d (- ((getDay env d - w) mod 7))) as Hs
    by (by apply startOfWeek_back).
  assert (getDay env s = w) as Hday.
  { rewrite Hs, getDay_localDay, localDay_addDays.
    rewrite getDay_localDay in Hg |- *. Z.div_mod_to_equations. lia. }
  split; [done|]. split; [|split; [|split]].
  - rewrite Hs, localDay_addDays. Z.div_mod_to_equations. lia.
  - rewrite Hs, addDays_add. unfold LocalTime, TimeWithinDay, msPerDay.
    Z.div_mod_to_equations. lia.
  - intros Heq. rewrite Hs, Heq, addDays_add, Z.sub_diag.
    change (0 mod 7) with 0. lia.
  - rewrite (startOfWeek_back s w Hw), Hday, addDays_add, Z.sub_diag.
    change (0 mod 7) with 0. lia.
Qed.

(** X16: on a host whose offset from UTC is constant, as [Env] has it,
    and within the range of time values, week mode lists seven days in a
    row, Sunday to Saturday, each at the cursor's time of day, and the
    cursor itself is the one at the place of its week day. *)
Theorem weekDays_sunday_to_saturday c :
  let week := weekDays env c in
  length week = 7%nat /\
  (forall k : nat, (k < 7)%nat ->
     exists cell, week !! k = Some cell /\ getDay env cell = Z.of_nat k /\
       cell = addDays env c (Z.of_nat k - getDay env c)) /\
  week !! Z.to_nat (getDay env c) = Some c.
Proof.
  cbv zeta. unfold weekDays.
  assert (0 <= getDay env c < 7) as Hg by (apply Z.mod_pos_bound; lia).
  destruct (startOfWeek_sunday env c) as (_ & _ & Hs & _). rewrite Hs.
  split; [by rewrite length_map, length_seqZ|]. split.
  - intros k Hk. eexists. split.
    + rewrite list_lookup_fmap, lookup_seqZ_lt by lia. reflexivity.
    + split.
      * cbv beta. rewrite !getDay_localDay, !localDay_addDays. rewrite getDay_localDay in Hg.
        Z.div_mod_to_equations. lia.
      * cbv beta. rewrite !addDays_add. unfold msPerDay. lia.
  - rewrite list_lookup_fmap, lookup_seqZ_lt by lia. cbv beta. cbn [fmap option_fmap option_map]. f_equal.
    rewrite !addDays_add. unfold msPerDay. lia.
Qed.

Lemma toDateString_localDay a b :
  localDay env a = localDay env b -> toDateString env a = toDateString env b.
Proof.
  unfold localDay. intros H. unfold toDateString, WeekDay, MonthFromTime, DateFromTime,
    InLeapYear, DayWithinYear, MonthFromTime, InLeapYear, DayWithinYear, YearFromTime.
  by rewrite H.
Qed.

Lemma isSameDay_localDay a b :
  isSameDay env a b = true <-> localDay env a = localDay env b.
Proof.
  unfold isSameDay. rewrite bool_decide_eq_true. split.
  - intros H. apply (f_equal (ofDateString env)) in H.
    rewrite !ofDateString_toDateString in H.
    unfold localDay, UTC, MakeDate, msPerDay in *. lia.
  - apply toDateString_localDay.
Qed.

(** X17: [isSameDay] holds of two dates exactly when they fall on the
    same local calendar day, whatever the times of day; two dates of one
    day are of one month. *)
Theorem isSameDay_same_local_day a b :
  (isSameDay env a b = true <-> localDay env a = localDay env b) /\
  (isSameDay env a b = true -> isSameMonth env a b = true) /\
  isSameDay env a b = isSameDay env b a /\
  isSameDay env a a = true.
Proof.
  split; [apply isSameDay_localDay|]. split; [|split].
  - intros H. unfold isSameDay in H. apply bool_decide_eq_true in H.
    unfold isSameMonth. apply andb_true_iff.
    rewrite !Z.eqb_eq. unfold getFullYear, getMonth.
    by injection H as _ -> _ ->.
  - destruct (isSameDay env b a) eqn:E.
    + apply isSameDay_localDay. by apply isSameDay_localDay in E.
    + apply not_true_is_false. intros H. apply isSameDay_localDay in H.
      assert (isSameDay env b a = true) as H' by (by apply isSameDay_localDay).
      congruence.
  - by apply isSameDay_localDay.
Qed.

Lemma DayWithinYear_range t :
  0 <= DayWithinYear t < 365 + InLeapYear t.
Proof.
  unfold DayWithinYear, InLeapYear, YearFromTime.
  pose proof (YearFromDay_spec (Day t)) as Hs.
  rewrite DayFromYear_succ in Hs. unfold DaysInYear in Hs.
  destruct (isLeap (YearFromDay (Day t))); lia.
Qed.

Lemma DateFromTime_range t : 1 <= DateFromTime t <= 31.
Proof.
  pose proof (DayWithinYear_range t) as Hr.
  unfold DateFromTime, MonthFromTime, monthOfDayWithinYear.
  assert (InLeapYear t = 0 \/ InLeapYear t = 1) as Hl.
  { unfold InLeapYear. destruct (isLeap _); lia. }
  repeat (match goal with
          | |- context [?a <? ?b] => destruct (Z.ltb_spec a b)
          end; [cbn [daysBeforeMonth]; lia|]).
  cbn [daysBeforeMonth]. lia.
Qed.

Lemma localDay_fields d n :
  MakeDay (getFullYear env d) (getMonth env d) (getDate env d + n) = localDay env d + n.
Proof. exact (MakeDay_fields (LocalTime env d) n). Qed.

(** The first of the month of [d] is [getDate d - 1] days before [d]. *)
Lemma localDay_startOfMonth d :
  ~ (0 <= getFullYear env d <= 99) ->
  localDay env (startOfMonth env d) = localDay env d - (getDate env d - 1).
Proof.
  intros Hy. destruct (startOfMonth_first env d Hy) as (HY & HM & HD & _).
  pose proof (localDay_fields (startOfMonth env d) 0) as H1.
  rewrite HY, HM, HD in H1.
  pose proof (localDay_fields d (1 - getDate env d)) as H2.
  replace (getDate env d + (1 - getDate env d)) with (1 + 0) in H2 by lia.
  lia.
Qed.

(** X18: every day of the cursor's month is in the month grid, in one
    cell and no other. *)
Theorem calendarMatrix_covers_month c d :
  ~ (0 <= getFullYear env c <= 99) ->
  isSameMonth env d c = true ->
  exists k cell,
    (k < 42)%nat /\ calendarMatrix env c !! k = Some cell /\
    isSameDay env cell d = true /\
    forall k' cell', calendarMatrix env c !! k' = Some cell' ->
      isSameDay env cell' d = true -> k' = k.
Proof.
  intros Hy Hm. unfold isSameMonth in Hm.
  apply andb_true_iff in Hm as [HY HM]. apply Z.eqb_eq in HY, HM.
  assert (startOfMonth env d = startOfMonth env c) as Hsame.
  { unfold startOfMonth. by rewrite HY, HM. }
  assert (localDay env (startOfMonth env c) = localDay env d - (getDate env d - 1)) as Hfirst.
  { rewrite <- Hsame. apply localDay_startOfMonth. by rewrite HY. }
  pose proof (DateFromTime_range (LocalTime env d)) as Hdate. fold (getDate env d) in Hdate.
  destruct (calendarMatrix_grid env c) as (Hlen & g & Hg & _ & Hrange & Hcells).
  set (k := Z.to_nat (localDay env d - localDay env g)).
  assert (k < 42)%nat as Hk by (unfold k; lia).
  destruct (Hcells k Hk) as (cell & Hcell & _ & Hday & _).
  exists k, cell. split; [done|]. split; [done|]. split.
  - apply isSameDay_localDay. rewrite Hday. unfold k. lia.
  - intros k' cell' Hcell' Hsd. apply isSameDay_localDay in Hsd.
    assert (k' < 42)%nat as Hk'.
    { rewrite <- Hlen. by eapply lookup_lt_Some. }
    destruct (Hcells k' Hk') as (cell'' & Hcell'' & _ & Hday' & _).
    assert (cell'' = cell') as -> by congruence.
    unfold k. lia.
Qed.

End Days.

(** ** The order of the stamps of [toISOString] *)

Section IsoInstants.
Import JSDate.
Implicit Types (t n : Z) (r : string).

Lemma compare_cons_same c r r' :
  String.compare (String c r) (String c r') = String.compare r r'.
Proof.
  simpl. assert (Ascii.compare c c = Eq) as ->; [|done].
  unfold Ascii.compare. apply N.compare_refl.
Qed.

Lemma compare_digit_chars n n' :
  Ascii.compare (digit n) (digit n') = (n mod 10 ?= n' mod 10).
Proof.
  unfold Ascii.compare, digit.
  pose proof (Z.mod_pos_bound n 10) as Hn. pose proof (Z.mod_pos_bound n' 10) as Hn'.
  rewrite !N_ascii_embedding by lia.
  rewrite <- N2Z.inj_compare, !N2Z.inj_add, !Z2N.id by lia.
  apply Z.add_compare_mono_l.
Qed.

(** Numbers printed in the same number of digits compare as strings the
    way they compare as numbers. *)
Lemma compare_pad (w : nat) : forall n n' r r',
  0 <= n < 10 ^ Z.of_nat w -> 0 <= n' < 10 ^ Z.of_nat w ->
  String.compare (pad w n +:+ r) (pad w n' +:+ r') =
  match n ?= n' with
  | Eq => String.compare r r'
  | c => c
  end.
Proof.
  induction w as [|w IH]; intros n n' r r' Hn Hn'.
  - simpl in Hn, Hn'. assert (n = 0) as -> by lia. assert (n' = 0) as -> by lia.
    reflexivity.
  - rewrite Nat2Z.inj_succ, Z.pow_succ_r in Hn, Hn' by lia.
    cbn [pad]. rewrite !append_assoc, !append_cons, !append_nil_l.
    rewrite IH by (Z.div_mod_to_equations; lia).
    cbn [String.compare]. rewrite compare_digit_chars.
    destruct (Z.compare_spec (n / 10) (n' / 10)) as [Hq|Hq|Hq];
      destruct (Z.compare_spec (n mod 10) (n' mod 10)) as [Hm|Hm|Hm];
      destruct (Z.compare_spec n n') as [He|He|He];
      try reflexivity; exfalso; Z.div_mod_to_equations; lia.
Qed.

Lemma DateFromTime_valid t :
  1 <= DateFromTime t <= DaysInMonth (YearFromTime t) (MonthFromTime t).
Proof.
  pose proof (DayWithinYear_range t) as Hr.
  unfold DateFromTime, MonthFromTime, monthOfDayWithinYear, InLeapYear in *.
  destruct (isLeap (YearFromTime t)) eqn:Hl;
    repeat (match goal with
            | |- context [?a <? ?b] => destruct (Z.ltb_spec a b)
            end; [cbn [daysBeforeMonth DaysInMonth]; rewrite ?Hl; lia|]);
    cbn [daysBeforeMonth DaysInMonth]; lia.
Qed.

Lemma compare_radix base a b a' b' :
  0 <= b < base -> 0 <= b' < base ->
  (a * base + b ?= a' * base + b') =
  match a ?= a' with
  | Eq => b ?= b'
  | c => c
  end.
Proof.
  intros Hb Hb'.
  destruct (Z.compare_spec a a'); destruct (Z.compare_spec b b');
    destruct (Z.compare_spec (a * base + b) (a' * base + b'));
    try reflexivity; exfalso; nia.
Qed.

Lemma time_radix t : t = radix t.
Proof.
  unfold radix, Day, HourFromTime, MinFromTime, SecFromTime, msFromTime, msPerDay.
  Z.div_mod_to_equations. lia.
Qed.

(** A time value is ordered like its fields, the larger units first. *)
Lemma fields_compare t t' :
  (t ?= t') =
  match YearFromTime t ?= YearFromTime t' with
  | Eq =>
    match MonthFromTime t + 1 ?= MonthFromTime t' + 1 with
    | Eq =>
      match DateFromTime t ?= DateFromTime t' with
      | Eq =>
        match HourFromTime t ?= HourFromTime t' with
        | Eq =>
          match MinFromTime t ?= MinFromTime t' with
          | Eq =>
            match SecFromTime t ?= SecFromTime t' with
            | Eq => msFromTime t ?= msFromTime t'
            | c => c
            end
          | c => c
          end
        | c => c
        end
      | c => c
      end
    | c => c
    end
  | c => c
  end.
Proof.
  pose proof (MakeDay_fields t 0) as Hd. pose proof (MakeDay_fields t' 0) as Hd'.
  rewrite !Z.add_0_r in Hd, Hd'.
  pose proof (MonthFromTime_range t) as Hm. pose proof (MonthFromTime_range t') as Hm'.
  pose proof (DateFromTime_valid t) as Hv. pose proof (DateFromTime_valid t') as Hv'.
  pose proof (MakeDay_compare (YearFromTime t) (MonthFromTime t + 1) (DateFromTime t)
                (YearFromTime t') (MonthFromTime t' + 1) (DateFromTime t')) as Hc.
  replace (MonthFromTime t + 1 - 1) with (MonthFromTime t) in Hc by lia.
  replace (MonthFromTime t' + 1 - 1) with (MonthFromTime t') in Hc by lia.
  rewrite Hd, Hd' in Hc. specialize (Hc ltac:(lia) ltac:(lia) ltac:(lia) ltac:(lia)).
  clear Hd Hd' Hv Hv' Hm Hm'.
  assert (forall c, (Day t ?= Day t') = c ->
    (t ?= t') =
    match c with
    | Eq =>
      match HourFromTime t ?= HourFromTime t' with
      | Eq =>
        match MinFromTime t ?= MinFromTime t' with
        | Eq =>
          match SecFromTime t ?= SecFromTime t' with
          | Eq => msFromTime t ?= msFromTime t'
          | c => c
          end
        | c => c
        end
      | c => c
      end
    | c => c
    end) as Htime.
  { intros c <-.
    transitivity (radix t ?= radix t'); [by rewrite <- !time_radix|]. unfold radix.
    rewrite !compare_radix by (apply Z.mod_pos_bound; lia).
    destruct (Day t ?= Day t'); [|done|done].
    destruct (HourFromTime t ?= HourFromTime t'); [|done|done].
    destruct (MinFromTime t ?= MinFromTime t'); [|done|done].
    by destruct (SecFromTime t ?= SecFromTime t'). }
  rewrite (Htime _ Hc).
  destruct (YearFromTime t ?= YearFromTime t'); [|done|done].
  destruct (MonthFromTime t + 1 ?= MonthFromTime t' + 1); [|done|done].
  by destruct (DateFromTime t ?= DateFromTime t').
Qed.

Lemma toISOString_fields t :
  0 <= YearFromTime t <= 9999 ->
  toISOString t =
  pad 4 (YearFromTime t) +:+ String "-" (
  pad 2 (MonthFromTime t + 1) +:+ String "-" (
  pad 2 (DateFromTime t) +:+ String "T" (
  pad 2 (HourFromTime t) +:+ String ":" (
  pad 2 (MinFromTime t) +:+ String ":" (
  pad 2 (SecFromTime t) +:+ String "." (
  pad 3 (msFromTime t) +:+ "Z")))))).
Proof.
  intros Hy. unfold toISOString, isoYear.
  replace ((0 <=? YearFromTime t) && (YearFromTime t <=? 9999)) with true.
  2: { symmetry. apply andb_true_iff. rewrite !Z.leb_le. lia. }
  reflexivity.
Qed.

(** The stamps of the years 0 to 9999 are ordered like the instants they
    name. *)
Lemma toISOString_compare t t' :
  0 <= YearFromTime t <= 9999 -> 0 <= YearFromTime t' <= 9999 ->
  String.compare (toISOString t) (toISOString t') = (t ?= t').
Proof.
  intros Hy Hy'. rewrite (toISOString_fields t Hy), (toISOString_fields t' Hy').
  pose proof (MonthFromTime_range t) as Hm. pose proof (MonthFromTime_range t') as Hm'.
  pose proof (DateFromTime_range t) as Hd. pose proof (DateFromTime_range t') as Hd'.
  rewrite (fields_compare t t').
  rewrite compare_pad by (simpl; lia). rewrite compare_cons_same.
  rewrite compare_pad by (simpl; lia). rewrite compare_cons_same.
  rewrite compare_pad by (simpl; lia). rewrite compare_cons_same.
  rewrite compare_pad by (unfold HourFromTime; simpl; Z.div_mod_to_equations; lia).
  rewrite compare_cons_same.
  rewrite compare_pad by (unfold MinFromTime; simpl; Z.div_mod_to_equations; lia).
  rewrite compare_cons_same.
  rewrite compare_pad by (unfold SecFromTime; simpl; Z.div_mod_to_equations; lia).
  rewrite compare_cons_same.
  rewrite compare_pad by (unfold msFromTime; simpl; Z.div_mod_to_equations; lia).
  rewrite compare_refl.
  repeat (match goal with |- context [match ?c with _ => _ end] => destruct c end; try reflexivity).
Qed.

Lemma toISOString_sle t t' :
  0 <= YearFromTime t <= 9999 -> 0 <= YearFromTime t' <= 9999 ->
  sle (toISOString t) (toISOString t') -> t <= t'.
Proof.
  intros Hy Hy' H. apply sle_compare in H.
  rewrite (toISOString_compare t t' Hy Hy') in H. by apply Z.compare_le_iff.
Qed.

Lemma isDigit_digit n : isDigit (digit n) = true.
Proof.
  unfold isDigit, digit. pose proof (Z.mod_pos_bound n 10).
  rewrite N_ascii_embedding by lia.
  apply andb_true_iff. rewrite !N.leb_le. lia.
Qed.

(** What [toISOString] prints for the years 0 to 9999 has the shape of
    an instant. *)
Lemma toISOString_shaped t :
  0 <= YearFromTime t <= 9999 -> shaped instantShape (toISOString t) = true.
Proof.
  intros Hy. rewrite (toISOString_fields t Hy). cbn [pad].
  rewrite !append_assoc, !append_cons, !append_nil_l.
  cbn [shaped instantShape Ascii.eqb Bool.eqb]. by rewrite !isDigit_digit.
Qed.

End IsoInstants.

(** ** The view sorted by creation *)

Section NewestFirst.
Implicit Types (t a b : Task.t) (st : State).

Lemma sorter_createdAt a b : sorter SortCreatedAt a b = byKeyDesc Task.createdAt a b.
Proof.
  unfold sorter, byKeyDesc.
  assert (forall s, JSString.or_else (Some s) "" = s) as H.
  { intros s. unfold JSString.or_else, JSString.nonempty.
    by destruct (String.eqb_spec s "") as [->|]. }
  by rewrite !H.
Qed.

(** On a store of tasks stamped by [toISOString], a host sorts by
    creation as the code units do. *)
Lemma sorterOn_createdAt collate a b :
  CollatesShape instantShape collate ->
  shaped instantShape (Task.createdAt a) = true ->
  shaped instantShape (Task.createdAt b) = true ->
  sorterOn collate SortCreatedAt a b = byKeyDesc Task.createdAt a b.
Proof.
  intros Hc Ha Hb. unfold sorterOn, byKeyDesc.
  assert (forall s, JSString.or_else (Some s) "" = s) as H.
  { intros s. unfold JSString.or_else, JSString.nonempty.
    by destruct (String.eqb_spec s "") as [->|]. }
  rewrite !H. by apply Hc.
Qed.

(** X9: on a host that collates the stamps of [toISOString] in the
    order of their code units, as the hosts do, and for a store whose
    tasks carry such stamps, the view sorted by creation runs from the
    newest task to the oldest, tasks of one stamp in the order they have
    in the store. *)
Theorem filtered_createdAt_newest_first collate st :
  CollatesShape instantShape collate ->
  sortKey st = SortCreatedAt ->
  (forall t, t ∈ tasks st -> shaped instantShape (Task.createdAt t) = true) ->
  filteredOn collate st ≡ₚ kept st /\
  (forall i j a b, filteredOn collate st !! i = Some a -> filteredOn collate st !! j = Some b ->
     (i < j)%nat -> sle (Task.createdAt b) (Task.createdAt a)) /\
  (forall i j a b ta tb,
     filteredOn collate st !! i = Some a -> filteredOn collate st !! j = Some b ->
     (i < j)%nat ->
     Task.createdAt a = JSDate.toISOString ta -> Task.createdAt b = JSDate.toISOString tb ->
     0 <= JSDate.YearFromTime ta <= 9999 -> 0 <= JSDate.YearFromTime tb <= 9999 ->
     tb <= ta) /\
  forall k,
    List.filter (fun t => String.eqb (Task.createdAt t) k) (filteredOn collate st) =
    List.filter (fun t => String.eqb (Task.createdAt t) k) (kept st).
Proof.
  intros Hc Hk Hshape. split; [apply sorted_any_perm|].
  assert (filteredOn collate st = JSArray.sorted (byKeyDesc Task.createdAt) (kept st)) as ->.
  { unfold filteredOn. rewrite Hk. apply sorted_ext_in. intros x y Hx Hy.
    apply sorterOn_createdAt; [done|apply Hshape..].
    - exact (elem_of_sublist _ _ x Hx (kept_sublist st)).
    - exact (elem_of_sublist _ _ y Hy (kept_sublist st)). }
  assert (forall i j a b, JSArray.sorted (byKeyDesc Task.createdAt) (kept st) !! i = Some a ->
            JSArray.sorted (byKeyDesc Task.createdAt) (kept st) !! j = Some b ->
            (i < j)%nat -> sle (Task.createdAt b) (Task.createdAt a)) as Hdesc.
  { intros i j a b Hi Hj Hlt.
    apply (StronglySorted_lookup _ _ (sorted_descending Task.createdAt (kept st)) i j a b Hi Hj Hlt). }
  split; [done|]. split.
  - intros i j a b ta tb Hi Hj Hlt Ha Hb Hya Hyb.
    specialize (Hdesc i j a b Hi Hj Hlt). rewrite Ha, Hb in Hdesc.
    by apply (toISOString_sle tb ta).
  - intros k. apply sorted_desc_stable.
Qed.

End NewestFirst.

(** ** The month chevrons *)

Section Chevrons.
Import JSDate.
Variable env : Env.
Implicit Types (c y m : Z) (st : State).




End Chevrons.

(** ** Local storage: what is stored is what is loaded *)

Section FlatFacts.
Import JSON.
Local Open Scope nat_scope.
Implicit Types (s r rest : string) (v : value) (fuel : nat).

Lemma join_cons sep i (items : list string) close rest :
  sep = "," ->
  join sep (i :: items) +:+ close +:+ rest = i +:+ flatTail close items rest.
Proof.
  intros ->. revert i. induction items as [|j items IH]; intros i.
  - reflexivity.
  - change (join "," (i :: j :: items)) with (i +:+ "," +:+ join "," (j :: items)).
    rewrite !append_assoc, IH. reflexivity.
Qed.

Lemma stringifyFlat_Arr x xs rest :
  stringifyFlat (Arr (x :: xs)) +:+ rest =
  String "[" (stringifyFlat x +:+ flatTail "]" (map stringifyFlat xs) rest).
Proof.
  change (stringifyFlat (Arr (x :: xs)))
    with ("[" +:+ join "," (stringifyFlat x :: map stringifyFlat xs) +:+ "]").
  rewrite !append_assoc, append_cons, append_nil_l. f_equal. by apply join_cons.
Qed.

Lemma stringifyFlat_Obj m ms rest :
  stringifyFlat (Obj (m :: ms)) +:+ rest =
  String "{" (memberFlat m +:+ flatTail "}" (map memberFlat ms) rest).
Proof.
  change (stringifyFlat (Obj (m :: ms)))
    with ("{" +:+ join "," (memberFlat m :: map memberFlat ms) +:+ "}").
  rewrite !append_assoc, append_cons, append_nil_l. f_equal. by apply join_cons.
Qed.

Lemma stringifyFlat_start v rest : valueStart (stringifyFlat v +:+ rest).
Proof.
  destruct v as [|[]|s|[|x xs]|[|m ms]]; by repeat split.
Qed.

(** The items of an array printed flat, after its opening bracket. *)
Lemma parseElements_flat (xs : list value) :
  Forall (fun x => forall fuel rest, weight x <= fuel ->
            parseValue fuel (stringifyFlat x +:+ rest) = Some (x, rest)) xs ->
  forall x fuel rest,
    (forall fuel rest, weight x <= fuel ->
       parseValue fuel (stringifyFlat x +:+ rest) = Some (x, rest)) ->
    list_sum (map (fun x => S (weight x)) (x :: xs)) <= fuel ->
    parseElements fuel
      (stringifyFlat x +:+ flatTail "]" (map stringifyFlat xs) rest) = Some (x :: xs, rest).
Proof.
  induction 1 as [|y ys Hy Hys IH]; intros x fuel rest Hx Hfuel.
  - destruct fuel as [|fuel]; [simpl in Hfuel; lia|].
    rewrite parseElements_step, Hx by (simpl in Hfuel; lia).
    reflexivity.
  - destruct fuel as [|fuel]; [simpl in Hfuel; lia|].
    rewrite parseElements_step, Hx by (simpl in Hfuel; lia).
    unfold flatTail. simpl map. simpl fold_right.
    fold (flatTail "]" (map stringifyFlat ys) rest).
    rewrite append_cons, append_nil_l, skipWs_nonws by done.
    rewrite startsWith_cons.
    rewrite IH; [done|done|]. simpl in *. lia.
Qed.

(** The members of an object printed flat, after its opening brace. *)
Lemma parseMembers_flat (ms : list (string * value)) :
  Forall (fun m => forall fuel rest, weight (snd m) <= fuel ->
            parseValue fuel (stringifyFlat (snd m) +:+ rest) = Some (snd m, rest)) ms ->
  forall m fuel rest,
    (forall fuel rest, weight (snd m) <= fuel ->
       parseValue fuel (stringifyFlat (snd m) +:+ rest) = Some (snd m, rest)) ->
    list_sum (map (fun m => S (weight (snd m))) (m :: ms)) <= fuel ->
    parseMembers fuel
      (memberFlat m +:+ flatTail "}" (map memberFlat ms) rest) = Some (m :: ms, rest).
Proof.
  assert (forall m fuel tail,
    (forall fuel rest, weight (snd m) <= fuel ->
       parseValue fuel (stringifyFlat (snd m) +:+ rest) = Some (snd m, rest)) ->
    weight (snd m) <= fuel ->
    parseMembers (S fuel) (memberFlat m +:+ tail) =
    match startsWith "," (skipWs tail), startsWith "}" (skipWs tail) with
    | Some r4, _ =>
        match parseMembers fuel r4 with
        | Some (ms, r5) => Some (m :: ms, r5)
        | None => None
        end
    | None, Some r4 => Some ([m], r4)
    | None, None => None
    end) as Hstep.
  { intros [key x] fuel tail Hx Hfuel. simpl in Hx, Hfuel.
    rewrite parseMembers_step.
    unfold memberFlat, quote. simpl fst. simpl snd.
    rewrite !append_cons, skipWs_nonws by done. rewrite startsWith_cons.
    rewrite !append_assoc, !append_cons, !append_nil_l, stringBody_escape.
    rewrite skipWs_nonws by done.
    rewrite startsWith_cons.
    by rewrite Hx. }
  induction 1 as [|y ys Hy Hys IH]; intros m fuel rest Hm Hfuel.
  - destruct fuel as [|fuel]; [simpl in Hfuel; lia|].
    rewrite Hstep; [|done|simpl in Hfuel; lia].
    reflexivity.
  - destruct fuel as [|fuel]; [simpl in Hfuel; lia|].
    rewrite Hstep; [|done|simpl in Hfuel; lia].
    unfold flatTail. simpl map. simpl fold_right.
    fold (flatTail "}" (map memberFlat ys) rest).
    rewrite append_cons, append_nil_l, skipWs_nonws by done.
    rewrite startsWith_cons.
    rewrite IH; [done|done|]. simpl in *. lia.
Qed.

(** Parsing a value printed flat gives the value back and stops where
    the print ends. *)
Lemma parseValue_flat v :
  distinctNames v ->
  forall fuel rest, weight v <= fuel ->
    parseValue fuel (stringifyFlat v +:+ rest) = Some (v, rest).
Proof.
  induction v as [|b|s|xs IH|ms IH] using value_rect'; intros Hd fuel rest Hfuel;
    (destruct fuel as [|fuel]; [simpl in Hfuel; lia|]).
  - reflexivity.
  - by destruct b.
  - simpl stringifyFlat. unfold quote. rewrite append_cons, parseValue_Str.
    by rewrite stringBody_quote.
  - apply distinctNames_Arr in Hd.
    destruct xs as [|x xs]; [reflexivity|].
    apply Forall_cons in IH as [IHx IHxs]. apply Forall_cons in Hd as [Hdx Hdxs].
    rewrite stringifyFlat_Arr, parseValue_Arr.
    destruct (stringifyFlat_start x (flatTail "]" (map stringifyFlat xs) rest))
      as (-> & -> & _).
    rewrite (parseElements_flat xs); [done| |by auto|cbn [weight] in Hfuel; lia].
    rewrite Forall_forall in *. intros y Hy. by auto.
  - apply distinctNames_Obj in Hd as [Hnd Hd].
    destruct ms as [|m ms]; [reflexivity|].
    rewrite <- (object_distinct (m :: ms) Hnd) at 2.
    apply Forall_cons in IH as [IHx IHxs]. apply Forall_cons in Hd as [Hdx Hdxs].
    rewrite stringifyFlat_Obj, parseValue_Obj.
    assert (startsWith "}" (skipWs (memberFlat m +:+
              flatTail "}" (map memberFlat ms) rest)) = None) as ->.
    { unfold memberFlat, quote. by rewrite !append_cons, skipWs_nonws. }
    rewrite (parseMembers_flat ms); [done| |by auto|cbn [weight] in Hfuel; lia].
    rewrite Forall_forall in *. intros y Hy. by auto.
Qed.

Lemma length_flatTail close items rest :
  list_sum (map (fun i => S (String.length i)) items) + String.length close <=
  String.length (flatTail close items rest).
Proof.
  unfold flatTail. induction items as [|i items IH]; simpl.
  - rewrite length_append. lia.
  - rewrite !length_append. simpl. lia.
Qed.

(** A value printed flat has at least as many characters as the parser
    needs fuel. *)
Lemma weight_le_length_flat v : weight v <= String.length (stringifyFlat v).
Proof.
  induction v as [|b|s|xs IH|ms IH] using value_rect'.
  - simpl. lia.
  - destruct b; simpl; lia.
  - simpl. lia.
  - destruct xs as [|x xs]; [simpl; lia|].
    rewrite <- (append_nil_r (stringifyFlat (Arr (x :: xs)))), stringifyFlat_Arr.
    apply Forall_cons in IH as [IHx IHxs].
    cbn [weight map list_sum String.length]. rewrite length_append.
    pose proof (length_flatTail "]" (map stringifyFlat xs) "") as Ht.
    rewrite map_map in Ht.
    pose proof (list_sum_le (fun x => S (weight x)) (fun x => S (String.length (stringifyFlat x)))
                  xs) as Hs.
    cbn [foldr]. unfold list_sum in *.
    assert (Forall (fun x => S (weight x) <= S (String.length (stringifyFlat x))) xs) as Hall.
    { eapply Forall_impl; [exact IHxs|]. intros y Hy. cbv beta in Hy |- *. lia. }
    specialize (Hs Hall). simpl in *. lia.
  - destruct ms as [|m ms]; [simpl; lia|].
    rewrite <- (append_nil_r (stringifyFlat (Obj (m :: ms)))), stringifyFlat_Obj.
    apply Forall_cons in IH as [IHx IHxs].
    cbn [weight map list_sum String.length]. rewrite length_append.
    pose proof (length_flatTail "}" (map memberFlat ms) "") as Ht.
    rewrite map_map in Ht.
    pose proof (list_sum_le (fun m => S (weight (snd m)))
                  (fun m => S (String.length (memberFlat m))) ms) as Hs.
    assert (forall m : string * value, String.length (stringifyFlat (snd m)) <=
                        String.length (memberFlat m)) as Hmem.
    { intros m'. unfold memberFlat. rewrite !length_append. lia. }
    assert (Forall (fun m => S (weight (snd m)) <= S (String.length (memberFlat m))) ms) as Hall.
    { eapply Forall_impl; [exact IHxs|]. intros y Hy. cbv beta in Hy |- *.
      specialize (Hmem y). lia. }
    specialize (Hs Hall). specialize (Hmem m). cbn [foldr]. unfold list_sum in *.
    simpl in *. lia.
Qed.

(** [JSON.parse] undoes [JSON.stringify] without indentation too. *)
Lemma parse_stringifyFlat v : distinctNames v -> parse (stringifyFlat v) = Some v.
Proof.
  intros Hd. unfold parse.
  rewrite <- (append_nil_r (stringifyFlat v)) at 2.
  rewrite (parseValue_flat v Hd); [done|]. apply weight_le_length_flat.
Qed.

End FlatFacts.

Section Storage.
Import JSON.
Implicit Types (st : State) (seed : list Task.t).

Lemma persist_nonempty st : JSString.truthy (Some (persist st)) = true.
Proof.
  unfold persist. destruct (tasks st) as [|t l]; [reflexivity|].
  cbn [map]. rewrite <- (append_nil_r (stringifyFlat _)), stringifyFlat_Arr. reflexivity.
Qed.

(** A text that starts like no JSON value is refused by [parse]. *)
Lemma parse_notJSON text : notJSON text = true -> parse text = None.
Proof.
  unfold notJSON, parse. intros H.
  destruct text as [|c0 r0]; [done|].
  cbn [String.length]. cbn [parseValue].
  destruct (skipWs (String c0 r0)) as [|c r]; [done|].
  apply negb_true_iff in H. unfold startsValue in H.
  repeat (apply orb_false_iff in H as [H ?]).
  cbn [literal startsWith].
  repeat match goal with
         | E : Ascii.eqb _ c = false |- _ => rewrite E; clear E
         end.
  done.
Qed.

(** X20: the task list that the second effect stores is the one the
    first effect loads on the next visit, task for task and field for
    field, the empty list included: once something is stored the seed
    tasks do not come back.  They are what is loaded when nothing is
    stored, or the empty string, or a text that is certainly no JSON:
    white space only, or a text that starts like no JSON value, as
    "undefined" does.  The import button reads the stored text as well
    as an exported file. *)
Theorem load_what_persist_stored seed st st' :
  load seed (Some (persist st)) st' = Loaded (setTasks (fun _ => tasks st) st') /\
  importJSON (persist st) st' = Replaced (setTasks (fun _ => tasks st) st') /\
  load seed None st' = Loaded (setTasks (fun _ => seed) st') /\
  load seed (Some "") st' = Loaded (setTasks (fun _ => seed) st') /\
  load seed (Some "undefined") st' = Loaded (setTasks (fun _ => seed) st') /\
  (forall raw, notJSON raw = true ->
     load seed (Some raw) st' = Loaded (setTasks (fun _ => seed) st')).
Proof.
  assert (parse (persist st) = Some (Arr (map Task_value (tasks st)))) as Hparse.
  { apply parse_stringifyFlat, distinctNames_export. }
  assert (mapM Task_of_value (map Task_value (tasks st)) = Some (tasks st)) as Hmap.
  { change (map Task_value (tasks st)) with (Task_value <$> tasks st).
    apply (mapM_fmap_Some Task_of_value Task_value (tasks st) Task_of_value_value). }
  split; [|split; [|split; [|split; [|split]]]].
  - unfold load. rewrite persist_nonempty.
    change (default EmptyString (Some (persist st))) with (persist st).
    by rewrite Hparse, Hmap.
  - unfold importJSON. by rewrite Hparse, Hmap.
  - reflexivity.
  - reflexivity.
  - reflexivity.
  - intros raw Hraw. unfold load. destruct (JSString.truthy (Some raw)); [|done].
    change (default EmptyString (Some raw)) with raw.
    by rewrite (parse_notJSON raw Hraw), Hraw.
Qed.

End Storage.

(** ** The task form *)

Section Form.
Import TaskForm.
Implicit Types (f : TaskForm.t) (x t : Task.t) (n : NextStep.t) (uid id : string)
               (st : State).

Lemma nonempty_trim_blank s : JSString.nonempty (JSString.trim s) = negb (blank s).
Proof.
  unfold JSString.nonempty. destruct (blank s) eqn:Hb.
  - apply trim_blank in Hb. by rewrite Hb.
  - destruct (String.eqb_spec (JSString.trim s) "") as [He|He]; [|done].
    apply trim_blank in He. congruence.
Qed.

Lemma with_nextSteps_same x : with_nextSteps (Task.nextSteps x) x = x.
Proof. by destruct x. Qed.

Lemma with_nextSteps_twice ns ns' x :
  with_nextSteps ns (with_nextSteps ns' x) = with_nextSteps ns x.
Proof. reflexivity. Qed.

(** X21: the "Add" button of the form does nothing, and clears
    nothing, while the text is blank; otherwise it puts one step after
    the steps there are, with the drawn id, the trimmed text, the chosen
    date or none, and no [done] mark, leaves the rest of the task alone
    and empties both inputs. *)
Theorem addNextStep_appends_one uid f :
  (blank (nsText f) = true -> addNextStep uid f = f) /\
  (blank (nsText f) = false ->
     let f' := addNextStep uid f in
     Task.nextSteps (task f') =
       Task.nextSteps (task f) ++
       [NextStep.mk uid (JSString.trim (nsText f))
                    (if String.eqb (nsDate f) "" then None else Some (nsDate f)) None] /\
     task f' = with_nextSteps (Task.nextSteps (task f')) (task f) /\
     nsText f' = "" /\ nsDate f' = "").
Proof.
  unfold addNextStep. rewrite nonempty_trim_blank. split.
  - by intros ->.
  - intros ->. cbv zeta. cbn [negb]. split; [|done].
    cbn [task with_nextSteps Task.nextSteps]. do 2 f_equal.
    unfold or_undefined, JSString.nonempty. by destruct (String.eqb (nsDate f) "").
Qed.

(** X22: the bin of a step in the form removes the steps with that id
    and no other, keeps the order of the rest and both inputs; pressed on
    a step just added, whose id no other step has, it gives the task
    back as it was before the step was added. *)
Theorem removeNextStep_removes_by_id id f :
  let f' := removeNextStep id f in
  (forall n, n ∈ Task.nextSteps (task f') <->
             n ∈ Task.nextSteps (task f) /\ NextStep.id n <> id) /\
  sublist (Task.nextSteps (task f')) (Task.nextSteps (task f)) /\
  task f' = with_nextSteps (Task.nextSteps (task f')) (task f) /\
  nsText f' = nsText f /\ nsDate f' = nsDate f /\
  (blank (nsText f) = false ->
   (forall n, n ∈ Task.nextSteps (task f) -> NextStep.id n <> id) ->
   task (removeNextStep id (addNextStep id f)) = task f).
Proof.
  cbv zeta. split; [|split; [|split; [done|split; [done|split; [done|]]]]].
  - intros n. cbn [removeNextStep task with_nextSteps Task.nextSteps].
    rewrite elem_of_List_filter, negb_true_iff. by rewrite String.eqb_neq.
  - apply List_filter_sublist.
  - intros Hb Hfresh. unfold addNextStep. rewrite nonempty_trim_blank, Hb.
    cbv zeta. cbn [negb]. unfold removeNextStep. cbn [task].
    rewrite with_nextSteps_twice. cbn [with_nextSteps Task.nextSteps].
    rewrite List.filter_app. cbn [List.filter NextStep.id].
    rewrite String.eqb_refl. cbn [negb]. rewrite app_nil_r.
    rewrite List_filter_all.
    + apply with_nextSteps_same.
    + intros n Hn. apply negb_true_iff, String.eqb_neq. by apply Hfresh.
Qed.

Lemma or_else_Some_empty s : JSString.or_else (Some s) "" = s.
Proof.
  unfold JSString.or_else, JSString.nonempty.
  by destruct (String.eqb_spec s "") as [->|].
Qed.

(** X23: the task the submit handler saves is in a normal form that
    saving again does not change: title and description carry no white
    space at either end, the description is a string, and an empty due
    date has become none, so that the saved task sorts by due date where
    the form's did. *)
Theorem clean_normalises x :
  clean (clean x) = clean x /\
  JSString.trim (Task.title (clean x)) = Task.title (clean x) /\
  (exists d, Task.description (clean x) = Some d /\ JSString.trim d = d) /\
  Task.dueDate (clean x) <> Some "" /\
  (Task.dueDate (clean x) = None <-> JSString.truthy (Task.dueDate x) = false) /\
  dueKey (clean x) = dueKey x /\
  Task.id (clean x) = Task.id x /\ Task.category (clean x) = Task.category x /\
  Task.status (clean x) = Task.status x /\ Task.createdAt (clean x) = Task.createdAt x /\
  Task.nextSteps (clean x) = Task.nextSteps x.
Proof.
  destruct x as [i ti de c s du cr ns]. unfold clean.
  cbn [Task.id Task.title Task.description Task.category Task.status Task.dueDate
       Task.createdAt Task.nextSteps].
  split; [|split; [|split; [|split; [|split; [|split]]]]].
  - f_equal.
    + apply trim_idemp.
    + by rewrite or_else_Some_empty, trim_idemp.
    + destruct du as [d|]; [|done]. simpl.
      destruct (JSString.nonempty d) eqn:Hd; simpl; by rewrite ?Hd.
  - apply trim_idemp.
  - eexists. split; [done|]. apply trim_idemp.
  - destruct du as [d|]; [|done]. simpl. unfold JSString.nonempty.
    destruct (String.eqb_spec d "") as [->|Hd]; simpl; congruence.
  - destruct du as [d|]; [|done]. simpl. by destruct (JSString.nonempty d).
  - unfold dueKey. simpl. destruct du as [d|]; [|done]. simpl.
    destruct (JSString.nonempty d) eqn:Hd; simpl; by rewrite ?Hd.
  - done.
Qed.

Lemma upsert_same t l i :
  NoDup (map Task.id l) -> l !! i = Some t -> upsert t l = l.
Proof.
  intros Hnd Hi. rewrite (upsert_unique t l i t Hnd Hi eq_refl).
  by apply list_insert_id.
Qed.

(** X24: "Add Task", a title typed, "Save Task": with a drawn id that no
    task has, the new task is first in the store, its title trimmed, in
    the first category, active, without a due date and without steps;
    the other tasks are as they were and the modal is closed. *)
Theorem add_then_save_puts_task_first env uid title st :
  (forall p, p ∈ tasks st -> Task.id p <> uid) ->
  let st1 := onAddTask env uid st in
  let f := setTitle title (init (newTask env uid)) in
  let st2 := onSubmit f st1 in
  modalShown st1 = true /\ editing st1 = Some (newTask env uid) /\
  tasks st1 = tasks st /\
  tasks st2 =
    Task.mk uid (JSString.trim title) (Some "") Dealership Active None
            (JSDate.toISOString (JSDate.now env)) [] :: tasks st /\
  modalShown st2 = false /\ editing st2 = None.
Proof.
  intros Hfresh st1 f st2. split; [done|]. split; [done|]. split; [done|].
  split; [|done].
  unfold st2, onSubmit. rewrite tasks_upsertTask.
  rewrite upsert_absent; [done|]. exact Hfresh.
Qed.

(** X25: opening a task of the store whose ids are distinct and
    saving it untouched leaves the store as it is, provided the task is
    in the form's normal form, as every task saved through the form
    is. *)
Theorem save_untouched_keeps_store t st i :
  tasks st !! i = Some t ->
  NoDup (map Task.id (tasks st)) ->
  clean t = t ->
  let st' := onSubmit (init t) (onEdit t st) in
  tasks st' = tasks st /\ modalShown st' = false /\ editing st' = None /\
  modalShown (onEdit t st) = true.
Proof.
  intros Hi Hnd Hclean st'. split; [|done].
  unfold st', onSubmit. rewrite tasks_upsertTask. cbn [init task]. rewrite Hclean.
  by apply (upsert_same t (tasks st) i).
Qed.

End Form.

(** ** Class lists *)

Section ClassNames.
Implicit Types (args : list (option string)) (l : list string).

Lemma join_two sep (s : string) l :
  l <> [] -> join sep (s :: l) = s +:+ sep +:+ join sep l.
Proof. by destruct l. Qed.

Lemma join_app sep l l' :
  l <> [] -> l' <> [] -> join sep (l ++ l') = join sep l +:+ sep +:+ join sep l'.
Proof.
  intros Hl Hl'. induction l as [|s l IH]; [done|].
  destruct l as [|s' l].
  - simpl app. by rewrite join_two.
  - change ((s :: s' :: l) ++ l') with (s :: ((s' :: l) ++ l')).
    rewrite join_two by done. rewrite IH by done.
    rewrite (join_two sep s (s' :: l)) by done. by rewrite !append_assoc.
Qed.

Lemma join_empty sep l :
  Forall (fun s => s <> "") l -> join sep l = "" -> l = [].
Proof.
  intros Hall. destruct l as [|s l]; [done|].
  apply Forall_cons in Hall as [Hs _]. destruct l as [|s' l].
  - simpl. intros ->. done.
  - rewrite join_two by done. destruct s; [done|]. by rewrite append_cons.
Qed.

Lemma classes_nonempty args :
  Forall (fun s => s <> "") (map (default EmptyString) (List.filter JSString.truthy args)).
Proof.
  induction args as [|[s|] args IH]; simpl; [constructor| |exact IH].
  unfold JSString.nonempty. destruct (String.eqb_spec s "") as [->|Hs]; simpl; [exact IH|].
  by constructor.
Qed.

(** X26: [classNames] of one string is that string, an argument that
    is no string or the empty one is skipped, and the class list of two
    argument lists one after the other is the two class lists with one
    space between them, or the one that is not empty: the arguments that
    are non-empty strings, in their order, with single spaces between
    them, and no gap where a condition fails. *)
Theorem classNames_skips_falsy args args' :
  (forall s, classNames [Some s] = s) /\
  classNames [] = "" /\
  classNames (None :: args) = classNames args /\
  classNames (Some "" :: args) = classNames args /\
  (classNames args = "" <-> Forall (fun a => JSString.truthy a = false) args) /\
  classNames (args ++ args') =
    (if String.eqb (classNames args) "" then classNames args'
     else if String.eqb (classNames args') "" then classNames args
     else classNames args +:+ " " +:+ classNames args') /\
  (forall s s', s <> "" -> s' <> "" ->
     classNames (Some s :: None :: Some s' :: nil) = s +:+ " " +:+ s').
Proof.
  assert (forall a, classNames a = "" <-> List.filter JSString.truthy a = []) as Hempty.
  { intros a. unfold classNames. split.
    - intros H. apply join_empty in H; [|apply classes_nonempty].
      by destruct (List.filter JSString.truthy a).
    - by intros ->. }
  split; [|split; [done|split; [done|split; [done|split; [|split]]]]].
  - intros s. unfold classNames. simpl. unfold JSString.nonempty.
    by destruct (String.eqb_spec s "") as [->|].
  - rewrite Hempty. induction args as [|a args IH]; [by split|].
    simpl. rewrite Forall_cons. destruct (JSString.truthy a); [|tauto].
    split; [done|]. by intros [? _].
  - unfold classNames at 1. rewrite List.filter_app, map_app.
    destruct (String.eqb_spec (classNames args) "") as [Ha|Ha].
    + apply Hempty in Ha. by rewrite Ha.
    + destruct (String.eqb_spec (classNames args') "") as [Ha'|Ha'].
      * apply Hempty in Ha'. rewrite Ha'. simpl. by rewrite app_nil_r.
      * apply join_app.
        -- intros H. apply Ha. unfold classNames. by rewrite H.
        -- intros H. apply Ha'. unfold classNames. by rewrite H.
  - intros s s' Hs Hs'. unfold classNames. simpl. unfold JSString.nonempty.
    destruct (String.eqb_spec s "") as [|_]; [done|].
    destruct (String.eqb_spec s' "") as [|_]; [done|]. reflexivity.
Qed.

End ClassNames.

(** ** Worked inputs for the rest of the component *)

Section MoreScenarios.
Import JSDate.

Lemma store_keeps_ids_distinct_witness :
  NoDup (map Task.id (tasks twoTasks)) /\
  NoDup (map Task.id (tasks (upsertTask undatedTask twoTasks))) /\
  NoDup (map Task.id (tasks (removeTask "t4" twoTasks))).
Proof.
  assert (NoDup (map Task.id (tasks twoTasks))) as Hnd.
  { simpl. apply NoDup_cons. split; [by intros [=]%list_elem_of_singleton|].
    apply NoDup_singleton. }
  split; [exact Hnd|].
  destruct (store_keeps_ids_distinct undatedTask "t4" twoTasks Hnd) as (H1 & H2 & _).
  by split.
Defined.

Lemma filtered_blank_query_witness :
  blank "  " = true /\
  filtered (setQuery "  " lateState) = filtered (setQuery "" lateState).
Proof.
  split; [reflexivity|]. apply (filtered_blank_query lateState "  "). reflexivity.
Defined.

Lemma filtered_createdAt_newest_first_witness :
  CollatesShape instantShape JSString.localeCompare /\
  sortKey byCreation = SortCreatedAt /\
  (forall t, t ∈ tasks byCreation -> shaped instantShape (Task.createdAt t) = true) /\
  filteredOn JSString.localeCompare byCreation = [undatedTask; lateTask; dueJune10] /\
  forall i j a b, filteredOn JSString.localeCompare byCreation !! i = Some a ->
    filteredOn JSString.localeCompare byCreation !! j = Some b ->
    (i < j)%nat -> sle (Task.createdAt b) (Task.createdAt a).
Proof.
  assert (forall t, t ∈ tasks byCreation -> shaped instantShape (Task.createdAt t) = true)
    as Hshape.
  { intros t Ht. simpl in Ht.
    apply elem_of_cons in Ht as [->|Ht]; [reflexivity|].
    apply elem_of_cons in Ht as [->|Ht]; [reflexivity|].
    apply list_elem_of_singleton in Ht as ->. reflexivity. }
  split; [exact (code_units_collate instantShape)|]. split; [reflexivity|].
  split; [exact Hshape|]. split; [reflexivity|].
  exact (proj1 (proj2 (filtered_createdAt_newest_first JSString.localeCompare byCreation
                         (code_units_collate instantShape) eq_refl Hshape))).
Defined.

Lemma filtered_category_alphabetical_witness :
  sortKey byCategoryName = SortCategory /\
  filtered byCategoryName = [lateTask; undatedTask; dueJune10] /\
  forall c, inCategory c (filtered byCategoryName) = inCategory c (kept byCategoryName).
Proof.
  split; [reflexivity|]. split; [reflexivity|].
  exact (proj2 (proj2 (filtered_category_alphabetical byCategoryName eq_refl))).
Defined.

Lemma isOverdue_after_local_end_of_day_witness :
  parseDay "2024-06-09" = Some 19883 /\
  19883 < localDay newYorkNoon (now newYorkNoon) /\
  isOverdue newYorkNoon (Some "2024-06-09") = true.
Proof.
  assert (parseDay "2024-06-09" = Some 19883) as HD by reflexivity.
  assert (19883 < localDay newYorkNoon (now newYorkNoon)) as Hlt by (by vm_compute).
  split; [exact HD|]. split; [exact Hlt|].
  exact (proj1 (proj2 (isOverdue_after_local_end_of_day newYorkNoon "2024-06-09" 19883 HD))
               Hlt).
Defined.

Lemma dueBadge_utc_witness :
  LocalTZA utcNoon = 0 /\ Task.dueDate dueJune10 = Some "2024-06-10" /\
  parseDay "2024-06-10" = Some 19884 /\
  dueBadge utcNoon dueJune10 = Some Amber.
Proof.
  assert (parseDay "2024-06-10" = Some 19884) as HD by reflexivity.
  split; [reflexivity|]. split; [reflexivity|]. split; [exact HD|].
  destruct (dueBadge_utc utcNoon dueJune10 "2024-06-10" 19884 eq_refl eq_refl HD)
    as (_ & Htoday & _).
  apply Htoday; by vm_compute.
Defined.

Lemma startOfWeek_last_such_weekday_witness :
  0 <= 1 <= 6 /\
  getDay newYorkNoon (startOfWeek newYorkNoon (now newYorkNoon) 1) = 1 /\
  startOfWeek newYorkNoon (now newYorkNoon) 1 = now newYorkNoon.
Proof.
  assert (0 <= 1 <= 6) as Hw by lia.
  split; [exact Hw|].
  destruct (startOfWeek_last_such_weekday newYorkNoon (now newYorkNoon) 1 Hw)
    as (Hday & _ & _ & Hsame & _).
  split; [exact Hday|]. apply Hsame. by vm_compute.
Defined.

Lemma calendarMatrix_covers_month_witness :
  ~ (0 <= getFullYear berlinNoon (calendarCursor juneCalendar) <= 99) /\
  isSameMonth berlinNoon (now berlinNoon) (calendarCursor juneCalendar) = true /\
  exists k cell,
    (k < 42)%nat /\
    calendarMatrix berlinNoon (calendarCursor juneCalendar) !! k = Some cell /\
    isSameDay berlinNoon cell (now berlinNoon) = true.
Proof.
  assert (~ (0 <= getFullYear berlinNoon (calendarCursor juneCalendar) <= 99)) as Hy.
  { assert (getFullYear berlinNoon (calendarCursor juneCalendar) = 2024) as ->
      by (by vm_compute).
    lia. }
  assert (isSameMonth berlinNoon (now berlinNoon) (calendarCursor juneCalendar) = true)
    as Hm by (by vm_compute).
  split; [exact Hy|]. split; [exact Hm|].
  destruct (calendarMatrix_covers_month berlinNoon (calendarCursor juneCalendar)
              (now berlinNoon) Hy Hm) as (k & cell & Hk & Hcell & Hday & _).
  exists k, cell. split; [exact Hk|]. split; [exact Hcell|exact Hday].
Defined.


Lemma add_then_save_puts_task_first_witness :
  (forall p, p ∈ tasks twoTasks -> Task.id p <> "t9") /\
  tasks (TaskForm.onSubmit
           (TaskForm.setTitle " Call Julie " (TaskForm.init (newTask utcNoon "t9")))
           (onAddTask utcNoon "t9" twoTasks)) =
    Task.mk "t9" "Call Julie" (Some "") Dealership Active None
            "2024-06-10T12:00:00.000Z" [] :: tasks twoTasks.
Proof.
  assert (forall p, p ∈ tasks twoTasks -> Task.id p <> "t9") as Hfresh.
  { intros p Hp. simpl in Hp.
    apply elem_of_cons in Hp as [->|Hp]; [done|].
    apply list_elem_of_singleton in Hp as ->. done. }
  split; [exact Hfresh|].
  destruct (add_then_save_puts_task_first utcNoon "t9" " Call Julie " twoTasks Hfresh)
    as (_ & _ & _ & Htasks & _).
  rewrite Htasks. reflexivity.
Defined.

Lemma save_untouched_keeps_store_witness :
  tasks savedStore !! 1%nat = Some savedTask /\
  NoDup (map Task.id (tasks savedStore)) /\
  TaskForm.clean savedTask = savedTask /\
  tasks (TaskForm.onSubmit (TaskForm.init savedTask) (onEdit savedTask savedStore)) =
    tasks savedStore.
Proof.
  assert (NoDup (map Task.id (tasks savedStore))) as Hnd.
  { simpl. apply NoDup_cons. split; [by intros [=]%list_elem_of_singleton|].
    apply NoDup_singleton. }
  split; [reflexivity|]. split; [exact Hnd|]. split; [reflexivity|].
  exact (proj1 (save_untouched_keeps_store savedTask savedStore 1 eq_refl Hnd eq_refl)).
Defined.

End MoreScenarios.

(** ** Arrays that the views leave alone *)

Section Untouched.
Implicit Types (st : State) (r : JSArray.ref).

(** X27: looking up the nearest next step on the heap gives the step
    that [nearestNextStep] computes and leaves the task's array of steps,
    and every other array there was, as it found them: the sort works on
    the array that [filter] built. *)
Theorem nearestNextStepM_leaves_steps (task : Task.t) r
    (h : gmap positive (list NextStep.t)) :
  h !! r = Some (Task.nextSteps task) ->
  let '(res, h') := nearestNextStepM r h in
  res = nearestNextStep task /\
  h' !! r = Some (Task.nextSteps task) /\
  forall r', is_Some (h !! r') -> h' !! r' = h !! r'.
Proof.
  intros Hr.
  assert (forall r0 (h0 : gmap positive (list NextStep.t)) l,
            h0 !! r0 = Some l -> JSArray.read r0 h0 = l) as Hread.
  { intros r0 h0 l H0. unfold JSArray.read. by rewrite H0. }
  unfold nearestNextStepM, nearestNextStep. rewrite (Hread _ _ _ Hr).
  destruct (negb (0 <? length (Task.nextSteps task))%nat); [by repeat split|].
  unfold JSArray.filter, JSArray.alloc. rewrite (Hread _ _ _ Hr).
  set (w := fresh (dom h)).
  set (h1 := <[w := List.filter dated (Task.nextSteps task)]> h).
  assert (h !! w = None) as Hw by (apply not_elem_of_dom, is_fresh).
  assert (w <> r) as Hne by congruence.
  assert (h1 !! w = Some (List.filter dated (Task.nextSteps task))) as Hw1
    by apply lookup_insert_eq.
  assert (forall r', r' <> w -> h1 !! r' = h !! r') as Hf1
    by (intros r' Hr'; by apply lookup_insert_ne).
  assert (h1 !! r = Some (Task.nextSteps task)) as Hr1 by (by rewrite Hf1).
  rewrite (Hread _ _ _ Hw1).
  destruct (negb (0 <? length (List.filter dated (Task.nextSteps task)))%nat).
  - rewrite (Hread _ _ _ Hr1). split; [done|]. split; [done|].
    intros r' [x Hx]. apply Hf1. congruence.
  - unfold JSArray.sort.
    rewrite (Hread w (alter _ w h1) (JSArray.sorted _ (List.filter dated (Task.nextSteps task))))
      by (by rewrite lookup_alter_eq, Hw1).
    split; [done|]. split.
    + by rewrite lookup_alter_ne.
    + intros r' [x Hx]. assert (w <> r') as Hne' by congruence.
      rewrite lookup_alter_ne by done. by apply Hf1.
Qed.

(** X28: the [filtered] memo, with any filters and any sort key, never
    touches the array in the [tasks] state nor any other array there is;
    each run returns a new array, so that after two runs the two results
    are two arrays that hold the same list. *)
Theorem filteredM_returns_new_array st r (h : gmap positive (list Task.t)) :
  h !! r = Some (tasks st) ->
  let '(r1, h1) := filteredM st r h in
  let '(r2, h2) := filteredM st r h1 in
  h !! r1 = None /\ r1 <> r2 /\
  h2 !! r1 = Some (filtered st) /\ h2 !! r2 = Some (filtered st) /\
  h2 !! r = Some (tasks st) /\
  forall r', is_Some (h !! r') -> h2 !! r' = h !! r'.
Proof.
  intros Hr. pose proof (filteredM_spec st r h Hr) as H1.
  destruct (filteredM st r h) as [r1 h1]. destruct H1 as (Hn1 & Hr1 & Hf1).
  assert (h1 !! r = Some (tasks st)) as Hr' by (rewrite Hf1; [done|by eexists]).
  pose proof (filteredM_spec st r h1 Hr') as H2.
  destruct (filteredM st r h1) as [r2 h2]. destruct H2 as (Hn2 & Hr2 & Hf2).
  split; [done|]. split; [congruence|]. split; [|split; [done|split]].
  - rewrite Hf2; [done|by eexists].
  - rewrite Hf2; [done|by eexists].
  - intros r' Hx. rewrite Hf2, Hf1; [done|done|]. rewrite Hf1; done.
Qed.

End Untouched.

Section HeapScenarios.

Lemma nearestNextStepM_leaves_steps_witness :
  ({[ 1%positive := [stepA; stepB] ]} : gmap positive (list NextStep.t)) !! 1%positive =
    Some (Task.nextSteps (withSteps [stepA; stepB])) /\
  (let '(res, h') := nearestNextStepM 1%positive {[ 1%positive := [stepA; stepB] ]} in
   res = Some stepB /\ h' !! 1%positive = Some [stepA; stepB]).
Proof.
  assert (({[ 1%positive := [stepA; stepB] ]} : gmap positive (list NextStep.t)) !! 1%positive =
          Some (Task.nextSteps (withSteps [stepA; stepB]))) as Hr by reflexivity.
  split; [exact Hr|].
  pose proof (nearestNextStepM_leaves_steps (withSteps [stepA; stepB]) 1%positive _ Hr) as H.
  destruct (nearestNextStepM 1%positive _) as [res h'].
  destruct H as (Hres & Hsteps & _). split; [|exact Hsteps].
  rewrite Hres. reflexivity.
Defined.

Lemma filteredM_returns_new_array_witness :
  ({[ 1%positive := tasks lateState ]} : gmap positive (list Task.t)) !! 1%positive =
    Some (tasks lateState) /\
  (let '(r1, h1) := filteredM lateState 1%positive {[ 1%positive := tasks lateState ]} in
   let '(r2, h2) := filteredM lateState 1%positive h1 in
   r1 <> r2 /\ h2 !! 1%positive = Some (tasks lateState)).
Proof.
  assert (({[ 1%positive := tasks lateState ]} : gmap positive (list Task.t)) !! 1%positive =
          Some (tasks lateState)) as Hr by reflexivity.
  split; [exact Hr|].
  pose proof (filteredM_returns_new_array lateState 1%positive _ Hr) as H.
  destruct (filteredM lateState 1%positive _) as [r1 h1].
  destruct (filteredM lateState 1%positive h1) as [r2 h2].
  destruct H as (_ & Hne & _ & _ & Htasks & _). by split.
Defined.

End HeapScenarios.
